(** * incident.io periodic-note sync: the API client and the section reconciler

    A shallow embedding of [src/api.ts] (backoff policy, retrying request,
    aggregation of a full incident, batch processing, [syncData]) and of
    [src/daily-note.ts] (date-window filter, heading-based replace and removal
    of the managed section), followed by the properties proved about them.

    JavaScript strings are sequences of UTF-16 code units; they are modelled as
    [list N], so that [split], [join], [trim] and [includes] act on the same
    units as in the source.  Numbers that the code only uses as integers
    (line numbers, attempt counters, millisecond instants, HTTP statuses) are
    [nat] or [Z]; a number that may be [NaN] is a [num]. *)

From Stdlib Require Import List ZArith NArith Bool Lia Arith Sorted.
From Stdlib Require Import Ascii.
From Stdlib Require String.
Import ListNotations.
Import String.StringSyntax.
Delimit Scope string_scope with string.

Local Open Scope list_scope.

(* ================================================================== *)
(** * Part I: definitions                                              *)
(* ================================================================== *)

(** ** JavaScript strings *)

Definition code_unit := N.
Definition jsstring := list code_unit.

(** An ASCII literal as a JavaScript string. *)
Definition js (s : String.string) : jsstring :=
  map N_of_ascii (String.list_ascii_of_string s).
Arguments js s%_string.

Definition LF : code_unit := 10%N.
Definition HASH : code_unit := 35%N.

Fixpoint jsstring_eqb (a b : jsstring) : bool :=
  match a, b with
  | [], [] => true
  | x :: a', y :: b' => N.eqb x y && jsstring_eqb a' b'
  | _, _ => false
  end.

(** Truthiness of a string: [s ? _ : _]. *)
Definition truthy (s : jsstring) : bool :=
  match s with [] => false | _ :: _ => true end.

(** ECMAScript [WhiteSpace] and [LineTerminator] code units: what
    [String.prototype.trim] strips and what [\s] matches. *)
Definition is_ws (c : code_unit) : bool :=
  (N.leb 9 c && N.leb c 13) || N.eqb c 32 || N.eqb c 160 || N.eqb c 5760
  || (N.leb 8192 c && N.leb c 8202) || N.eqb c 8232 || N.eqb c 8233
  || N.eqb c 8239 || N.eqb c 8287 || N.eqb c 12288 || N.eqb c 65279.

Fixpoint dropWhile {A} (p : A -> bool) (l : list A) : list A :=
  match l with
  | [] => []
  | x :: t => if p x then dropWhile p t else l
  end.

Definition trimStart (s : jsstring) : jsstring := dropWhile is_ws s.
Definition trimEnd (s : jsstring) : jsstring := rev (dropWhile is_ws (rev s)).
Definition trim (s : jsstring) : jsstring := trimStart (trimEnd s).

Fixpoint starts_with (p s : jsstring) : bool :=
  match p, s with
  | [], _ => true
  | a :: p', b :: s' => N.eqb a b && starts_with p' s'
  | _ :: _, [] => false
  end.

(** [hay.includes(needle)] *)
Fixpoint includes (hay needle : jsstring) : bool :=
  starts_with needle hay
  || match hay with
     | [] => false
     | _ :: t => includes t needle
     end.

(** [s.split('\n')]: never empty, no piece contains a line feed. *)
Fixpoint split_lines (s : jsstring) : list jsstring :=
  match s with
  | [] => [[]]
  | c :: t =>
      if N.eqb c LF then [] :: split_lines t
      else match split_lines t with
           | [] => [[c]]
           | l :: ls => (c :: l) :: ls
           end
  end.

(** [ls.join('\n')] *)
Fixpoint join_lines (ls : list jsstring) : jsstring :=
  match ls with
  | [] => []
  | l :: ls' =>
      match ls' with
      | [] => l
      | _ :: _ => l ++ LF :: join_lines ls'
      end
  end.

(** [l.slice(a, b)] and [l.slice(a)] for non-negative integer bounds. *)
Definition slice {A} (a b : nat) (l : list A) : list A := firstn (b - a) (skipn a l).
Definition slice_from {A} (a : nat) (l : list A) : list A := skipn a l.

(** [s.replace(/\n{3,}/g, '\n\n')].  The pattern is greedy and the scan goes
    left to right, so every maximal run of three or more line feeds is one
    match and is replaced by two; shorter runs do not match.  [k] counts the
    line feeds of the current run already seen (capped at 2). *)
Fixpoint collapse_from (k : nat) (s : jsstring) : jsstring :=
  match s with
  | [] => []
  | c :: t =>
      if N.eqb c LF then
        if k <? 2 then LF :: collapse_from (S k) t else collapse_from k t
      else c :: collapse_from 0 t
  end.

Definition collapseNewlines (s : jsstring) : jsstring := collapse_from 0 s.

(** ** daily-note.ts: the section reconciler *)

(** An entry of the metadata cache: heading text, level and
    [position.start.line]. *)
Record HeadingCache := mkHeading {
  heading : jsstring;
  level : nat;
  line : nat
}.

(** [settings.sectionHeader.replace(/^#+\s*/, '').trim()] *)
Definition stripHeadingMarker (s : jsstring) : jsstring :=
  match s with
  | c :: t =>
      if N.eqb c HASH
      then dropWhile is_ws (dropWhile (fun x => N.eqb x HASH) t)
      else s
  | [] => []
  end.

Definition sectionHeaderText (sectionHeader : jsstring) : jsstring :=
  trim (stripHeadingMarker sectionHeader).

(** [headings.find(heading => heading.heading.trim() === sectionHeaderText)] *)
Definition findExistingHeading (headings : list HeadingCache) (text : jsstring)
  : option HeadingCache :=
  find (fun h => jsstring_eqb (trim (heading h)) text) headings.

(** The loop that looks for the end of the section: the first entry of the
    index, in index order, that starts after the section's line with a level
    not deeper than the section's; the number of lines if there is none. *)
Definition closesSection (existing h : HeadingCache) : bool :=
  (line existing <? line h) && (level h <=? level existing).

Definition endLineNum (lines : list jsstring) (headings : list HeadingCache)
    (existing : HeadingCache) : nat :=
  match find (closesSection existing) headings with
  | Some h => line h
  | None => length lines
  end.

Definition beforeSection (content : jsstring) (existing : HeadingCache) : jsstring :=
  join_lines (slice 0 (line existing) (split_lines content)).

Definition afterSection (content : jsstring) (headings : list HeadingCache)
    (existing : HeadingCache) : jsstring :=
  let lines := split_lines content in
  join_lines (slice_from (endLineNum lines headings existing) lines).

(** [s ? '\n' : ''] *)
Definition sepFor (s : jsstring) : jsstring := if truthy s then [LF] else [].

(** The found-heading branch of [updateDailyNote]. *)
Definition replaceSection (content : jsstring) (headings : list HeadingCache)
    (existing : HeadingCache) (sectionContent : jsstring) : jsstring :=
  let before := beforeSection content existing in
  let after := afterSection content headings existing in
  before ++ sepFor before ++ sectionContent ++ sepFor after ++ after.

(** The text that [updateDailyNote] hands to [vault.process] once a daily note
    exists and the section is not to be removed. *)
Definition updateContent (sectionHeader content : jsstring)
    (headings : list HeadingCache) (sectionContent : jsstring) : jsstring :=
  match findExistingHeading headings (sectionHeaderText sectionHeader) with
  | Some existing => replaceSection content headings existing sectionContent
  | None => content ++ [LF; LF] ++ sectionContent
  end.

(** The body of [removeSectionFromNote] after the heading was found. *)
Definition removeSection (content : jsstring) (headings : list HeadingCache)
    (existing : HeadingCache) : jsstring :=
  trim (collapseNewlines
          (beforeSection content existing ++ afterSection content headings existing)).

(** [removeSectionFromNote]: [None] when the function returns without writing
    (the heading is not in the index), otherwise the text it writes. *)
Definition removeSectionFromNote (sectionHeader content : jsstring)
    (headings : list HeadingCache) : option jsstring :=
  match findExistingHeading headings (sectionHeaderText sectionHeader) with
  | None => None
  | Some existing => Some (removeSection content headings existing)
  end.

(** A daily note as the vault and the metadata cache present it:
    [fileCache?.headings || []]. *)
Record Note := mkNote {
  noteContent : jsstring;
  noteHeadings : option (list HeadingCache)
}.

Definition headingsOf (n : Note) : list HeadingCache :=
  match noteHeadings n with Some hs => hs | None => [] end.

(** [updateDailyNote] from the point where the target note and the rendered
    section are known: the boolean it returns and the new text of the note
    ([None]: the note is not written). *)
Definition updateDailyNote (sectionHeader : jsstring) (omitEmptySections : bool)
    (dailyNote : option Note) (sectionContent : jsstring)
  : bool * option jsstring :=
  match dailyNote with
  | None => (false, None)
  | Some n =>
      if negb (truthy sectionContent) && omitEmptySections
      then (true, removeSectionFromNote sectionHeader (noteContent n) (headingsOf n))
      else (true, Some (updateContent sectionHeader (noteContent n) (headingsOf n)
                          sectionContent))
  end.

(** ** JavaScript numbers, errors and promises *)

(** A time value or a count of minutes, or [NaN]: an integer-valued number
    that is at most 8.64e15 in absolute value, which is below 2^53, so that
    it is a double as it stands.  Where a computation can leave that range
    its rounding is written out ([roundFinite], [roundedQuotient]). *)
Inductive num := NaN | Num (z : Z).

Definition num_leb (a b : num) : bool :=
  match a, b with Num x, Num y => Z.leb x y | _, _ => false end.
Definition num_geb (a b : num) : bool :=
  match a, b with Num x, Num y => Z.geb x y | _, _ => false end.

(** A number as [parseInt] returns it and as the backoff is computed: an
    integer-valued double, an infinity, or [NaN].  An integer is written for
    the double of that value; [-0] is not told from [0]. *)
Inductive number := NotANumber | Finite (z : Z) | Infinity (negative : bool).
Coercion Finite : Z >-> number.

(** The double nearest to an integer, without regard to overflow: the
    integer itself up to 2^53 in absolute value; beyond, the nearest integer
    with 53 significant bits, the one with an even last bit at a tie. *)
Definition roundFinite (z : Z) : Z :=
  let a := Z.abs z in
  if (a <=? 2 ^ 53)%Z then z
  else
    let shift := (Z.log2 a - 52)%Z in
    let q := (a / 2 ^ shift)%Z in
    let r := (a mod 2 ^ shift)%Z in
    let half := (2 ^ (shift - 1))%Z in
    let q' := if (half <? r)%Z || ((r =? half)%Z && Z.odd q) then (q + 1)%Z else q in
    (Z.sgn z * (q' * 2 ^ shift))%Z.

(** The number that an exact integer result becomes: rounded to the nearest
    double, an infinity when that is 2^1024 or more in absolute value. *)
Definition roundDouble (z : Z) : number :=
  let m := roundFinite z in
  if (2 ^ 1024 <=? Z.abs m)%Z then Infinity (m <? 0)%Z else Finite m.

(** [x * 1000] *)
Definition times1000 (x : number) : number :=
  match x with
  | Finite z => roundDouble (z * 1000)
  | Infinity negative => Infinity negative
  | NotANumber => NotANumber
  end.

(** The integer nearest to [num / den] for a positive [den], the even one
    at a tie. *)
Definition nearestEven (num den : Z) : Z :=
  let m0 := (num / den)%Z in
  let r := (num mod den)%Z in
  if (den <? 2 * r)%Z || ((2 * r =? den)%Z && Z.odd m0) then (m0 + 1)%Z else m0.

(** [Math.round(d / n)] for an integer-valued double [d] and a positive
    integer [n] below 2^53.  The quotient is a double: with the exponent [e]
    for which n * 2^e <= |d| < n * 2^(e+1) it is m * 2^(e-52), where the
    significand m is |d| / (n * 2^(e-52)) rounded to the nearest integer, the
    even one at a tie.  [Math.round] then takes the integer nearest to that
    double, the upper one at a tie. *)
Definition roundedQuotient (d n : Z) : Z :=
  let a := Z.abs d in
  if (a =? 0)%Z then 0%Z
  else
    let t := (Z.log2 a - Z.log2 n)%Z in
    let e := if (n * 2 ^ Z.max t 0 <=? a * 2 ^ Z.max (- t) 0)%Z then t else (t - 1)%Z in
    let s := (52 - e)%Z in
    let m := nearestEven (a * 2 ^ Z.max s 0) (n * 2 ^ Z.max (- s) 0) in
    if (s <=? 0)%Z then (Z.sgn d * (m * 2 ^ (- s)))%Z
    else ((2 * (Z.sgn d * m) + 2 ^ s) / 2 ^ (s + 1))%Z.

(** An [Error] instance, and a thrown value ([catch (error)] has to test
    [error instanceof Error]). *)
Record Error := mkError { message : jsstring }.
Inductive Thrown := ErrorObject (e : Error) | OtherValue.

(** The state of an awaited promise: fulfilled, rejected, or not settled
    within the fuel of a loop that the source does not bound. *)
Inductive Res (A : Type) :=
| Ok (a : A)
| Throw (t : Thrown)
| Pending.
Arguments Ok {A} a.
Arguments Throw {A} t.
Arguments Pending {A}.

Definition bind {A B} (r : Res A) (k : A -> Res B) : Res B :=
  match r with
  | Ok a => k a
  | Throw t => Throw t
  | Pending => Pending
  end.

Notation "x <- r ;; k" := (bind r (fun x => k))
  (at level 61, r at next level, right associativity).

(** [try { r } catch (error) { h error }] *)
Definition try_catch {A} (r : Res A) (h : Thrown -> Res A) : Res A :=
  match r with
  | Throw t => h t
  | _ => r
  end.

(** [Promise.all([a, b])]: rejects as soon as one member rejects.  When both
    reject the source gets whichever rejection comes first in time; the model
    takes the left one. *)
Definition all2 {A B} (a : Res A) (b : Res B) : Res (A * B) :=
  match a, b with
  | Throw t, _ => Throw t
  | _, Throw t => Throw t
  | Ok x, Ok y => Ok (x, y)
  | _, _ => Pending
  end.

Definition isThrow {A} (r : Res A) : bool :=
  match r with Throw _ => true | _ => false end.
Definition isOk {A} (r : Res A) : bool :=
  match r with Ok _ => true | _ => false end.

(** [x || d] on an optional array. *)
Definition orEmpty {A} (o : option (list A)) : list A :=
  match o with Some l => l | None => [] end.

(** Truthiness of an optional string. *)
Definition present (o : option jsstring) : bool :=
  match o with Some s => truthy s | None => false end.

(** ** api.ts: the backoff policy *)

Definition MAX_RETRIES : nat := 5.
Definition INITIAL_BACKOFF_MS : Z := 500.
Definition MAX_BACKOFF_MS : Z := 30000.

Definition digit_of (c : code_unit) : option Z :=
  if N.leb 48 c && N.leb c 57 then Some (Z.of_N c - 48)%Z else None.

Fixpoint parse_digits (acc : Z) (s : jsstring) : Z :=
  match s with
  | [] => acc
  | c :: t =>
      match digit_of c with
      | Some d => parse_digits (10 * acc + d)%Z t
      | None => acc
      end
  end.

(** [parseInt(s, 10)]: leading white space is skipped, one sign is read, then
    the longest prefix of decimal digits; [NaN] when that prefix is empty.
    Whatever follows the digits is ignored.  The result is the double
    nearest to the integer that the digits denote (every digit is read, as
    V8 does), so a numeral above 2^53 may be rounded and one of 2^1024 or
    more is an infinity. *)
Definition parseInt10 (s : jsstring) : number :=
  let s1 := trimStart s in
  let '(sign, s2) :=
    match s1 with
    | c :: t =>
        if N.eqb c 45 then ((-1)%Z, t)
        else if N.eqb c 43 then (1%Z, t)
        else (1%Z, s1)
    | [] => (1%Z, [])
    end in
  match s2 with
  | c :: _ =>
      match digit_of c with
      | Some _ => roundDouble (sign * parse_digits 0 s2)
      | None => NotANumber
      end
  | [] => NotANumber
  end.

Section Backoff.
(** [addJitter] draws from [Math.random]; it is a parameter here, as the
    tests inject it. *)
Variable addJitter : number -> number.

(** [Math.pow(2, attempt)] is exact as long as it is finite and an infinity
    after that, and so is its product with 500; the minimum with 30000 is
    the same either way. *)
Definition exponentialBackoff (attempt : nat) : number :=
  let exponentialMs := (INITIAL_BACKOFF_MS * 2 ^ Z.of_nat attempt)%Z in
  let cappedMs := Z.min exponentialMs MAX_BACKOFF_MS in
  addJitter cappedMs.

Definition calculateBackoff (attempt : nat) (retryAfterHeader : option jsstring)
  : number :=
  match retryAfterHeader with
  | Some h =>
      if truthy h then
        match parseInt10 h with
        | NotANumber => exponentialBackoff attempt
        | retryAfterSeconds => addJitter (times1000 retryAfterSeconds)
        end
      else exponentialBackoff attempt
  | None => exponentialBackoff attempt
  end.
End Backoff.

(** The value handed to [addJitter]: [calculateBackoff] with the identity in
    place of the jitter. *)
Definition backoffBase (attempt : nat) (retryAfterHeader : option jsstring) : number :=
  calculateBackoff (fun ms => ms) attempt retryAfterHeader.

(** ** api.ts: request *)

(** What one pass through the [try] block meets: a response of [requestUrl]
    (called with [throw: false]) with its status, [retry-after] header and
    body, or a value thrown inside the block. *)
Inductive Attempt (T : Type) :=
| Response (status : Z) (retryAfter : option jsstring) (json : T)
| Rejected (t : Thrown).
Arguments Response {T} status retryAfter json.
Arguments Rejected {T} t.

(** The result of a logical request together with what it did on the way:
    the pauses it slept, oldest first, and how often it called [requestUrl]. *)
Record Run (T : Type) := mkRun {
  outcome : Res T;
  delays : list number;
  calls : nat
}.
Arguments mkRun {T} outcome delays calls.
Arguments outcome {T} r.
Arguments delays {T} r.
Arguments calls {T} r.

Definition API_REQUEST_FAILED : jsstring := js "API request failed".

(** [String(n)] for an integer: the decimal numeral, most significant digit
    first.  [fuel] bounds the number of digits. *)
Fixpoint digits_of (fuel : nat) (n : N) (acc : jsstring) : jsstring :=
  match fuel with
  | 0 => acc
  | S fuel' =>
      let acc' := (48 + n mod 10)%N :: acc in
      if N.ltb n 10 then acc' else digits_of fuel' (n / 10) acc'
  end.

Definition decimalText (n : N) : jsstring :=
  digits_of (S (N.to_nat (N.size n))) n [].

Definition statusText (status : Z) : jsstring :=
  if Z.ltb status 0 then 45%N :: decimalText (Z.to_N (- status))
  else decimalText (Z.to_N status).

Definition clientError (status : Z) (url : jsstring) : Error :=
  mkError (js "API request failed with status " ++ statusText status ++ js ": " ++ url).

Definition maxRetriesError (url : jsstring) : Error :=
  mkError (js "Max retries (5) exceeded for: " ++ url).

Definition afterDelay {T} (d : number) (r : Run T) : Run T :=
  mkRun (outcome r) (d :: delays r) (S (calls r)).

Section Request.
Variable addJitter : number -> number.
Context {T : Type}.
Variable url : jsstring.
(** The network as this request sees it: what the attempt numbered [n]
    meets. *)
Variable attempts : nat -> Attempt T.

(** The [for] loop of [request], from iteration [attempt] with [remaining]
    iterations left. *)
Fixpoint request_loop (remaining attempt : nat) (lastError : option Error) : Run T :=
  match remaining with
  | 0 =>
      mkRun (Throw (ErrorObject (match lastError with
                                 | Some e => e
                                 | None => maxRetriesError url
                                 end))) [] 0
  | S remaining' =>
      let caught (error : Thrown) : Run T :=
        match error with
        | ErrorObject e =>
            if negb (includes (message e) API_REQUEST_FAILED)
            then afterDelay (calculateBackoff addJitter attempt None)
                   (request_loop remaining' (S attempt) (Some e))
            else mkRun (Throw error) [] 1
        | OtherValue => mkRun (Throw error) [] 1
        end in
      match attempts attempt with
      | Response status retryAfter json =>
          if Z.leb 200 status && Z.ltb status 300 then mkRun (Ok json) [] 1
          else if Z.eqb status 429 then
            afterDelay (calculateBackoff addJitter attempt retryAfter)
              (request_loop remaining' (S attempt) lastError)
          else if Z.leb 500 status then
            afterDelay (calculateBackoff addJitter attempt None)
              (request_loop remaining' (S attempt) lastError)
          else caught (ErrorObject (clientError status url))
      | Rejected error => caught error
      end
  end.

Definition request_run : Run T := request_loop MAX_RETRIES 0 None.
Definition request : Res T := outcome request_run.
End Request.

(** ** types.ts: the records the client reads and builds

    Fields are typed as [types.ts] declares them (optional chaining on a field
    declared required is the identity), but for the role assignments, whose
    members the source filters on.  Fields that nothing below reads
    (summary, severity, incident type, url, custom fields, [updated_at]) are
    left out. *)

Record IncidentIOUser := mkUser {
  user_id : jsstring;
  user_name : jsstring;
  user_email : jsstring
}.

Inductive StatusCategory := live | triage | closed | merged | declined | paused.
Inductive RoleType := lead | reporter | custom.

Definition category_eqb (a b : StatusCategory) : bool :=
  match a, b with
  | live, live | triage, triage | closed, closed
  | merged, merged | declined, declined | paused, paused => true
  | _, _ => false
  end.

Record IncidentStatus := mkStatus {
  status_name : jsstring;
  category : StatusCategory
}.

(** A role assignment as the client treats it: a role can be unassigned, and
    the source tests every assignment for both members
    ([assignment?.role && assignment?.assignee], [role?.assignee?.id]) and
    the role for its type ([role_type || 'custom']).  An assignment that is
    [null] behaves everywhere like one with neither member. *)
Record Assignee := mkAssignee {
  assignee_id : jsstring;
  assignee_name : jsstring
}.

Record AssignedRole := mkAssignedRole {
  role_name : jsstring;
  role_type : option RoleType
}.

Record IncidentRoleAssignment := mkAssignment {
  assignment_assignee : option Assignee;
  assignment_role : option AssignedRole
}.

Record Incident := mkIncident {
  id : jsstring;
  reference : jsstring;
  name : jsstring;
  created_at : jsstring;
  closed_at : option jsstring;
  incident_status : IncidentStatus;
  (** [incident.incident_role_assignments || []] at every use *)
  incident_role_assignments : option (list IncidentRoleAssignment)
}.

Record Schedule := mkSchedule {
  schedule_id : jsstring;
  schedule_name : jsstring
}.

(** [entry.user?.email] *)
Record ScheduleEntry := mkEntry { entry_user_email : option jsstring }.

Record IncidentUpdate := mkUpdate {
  update_created_at : jsstring;
  (** [new_incident_status?.category] *)
  new_status_category : option jsstring
}.

Record FollowUp := mkFollowUp { followup_title : jsstring; followup_status : jsstring }.
Record IncidentAction := mkAction { action_id : jsstring; action_status : jsstring }.
Record IncidentAttachment := mkAttachment { permalink : jsstring }.

(** [incident_timestamp.name] and [value?.value] *)
Record IncidentTimestampValue := mkTimestampValue {
  timestamp_name : jsstring;
  timestamp_value : option jsstring
}.

Record FullRole := mkRole {
  role : jsstring;
  roleType : RoleType;
  assignee : jsstring;
  isUser : bool
}.

Record FullIncident := mkFullIncident {
  full_id : jsstring;
  full_reference : jsstring;
  full_name : jsstring;
  full_created_at : jsstring;
  full_closed_at : option jsstring;
  status : jsstring;
  statusCategory : StatusCategory;
  durationMinutes : option num;
  roles : list FullRole;
  timestamps : list (jsstring * jsstring);
  updates : list IncidentUpdate;
  actions : list IncidentAction;
  followUps : list FollowUp;
  attachments : list IncidentAttachment
}.

Record OnCallResult := mkOnCall { schedules : list jsstring }.

Record IncidentResult := mkIncidentResult {
  result_reference : jsstring;
  result_name : jsstring;
  result_status : jsstring
}.

Record SyncResult := mkSyncResult {
  onCall : option OnCallResult;
  incidents : list IncidentResult;
  fullIncidents : list FullIncident
}.

(** A page of [/incidents]: the rows and [pagination_meta?.after]. *)
Record IncidentsPage := mkPage {
  page_incidents : option (list Incident);
  page_after : option jsstring
}.

(** The filters of [getAllIncidentsPaginated]; [createdAfter] is carried as the
    string that [formatDateForApi] makes of it. *)
Record PageFilters := mkFilters {
  createdAfter : option jsstring;
  activeOnly : bool
}.

(** The remote API: for every resource the client asks for, what each attempt
    of the request meets.  A body is the top-level field the caller reads,
    [None] when the field is missing. *)
Record Network := mkNetwork {
  net_users : nat -> Attempt (option (list IncidentIOUser));
  net_incidents : nat -> Attempt (option (list Incident));
  net_incidents_page : jsstring -> nat -> Attempt IncidentsPage;
  net_schedules : nat -> Attempt (option (list Schedule));
  net_schedule_entries : jsstring -> nat -> Attempt (option (list ScheduleEntry));
  net_updates : jsstring -> nat -> Attempt (option (list IncidentUpdate));
  net_follow_ups : jsstring -> nat -> Attempt (option (list FollowUp));
  net_actions : jsstring -> nat -> Attempt (option (list IncidentAction));
  net_attachments : jsstring -> nat -> Attempt (option (list IncidentAttachment));
  net_timestamps : jsstring -> nat -> Attempt (option (list IncidentTimestampValue))
}.

Definition API_BASE_V2 : jsstring := js "https://api.incident.io/v2".
Definition API_BASE_V1 : jsstring := js "https://api.incident.io/v1".

Inductive Settled (R : Type) := Fulfilled (value : R) | RejectedWith (reason : Thrown).
Arguments Fulfilled {R} value.
Arguments RejectedWith {R} reason.

(** [Promise.allSettled]: settles once every member has. *)
Fixpoint allSettled {R} (ps : list (Res R)) : option (list (Settled R)) :=
  match ps with
  | [] => Some []
  | p :: ps' =>
      match p, allSettled ps' with
      | Ok v, Some rest => Some (Fulfilled v :: rest)
      | Throw t, Some rest => Some (RejectedWith t :: rest)
      | _, _ => None
      end
  end.

(** The inner [for] loop of [processInBatches]: the fulfilled values, in order. *)
Fixpoint fulfilledValues {R} (settled : list (Settled R)) : list R :=
  match settled with
  | [] => []
  | Fulfilled v :: rest => v :: fulfilledValues rest
  | RejectedWith _ :: rest => fulfilledValues rest
  end.

(** [processInBatches], from index [i] with [results] collected so far.  The
    progress callback and the pause between batches do not touch [results]
    and are left out.  The loop is bounded by [fuel] because a batch size of
    0 never advances [i]. *)
Fixpoint processInBatches_from {T R} (fuel : nat) (items : list T) (batchSize : nat)
    (processor : T -> Res R) (i : nat) (results : list R) : Res (list R) :=
  match fuel with
  | 0 => Pending
  | S fuel' =>
      if i <? length items then
        let batch := slice i (i + batchSize) items in
        match allSettled (map processor batch) with
        | Some settledResults =>
            processInBatches_from fuel' items batchSize processor (i + batchSize)
              (results ++ fulfilledValues settledResults)
        | None => Pending
        end
      else Ok results
  end.

Definition processInBatches {T R} (fuel : nat) (items : list T) (batchSize : nat)
    (processor : T -> Res R) : Res (list R) :=
  processInBatches_from fuel items batchSize processor 0 [].

Definition BATCH_SIZE : nat := 5.
Definition pageSize : nat := 250.

Section Client.
Variable addJitter : number -> number.
(** [String.prototype.toLowerCase] *)
Variable toLowerCase : jsstring -> jsstring.
(** [new Date(s).getTime()] *)
Variable DateParse : jsstring -> num.
(** [Array.prototype.sort] with the comparator of [getIncidentTimestamps] *)
Variable sortByTime : list (jsstring * jsstring) -> list (jsstring * jsstring).
(** [encodeURIComponent] *)
Variable encodeURIComponent : jsstring -> jsstring.
(** [formatDateForApi] of today minus the given number of days *)
Variable cutoffDate : nat -> jsstring.
Variable net : Network.

Definition requestV2 {T} (endpoint : jsstring) (attempts : nat -> Attempt T) : Res T :=
  request addJitter (API_BASE_V2 ++ endpoint) attempts.
Definition requestV1 {T} (endpoint : jsstring) (attempts : nat -> Attempt T) : Res T :=
  request addJitter (API_BASE_V1 ++ endpoint) attempts.

Definition getUsers : Res (list IncidentIOUser) :=
  response <- requestV2 (js "/users") (net_users net) ;;
  Ok (orEmpty response).

Definition findUser (identifier : jsstring) : Res (option IncidentIOUser) :=
  users <- getUsers ;;
  let lowerIdentifier := toLowerCase identifier in
  Ok (find (fun u => includes (toLowerCase (user_email u)) lowerIdentifier
                     || includes (toLowerCase (user_name u)) lowerIdentifier) users).

Definition getActiveIncidents : Res (list Incident) :=
  response <- requestV2 (js "/incidents") (net_incidents net) ;;
  Ok (filter (fun inc => category_eqb (category (incident_status inc)) live
                         || category_eqb (category (incident_status inc)) triage)
        (orEmpty response)).

Definition isLead (r : RoleType) : bool :=
  match r with lead => true | _ => false end.

(** [role?.assignee?.id === userId] and [role?.role?.role_type === 'lead'] *)
Definition assignedTo (userId : jsstring) (r : IncidentRoleAssignment) : bool :=
  match assignment_assignee r with
  | Some who => jsstring_eqb (assignee_id who) userId
  | None => false
  end.

Definition isLeadRole (r : IncidentRoleAssignment) : bool :=
  match assignment_role r with
  | Some what => match role_type what with Some t => isLead t | None => false end
  | None => false
  end.

Definition getUserIncidents (userId : jsstring) : Res (list Incident) :=
  incidents <- getActiveIncidents ;;
  Ok (filter (fun inc =>
                existsb (fun r => assignedTo userId r && isLeadRole r)
                  (orEmpty (incident_role_assignments inc))) incidents).

Definition pageBaseUrl (filters : PageFilters) : jsstring :=
  js "/incidents?page_size=250"
  ++ match createdAfter filters with
     | Some d => js "&created_at%5Bgte%5D=" ++ d
     | None => []
     end
  ++ (if activeOnly filters then js "&status_category%5Bone_of%5D=live%2Ctriage" else []).

(** The [do ... while (cursor)] loop of [getAllIncidentsPaginated]; the
    server decides when it ends, so the model counts pages down from [fuel]. *)
Fixpoint getPages (fuel : nat) (baseUrl : jsstring) (cursor : option jsstring)
    (allIncidents : list Incident) : Res (list Incident) :=
  match fuel with
  | 0 => Pending
  | S fuel' =>
      let url := baseUrl ++ (if present cursor
                             then js "&after=" ++ encodeURIComponent (orEmpty cursor)
                             else []) in
      response <- requestV2 url (net_incidents_page net url) ;;
      let incidents := orEmpty (page_incidents response) in
      let allIncidents' := allIncidents ++ incidents in
      let cursor' := page_after response in
      if length incidents <? pageSize then Ok allIncidents'
      else if present cursor' then getPages fuel' baseUrl cursor' allIncidents'
      else Ok allIncidents'
  end.

Definition getAllIncidentsPaginated (fuel : nat) (filters : PageFilters)
  : Res (list Incident) :=
  getPages fuel (pageBaseUrl filters) None [].

(** [options] is present here; [options.days] decides the filter. *)
Definition getUserIncidentsWithHistory (fuel : nat) (userId : jsstring) (days : nat)
  : Res (list Incident) :=
  let filters :=
    if 0 <? days then mkFilters (Some (cutoffDate days)) false
    else mkFilters None true in
  allIncidents <- getAllIncidentsPaginated fuel filters ;;
  Ok (filter (fun inc =>
                existsb (assignedTo userId)
                  (orEmpty (incident_role_assignments inc))) allIncidents).

Definition orDefault (s d : jsstring) : jsstring := if truthy s then s else d.

(** [Math.round((closed.getTime() - created.getTime()) / (1000 * 60))], in
    doubles: the difference of the two time values is rounded to a double
    (it is exact up to 2^53 ms, about 285 000 years), the quotient by 60000
    is rounded to a double, and [Math.round] rounds that to an integer. *)
Definition minutesBetween (created closed : jsstring) : num :=
  match DateParse created, DateParse closed with
  | Num c, Num k => Num (roundedQuotient (roundFinite (k - c)) 60000)
  | _, _ => NaN
  end.

(** [assignment?.role && assignment?.assignee] *)
Definition hasRoleAndAssignee (a : IncidentRoleAssignment) : bool :=
  match assignment_role a, assignment_assignee a with
  | Some _, Some _ => true
  | _, _ => false
  end.

(** The [filter] and the [map] over the role assignments, one assignment at
    a time: nothing for an assignment that the filter drops. *)
Definition roleOf (userId : jsstring) (a : IncidentRoleAssignment) : list FullRole :=
  match assignment_role a, assignment_assignee a with
  | Some what, Some who =>
      [mkRole (orDefault (role_name what) (js "Unknown"))
         (match role_type what with Some t => t | None => custom end)
         (orDefault (assignee_name who) (js "Unknown"))
         (jsstring_eqb (assignee_id who) userId)]
  | _, _ => []
  end.

Definition buildBasicFullIncident (incident : Incident) (userId : jsstring) : FullIncident :=
  let roles :=
    flat_map (roleOf userId) (orEmpty (incident_role_assignments incident)) in
  let statusCategory := category (incident_status incident) in
  let durationMinutes :=
    match closed_at incident with
    | Some c =>
        if truthy c && truthy (created_at incident)
        then Some (minutesBetween (created_at incident) c)
        else None
    | None => None
    end in
  mkFullIncident (id incident) (reference incident)
    (orDefault (name incident) (js "Untitled Incident"))
    (created_at incident) (closed_at incident)
    (orDefault (status_name (incident_status incident)) (js "Unknown"))
    statusCategory durationMinutes roles [] [] [] [] [].

Definition notDeleted (s : jsstring) : bool := negb (jsstring_eqb s (js "deleted")).

(** The five sub-resource fetches: whatever the request throws is caught
    (and logged unless it is a 404) and an empty list is returned. *)
Definition getIncidentUpdates (incidentId : jsstring) : Res (list IncidentUpdate) :=
  try_catch
    (response <- requestV2 (js "/incident_updates?incident_id=" ++ incidentId)
                   (net_updates net incidentId) ;;
     Ok (orEmpty response))
    (fun _ => Ok []).

Definition getIncidentFollowUps (incidentId : jsstring) : Res (list FollowUp) :=
  try_catch
    (response <- requestV2 (js "/follow_ups?incident_id=" ++ incidentId)
                   (net_follow_ups net incidentId) ;;
     Ok (filter (fun fu => notDeleted (followup_status fu)) (orEmpty response)))
    (fun _ => Ok []).

Definition getIncidentActions (incidentId : jsstring) : Res (list IncidentAction) :=
  try_catch
    (response <- requestV2 (js "/actions?incident_id=" ++ incidentId)
                   (net_actions net incidentId) ;;
     Ok (filter (fun a => notDeleted (action_status a)) (orEmpty response)))
    (fun _ => Ok []).

Definition getIncidentAttachments (incidentId : jsstring) : Res (list IncidentAttachment) :=
  try_catch
    (response <- requestV1 (js "/incident_attachments?incident_id=" ++ incidentId)
                   (net_attachments net incidentId) ;;
     Ok (orEmpty response))
    (fun _ => Ok []).

Definition getIncidentTimestamps (incidentId : jsstring) : Res (list (jsstring * jsstring)) :=
  try_catch
    (response <- requestV2 (js "/incident_timestamp_values?incident_id=" ++ incidentId)
                   (net_timestamps net incidentId) ;;
     Ok (sortByTime
           (map (fun tv => (timestamp_name tv, orEmpty (timestamp_value tv)))
              (filter (fun tv => present (timestamp_value tv)) (orEmpty response)))))
    (fun _ => Ok []).

(** The back-fill at the end of [getFullIncidentDetails]. *)
Definition isClosedUpdate (u : IncidentUpdate) : bool :=
  match new_status_category u with
  | Some c => jsstring_eqb c (js "closed")
  | None => false
  end.

Definition adoptCloseFromTimeline (f : FullIncident) (fetched : list IncidentUpdate)
  : FullIncident :=
  if negb (present (full_closed_at f)) && category_eqb (statusCategory f) closed then
    match find isClosedUpdate fetched with
    | Some closedUpdate =>
        mkFullIncident (full_id f) (full_reference f) (full_name f) (full_created_at f)
          (Some (update_created_at closedUpdate))
          (status f) (statusCategory f)
          (Some (minutesBetween (full_created_at f) (update_created_at closedUpdate)))
          (roles f) (timestamps f) (updates f) (actions f) (followUps f) (attachments f)
    | None => f
    end
  else f.

Definition getFullIncidentDetails (incident : Incident) (userId : jsstring)
  : Res FullIncident :=
  let fullIncident := buildBasicFullIncident incident userId in
  fetched <- all2 (getIncidentUpdates (id incident))
               (all2 (getIncidentFollowUps (id incident))
                  (all2 (getIncidentActions (id incident))
                     (all2 (getIncidentAttachments (id incident))
                        (getIncidentTimestamps (id incident))))) ;;
  let '(updates, (followUps, (actions, (attachments, timestamps)))) := fetched in
  let filled :=
    mkFullIncident (full_id fullIncident) (full_reference fullIncident)
      (full_name fullIncident) (full_created_at fullIncident)
      (full_closed_at fullIncident) (status fullIncident)
      (statusCategory fullIncident) (durationMinutes fullIncident)
      (roles fullIncident) timestamps updates actions followUps attachments in
  Ok (adoptCloseFromTimeline filled updates).

Definition getSchedules : Res (list Schedule) :=
  response <- requestV2 (js "/schedules") (net_schedules net) ;;
  Ok (orEmpty response).

(** The window parameters carry the instant of the call; the network model
    is indexed by the schedule alone. *)
Definition getScheduleEntries (scheduleId : jsstring) : Res (option (list ScheduleEntry)) :=
  requestV2 (js "/schedule_entries?schedule_id=" ++ scheduleId)
    (net_schedule_entries net scheduleId).

Definition checkSchedule (userEmail : jsstring) (schedule : Schedule) : Res (option jsstring) :=
  try_catch
    (entries <- getScheduleEntries (schedule_id schedule) ;;
     let finalEntries := orEmpty entries in
     let isOnCall :=
       existsb (fun entry =>
                  match entry_user_email entry with
                  | Some e => jsstring_eqb (toLowerCase e) (toLowerCase userEmail)
                  | None => false
                  end) finalEntries in
     Ok (if isOnCall then Some (schedule_name schedule) else None))
    (fun _ => Ok None).

(** [Promise.all] over a list. *)
Fixpoint allOf {A} (ps : list (Res A)) : Res (list A) :=
  match ps with
  | [] => Ok []
  | p :: ps' =>
      pr <- all2 p (allOf ps') ;;
      Ok (fst pr :: snd pr)
  end.

Fixpoint somes {A} (l : list (option A)) : list A :=
  match l with
  | [] => []
  | Some x :: t => x :: somes t
  | None :: t => somes t
  end.

Definition getOnCallSchedules (userEmail : jsstring) : Res OnCallResult :=
  schedules <- getSchedules ;;
  scheduleChecks <- allOf (map (checkSchedule userEmail) schedules) ;;
  Ok (mkOnCall (somes scheduleChecks)).

Definition noUserError (userIdentifier : jsstring) : Thrown :=
  ErrorObject (mkError (js "Could not find user matching: " ++ userIdentifier)).

(** [syncData]; [historicalOptions] is the number of days when the caller
    passes the options object. *)
Definition syncData (fuel : nat) (userIdentifier : jsstring)
    (historicalOptions : option nat) : Res SyncResult :=
  found <- findUser userIdentifier ;;
  match found with
  | None => Throw (noUserError userIdentifier)
  | Some user =>
      fetched <- all2 (getOnCallSchedules (user_email user))
                   (match historicalOptions with
                    | Some days => getUserIncidentsWithHistory fuel (user_id user) days
                    | None => getUserIncidents (user_id user)
                    end) ;;
      let '(onCall, incidents) := fetched in
      let incidentResults :=
        map (fun incident => mkIncidentResult (reference incident) (name incident)
                               (status_name (incident_status incident))) incidents in
      fullIncidents <- processInBatches fuel incidents BATCH_SIZE
                         (fun incident => getFullIncidentDetails incident (user_id user)) ;;
      Ok (mkSyncResult
            (if 0 <? length (schedules onCall) then Some onCall else None)
            incidentResults fullIncidents)
  end.
(** The second member of the [Promise.all] in [syncData], named for the
    statements about it. *)
Definition candidateIncidents (fuel : nat) (user : IncidentIOUser)
    (historicalOptions : option nat) : Res (list Incident) :=
  match historicalOptions with
  | Some days => getUserIncidentsWithHistory fuel (user_id user) days
  | None => getUserIncidents (user_id user)
  end.

(** The test of [findUser]. *)
Definition userMatches (identifier : jsstring) (u : IncidentIOUser) : bool :=
  includes (toLowerCase (user_email u)) (toLowerCase identifier)
  || includes (toLowerCase (user_name u)) (toLowerCase identifier).
End Client.

(** ** daily-note.ts: the date-window filter *)

Definition msPerDay : Z := 86400000.

Definition MakeTime (h m s ms : Z) : Z := ((h * 60 + m) * 60 + s) * 1000 + ms.

(** [TimeClip] *)
Definition TimeClip (t : Z) : num :=
  if Z.ltb 8640000000000000 (Z.abs t) then NaN else Num t.

Section DateWindow.
Variable DateParse : jsstring -> num.
(** The time zone of the host: ECMAScript's [LocalTime] and [UTC], between
    an instant and the local wall clock, both in milliseconds. *)
Variable LocalTime : Z -> Z.
Variable UTC : Z -> Z.

(** [d.setHours(h, m, s, ms)] on the time value of [d]: the same local day
    with the given time of day. *)
Definition setHours (t : num) (h m s ms : Z) : num :=
  match t with
  | NaN => NaN
  | Num t => TimeClip (UTC ((LocalTime t / msPerDay) * msPerDay + MakeTime h m s ms))
  end.

Definition dateStart (date : num) : num := setHours date 0 0 0 0.
Definition dateEnd (date : num) : num := setHours date 23 59 59 999.

(** The predicate of the filter. *)
Definition activeOn (date : num) (inc : FullIncident) : bool :=
  let createdAt := DateParse (full_created_at inc) in
  let closedAt :=
    if present (full_closed_at inc)
    then Some (DateParse (orEmpty (full_closed_at inc)))
    else None in
  let createdBeforeOrOn := num_leb createdAt (dateEnd date) in
  let stillOpenOnDate :=
    match closedAt with
    | None => true
    | Some k => num_geb k (dateStart date)
    end in
  createdBeforeOrOn && stillOpenOnDate.

Definition filterIncidentsForDate (incidents : list FullIncident) (date : num)
  : list FullIncident :=
  filter (activeOn date) incidents.
End DateWindow.

(** ** Auxiliary definitions used in the statements *)

(** A side of the section as the replace sees it: its lines, unless its text
    is empty. *)
Definition keptLines (ls : list jsstring) : list jsstring :=
  if truthy (join_lines ls) then ls else [].

(** A document given line by line. *)
Definition doc (ls : list String.string) : jsstring := join_lines (map js ls).
Arguments doc ls%_list.

Definition TRIPLE_LF : jsstring := [LF; LF; LF].

Fixpoint leadingLF (s : jsstring) : nat :=
  match s with
  | c :: t => if N.eqb c LF then S (leadingLF t) else 0
  | [] => 0
  end.

(** The removal as the specification words it, to compare with
    [removeSection]: the lines outside the owned range, every run of three or
    more consecutive blank lines replaced by one blank line, trailing white
    space trimmed. *)
Fixpoint leadingBlank (ls : list jsstring) : nat :=
  match ls with
  | [] :: t => S (leadingBlank t)
  | _ => 0
  end.

Inductive RunState := Fresh | Keeping | Skipping.

Fixpoint collapseBlankRuns (st : RunState) (ls : list jsstring) : list jsstring :=
  match ls with
  | [] => []
  | [] :: t =>
      match st with
      | Fresh =>
          if 3 <=? leadingBlank ls then [] :: collapseBlankRuns Skipping t
          else [] :: collapseBlankRuns Keeping t
      | Keeping => [] :: collapseBlankRuns Keeping t
      | Skipping => collapseBlankRuns Skipping t
      end
  | l :: t => l :: collapseBlankRuns Fresh t
  end.

Definition removeSection_as_stated (content : jsstring) (headings : list HeadingCache)
    (existing : HeadingCache) : jsstring :=
  let lines := split_lines content in
  trimEnd (join_lines
             (collapseBlankRuns Fresh
                (firstn (line existing) lines
                 ++ skipn (endLineNum lines headings existing) lines))).

(** The attempts after which [request] sleeps and tries again: a 429, a
    status of 500 or more, or an [Error] thrown in the [try] block whose
    message does not contain the marker of the client's own error. *)
Inductive retried {T : Type} : Attempt T -> Prop :=
| retried_429 (retryAfter : option jsstring) (json : T) :
    retried (Response 429 retryAfter json)
| retried_5xx (status : Z) (retryAfter : option jsstring) (json : T) :
    (500 <= status)%Z -> retried (Response status retryAfter json)
| retried_transport (e : Error) :
    includes (message e) API_REQUEST_FAILED = false ->
    retried (Rejected (ErrorObject e)).

(** The hint that goes into the backoff after an attempt: the [retry-after]
    header of a 429, nothing otherwise. *)
Definition hintOf {T} (a : Attempt T) : option jsstring :=
  match a with
  | Response status retryAfter _ => if Z.eqb status 429 then retryAfter else None
  | Rejected _ => None
  end.

(** The variable [lastError] after the [k] attempts that start at [from]. *)
Fixpoint lastErrorAfter {T} (attempts : nat -> Attempt T) (k from : nat)
    (last : option Error) : option Error :=
  match k with
  | 0 => last
  | S k' =>
      lastErrorAfter attempts k' (S from)
        match attempts from with
        | Rejected (ErrorObject e) =>
            if includes (message e) API_REQUEST_FAILED then last else Some e
        | _ => last
        end
  end.

(** The pauses slept after the attempts 0 .. k-1 when each of them is retried. *)
Definition retryDelays {T} (addJitter : number -> number) (attempts : nat -> Attempt T)
    (k : nat) : list number :=
  map (fun j => calculateBackoff addJitter j (hintOf (attempts j))) (seq 0 k).

(** The values of the promises that fulfilled, in order. *)
Fixpoint successes {R} (rs : list (Res R)) : list R :=
  match rs with
  | [] => []
  | Ok v :: rest => v :: successes rest
  | _ :: rest => successes rest
  end.

(** A server that answers every request with status 200 and no data. *)
Definition emptyOk {A} : nat -> Attempt (option (list A)) :=
  fun _ => Response 200 None None.

Definition quietNetwork : Network :=
  mkNetwork emptyOk emptyOk (fun _ _ => Response 200 None (mkPage None None))
    emptyOk (fun _ => emptyOk) (fun _ => emptyOk) (fun _ => emptyOk)
    (fun _ => emptyOk) (fun _ => emptyOk) (fun _ => emptyOk).

(** Concrete servers and records for the examples. *)
Definition james : IncidentIOUser :=
  mkUser (js "U1") (js "james jarvis") (js "james@example.com").

Definition outage : Incident :=
  mkIncident (js "I1") (js "INC-1") (js "Outage") (js "2024-01-14T10:00:00Z") None
    (mkStatus (js "Investigating") live)
    (Some [mkAssignment (Some (mkAssignee (js "U1") (js "james jarvis")))
             (Some (mkAssignedRole (js "Incident Lead") (Some lead)))]).

(** An incident with an assigned lead and a reporter role that nobody
    holds. *)
Definition halfAssigned : Incident :=
  mkIncident (js "I4") (js "INC-4") (js "Slow API") (js "2024-01-14T10:00:00Z") None
    (mkStatus (js "Investigating") live)
    (Some [mkAssignment (Some (mkAssignee (js "U1") (js "james jarvis")))
             (Some (mkAssignedRole (js "Incident Lead") (Some lead)));
           mkAssignment None (Some (mkAssignedRole (js "Reporter") (Some reporter)))]).

(** Users and incidents are served; the schedule list answers 403. *)
Definition schedulesForbidden : Network :=
  mkNetwork (fun _ => Response 200 None (Some [james]))
    (fun _ => Response 200 None (Some [outage]))
    (fun _ _ => Response 200 None (mkPage None None))
    (fun _ => Response 403 None None)
    (fun _ => emptyOk) (fun _ => emptyOk) (fun _ => emptyOk)
    (fun _ => emptyOk) (fun _ => emptyOk) (fun _ => emptyOk).

(** Everything at the top level is served; every per-schedule and
    per-incident request fails (500 for the entries and the updates, a
    transport error for the rest). *)
Definition detailsDown : Network :=
  mkNetwork (fun _ => Response 200 None (Some [james]))
    (fun _ => Response 200 None (Some [outage]))
    (fun _ _ => Response 200 None (mkPage None None))
    (fun _ => Response 200 None (Some [mkSchedule (js "S1") (js "Primary")]))
    (fun _ _ => Response 500 None None)
    (fun _ _ => Response 500 None None)
    (fun _ _ => Rejected (ErrorObject (mkError (js "net::ERR_CONNECTION_RESET"))))
    (fun _ _ => Rejected (ErrorObject (mkError (js "net::ERR_CONNECTION_RESET"))))
    (fun _ _ => Response 404 None None)
    (fun _ _ => Response 404 None None).

(** An incident with a close time and an empty creation time. *)
Definition closedWithoutCreation : Incident :=
  mkIncident (js "I2") (js "INC-2") (js "Old") [] (Some (js "2024-01-02T00:00:00Z"))
    (mkStatus (js "Closed") closed) (Some []).

(** A closed incident without [closed_at], and a server whose timeline holds
    the update that closed it. *)
Definition closedNoTime : Incident :=
  mkIncident (js "I3") (js "INC-3") (js "Done") (js "2024-01-14T10:00:00Z") None
    (mkStatus (js "Closed") closed) (Some []).

Definition timelineCloses : Network :=
  mkNetwork emptyOk emptyOk (fun _ _ => Response 200 None (mkPage None None))
    emptyOk (fun _ => emptyOk)
    (fun _ _ => Response 200 None
                  (Some [mkUpdate (js "2024-01-14T10:05:00Z") (Some (js "live"));
                         mkUpdate (js "2024-01-14T11:30:29Z") (Some (js "closed"))]))
    (fun _ => emptyOk) (fun _ => emptyOk) (fun _ => emptyOk) (fun _ => emptyOk).

(** The instant of an ISO 8601 date-time in UTC of the form
    [YYYY-MM-DDTHH:MM:SSZ] or [YYYY-MM-DDTHH:MM:SS.sssZ], the forms the API
    sends, in milliseconds since the epoch; [NaN] for any other string and
    for a month, day, hour, minute or second out of range.  (A host's [Date]
    parses more forms; the definitions above take the parser as a parameter,
    and the examples use this one.) *)
Fixpoint digitsValue (acc : Z) (s : jsstring) : option Z :=
  match s with
  | [] => Some acc
  | c :: t =>
      match digit_of c with
      | Some d => digitsValue (10 * acc + d)%Z t
      | None => None
      end
  end.

Definition daysFromCivil (y m d : Z) : Z :=
  (let y' := if Z.leb m 2 then y - 1 else y in
   let era := y' / 400 in
   let yoe := y' - era * 400 in
   let mp := (m + 9) mod 12 in
   let doy := (153 * mp + 2) / 5 + d - 1 in
   let doe := yoe * 365 + yoe / 4 - yoe / 100 + doy in
   era * 146097 + doe - 719468)%Z.

Definition isoFields (year month day hour minute second ms : option Z) : num :=
  match year, month, day, hour, minute, second, ms with
  | Some y, Some m, Some d, Some h, Some n, Some sec, Some f =>
      if Z.leb 1 m && Z.leb m 12 && Z.leb 1 d && Z.leb d 31
         && (Z.leb h 23 || (Z.eqb h 24 && Z.eqb n 0 && Z.eqb sec 0 && Z.eqb f 0))
         && Z.leb n 59 && Z.leb sec 59
      then Num (daysFromCivil y m d * 86400000
                + ((h * 60 + n) * 60 + sec) * 1000 + f)%Z
      else NaN
  | _, _, _, _, _, _, _ => NaN
  end.

Definition isoInstant (s : jsstring) : num :=
  match s with
  | [y1; y2; y3; y4; a; m1; m2; b; d1; d2; t; h1; h2; c; n1; n2; e; s1; s2; z] =>
      if N.eqb a 45 && N.eqb b 45 && N.eqb t 84 && N.eqb c 58 && N.eqb e 58 && N.eqb z 90
      then
        isoFields (digitsValue 0 [y1; y2; y3; y4]) (digitsValue 0 [m1; m2])
          (digitsValue 0 [d1; d2]) (digitsValue 0 [h1; h2])
          (digitsValue 0 [n1; n2]) (digitsValue 0 [s1; s2]) (Some 0%Z)
      else NaN
  | [y1; y2; y3; y4; a; m1; m2; b; d1; d2; t; h1; h2; c; n1; n2; e; s1; s2; p;
     f1; f2; f3; z] =>
      if N.eqb a 45 && N.eqb b 45 && N.eqb t 84 && N.eqb c 58 && N.eqb e 58
         && N.eqb p 46 && N.eqb z 90
      then
        isoFields (digitsValue 0 [y1; y2; y3; y4]) (digitsValue 0 [m1; m2])
          (digitsValue 0 [d1; d2]) (digitsValue 0 [h1; h2])
          (digitsValue 0 [n1; n2]) (digitsValue 0 [s1; s2])
          (digitsValue 0 [f1; f2; f3])
      else NaN
  | _ => NaN
  end.

(** A full incident with the given creation and close times. *)
Definition incidentBetween (created : jsstring) (closedAt : option jsstring) : FullIncident :=
  mkFullIncident (js "123") (js "INC-123") (js "Test Incident") created closedAt
    (js "Active") live None [] [] [] [] [] [].

(** A zone one hour ahead of UTC all year. *)
Definition plusOneLocal (t : Z) : Z := (t + 3600000)%Z.
Definition plusOneUTC (t : Z) : Z := (t - 3600000)%Z.

(** Documents, errors and dates of the examples. *)
Definition newBody : jsstring := doc ["## Incidents"; "new"]%string.
Definition blankThenSection : jsstring := doc [""; "## Incidents"; "old"]%string.
Definition sectionBetween : jsstring :=
  doc ["intro"; "## Incidents"; "old"; "## Next"]%string.
Definition sectionThenNextIndex : list HeadingCache :=
  [mkHeading (js "Incidents") 2 1; mkHeading (js "Next") 2 3].
Definition indentedNote : jsstring :=
  doc ["  a"; ""; ""; "b"; ""; "## Incidents"; "old"]%string.

Definition usersUrl : jsstring := js "https://api.incident.io/v2/users".
Definition timedOut : Error := mkError (js "net::ERR_TIMED_OUT").
Definition hangUp : Error := mkError (js "API request failed: socket hang up").

(** 2024-01-15T10:00:00Z, and two incidents at the edges of that day in the
    zone one hour ahead of UTC. *)
Definition monday : num := Num 1705312800000.
Definition closedAtMidnight : FullIncident :=
  incidentBetween (js "2024-01-10T10:00:00Z") (Some (js "2024-01-14T23:00:00Z")).

(** ** api.ts: the remaining client functions *)

(** What [testConnection] resolves to. *)
Record ConnectionTest := mkConnectionTest {
  test_success : bool;
  test_error : option jsstring;
  test_user : option IncidentIOUser
}.

(** [error instanceof Error ? error.message : 'Unknown error'] *)
Definition errorMessageOf (error : Thrown) : jsstring :=
  match error with
  | ErrorObject e => message e
  | OtherValue => js "Unknown error"
  end.

(** [is404Error] *)
Definition is404Error (error : Thrown) : bool :=
  match error with
  | ErrorObject e => includes (message e) (js "404") || includes (message e) (js "status 404")
  | OtherValue => false
  end.

(** A custom field entry as [buildBasicFullIncident] reads it:
    [custom_field.name], [value_text], [value_single_select?.value] and the
    values of [value_multi_select]. *)
Record IncidentCustomField := mkCustomField {
  custom_field_name : jsstring;
  value_text : option jsstring;
  value_single_select : option jsstring;
  value_multi_select : option (list jsstring)
}.

(** [parts.join(sep)] *)
Fixpoint joinWith (sep : jsstring) (parts : list jsstring) : jsstring :=
  match parts with
  | [] => []
  | p :: rest =>
      match rest with
      | [] => p
      | _ :: _ => p ++ sep ++ joinWith sep rest
      end
  end.

(** The value that the [map] over [custom_field_entries] computes. *)
Definition customFieldValue (entry : IncidentCustomField) : jsstring :=
  if present (value_text entry) then orEmpty (value_text entry)
  else if present (value_single_select entry) then orEmpty (value_single_select entry)
  else match value_multi_select entry with
       | Some (v :: vs) => joinWith (js ", ") (v :: vs)
       | _ => []
       end.

(** The [customFields] of [buildBasicFullIncident]. *)
Definition parseCustomFields (entries : list IncidentCustomField)
  : list (jsstring * jsstring) :=
  filter (fun field => truthy (snd field))
    (map (fun entry => (custom_field_name entry, customFieldValue entry))
       (filter (fun entry => truthy (custom_field_name entry)) entries)).

Section ClientMore.
Variable addJitter : number -> number.
Variable net : Network.

(** [testConnection] *)
Definition testConnection : Res ConnectionTest :=
  try_catch
    (response <- requestV2 addJitter (js "/users") (net_users net) ;;
     match response with
     | Some (first :: _) => Ok (mkConnectionTest true None (Some first))
     | _ => Ok (mkConnectionTest false (Some (js "No users found in response")) None)
     end)
    (fun error => Ok (mkConnectionTest false (Some (errorMessageOf error)) None)).
End ClientMore.

Section OnCall.
Variable addJitter : number -> number.
Variable toLowerCase : jsstring -> jsstring.
Variable net : Network.

(** What the callback of [getOnCallSchedules] decides for one schedule: on
    call when the entries were fetched and one of the final entries carries
    the user's e-mail address, in any letter case. *)
Definition onCallFor (userEmail : jsstring) (schedule : Schedule) : bool :=
  match getScheduleEntries addJitter net (schedule_id schedule) with
  | Ok entries =>
      existsb (fun entry =>
                 match entry_user_email entry with
                 | Some e => jsstring_eqb (toLowerCase e) (toLowerCase userEmail)
                 | None => false
                 end) (orEmpty entries)
  | _ => false
  end.
End OnCall.

(** A server whose incident pages are always full and always name a next
    page. *)
Definition endlessPages : Network :=
  mkNetwork emptyOk emptyOk
    (fun _ _ => Response 200 None (mkPage (Some (repeat outage 250)) (Some (js "next"))))
    emptyOk (fun _ => emptyOk) (fun _ => emptyOk) (fun _ => emptyOk)
    (fun _ => emptyOk) (fun _ => emptyOk) (fun _ => emptyOk).

(** A note without the managed section, and the index of the same note after
    the section was appended to it. *)
Definition plainNote : jsstring := doc ["# Log"; "intro"]%string.
Definition plainNoteIndex : list HeadingCache := [mkHeading (js "Log") 1 0].
Definition appendedIndex : list HeadingCache :=
  [mkHeading (js "Log") 1 0; mkHeading (js "Incidents") 2 3].

(** ** Dates and numbers as text *)

(** The calendar fields of a valid [Date] in the host's time zone, as
    [getFullYear], [getMonth] (0 to 11) and [getDate] return them. *)
Record LocalDate := mkLocalDate {
  getFullYear : Z;
  getMonth : Z;
  getDate : Z
}.

(** [s.padStart(2, '0')] *)
Definition padStart2 (s : jsstring) : jsstring :=
  repeat 48%N (2 - length s) ++ s.

(** [s.replace(pattern, replacement)] with a string pattern: only the first
    occurrence is replaced.  The replacements below are numerals, in which
    no [$] pattern occurs. *)
Fixpoint replaceFirst (pattern replacement s : jsstring) : jsstring :=
  if starts_with pattern s then replacement ++ skipn (length pattern) s
  else match s with
       | [] => []
       | c :: t => c :: replaceFirst pattern replacement t
       end.

(** daily-note.ts, [formatDateWithPattern]; [String(n)] of an integer is
    [statusText n]. *)
Definition formatDateWithPattern (date : LocalDate) (format : jsstring) : jsstring :=
  let year := getFullYear date in
  let month := (getMonth date + 1)%Z in
  let day := getDate date in
  replaceFirst (js "DD") (padStart2 (statusText day))
    (replaceFirst (js "MM") (padStart2 (statusText month))
       (replaceFirst (js "YYYY") (statusText year) format)).

(** api.ts, [formatDateForApi] *)
Definition formatDateForApi (date : LocalDate) : jsstring :=
  let year := getFullYear date in
  let month := padStart2 (statusText (getMonth date + 1)) in
  let day := padStart2 (statusText (getDate date)) in
  statusText year ++ js "-" ++ month ++ js "-" ++ day.

(** [String(n)] and [`${n}`] of a number. *)
Definition numText (n : num) : jsstring :=
  match n with
  | NaN => js "NaN"
  | Num z => statusText z
  end.

(** incident-notes.ts, [formatDuration].  With [NaN] every comparison is
    false and [Math.floor(NaN / 60)] and [NaN % 60] are [NaN]; [%] is the
    remainder that takes the sign of the dividend. *)
Definition formatDuration (minutes : num) : jsstring :=
  match minutes with
  | NaN => numText NaN ++ js "h " ++ numText NaN ++ js "m"
  | Num m =>
      if (m <? 60)%Z then statusText m ++ js "m"
      else
        let hours := (m / 60)%Z in
        let mins := Z.rem m 60 in
        if (mins =? 0)%Z then statusText hours ++ js "h"
        else statusText hours ++ js "h " ++ statusText mins ++ js "m"
  end.

(** ** incident-notes.ts: the frontmatter of an incident note *)

(** [JSON.stringify] of a string ([QuoteJSONString]): the short escapes, a
    [\uXXXX] escape with lower-case digits for the other control characters
    and for a surrogate without its partner, every other character as it is. *)
Definition hexDigit (n : N) : code_unit :=
  if (n <? 10)%N then (48 + n)%N else (87 + n)%N.

Definition unicodeEscape (c : code_unit) : jsstring :=
  [92; 117; hexDigit (c / 4096); hexDigit ((c / 256) mod 16);
   hexDigit ((c / 16) mod 16); hexDigit (c mod 16)]%N.

Definition isLeadingSurrogate (c : code_unit) : bool :=
  (55296 <=? c)%N && (c <=? 56319)%N.
Definition isTrailingSurrogate (c : code_unit) : bool :=
  (56320 <=? c)%N && (c <=? 57343)%N.

Fixpoint quoteJSON (s : jsstring) : jsstring :=
  match s with
  | [] => []
  | c :: t =>
      if (c =? 8)%N then [92; 98]%N ++ quoteJSON t
      else if (c =? 9)%N then [92; 116]%N ++ quoteJSON t
      else if (c =? 10)%N then [92; 110]%N ++ quoteJSON t
      else if (c =? 12)%N then [92; 102]%N ++ quoteJSON t
      else if (c =? 13)%N then [92; 114]%N ++ quoteJSON t
      else if (c =? 34)%N then [92; 34]%N ++ quoteJSON t
      else if (c =? 92)%N then [92; 92]%N ++ quoteJSON t
      else if (c <? 32)%N then unicodeEscape c ++ quoteJSON t
      else if isLeadingSurrogate c then
        match t with
        | d :: t' =>
            if isTrailingSurrogate d then c :: d :: quoteJSON t'
            else unicodeEscape c ++ quoteJSON t
        | [] => unicodeEscape c
        end
      else if isTrailingSurrogate c then unicodeEscape c ++ quoteJSON t
      else c :: quoteJSON t
  end.

Definition JSONstringify (s : jsstring) : jsstring :=
  [34%N] ++ quoteJSON s ++ [34%N].

(** The character class that [yamlSafeValue] tests for: colon, hash, square
    and curly brackets, line feed, carriage return, double and single quote,
    vertical bar and greater-than. *)
Definition yamlSpecial (c : code_unit) : bool :=
  existsb (N.eqb c) [58; 35; 91; 93; 123; 125; 10; 13; 34; 39; 124; 62]%N.

(** The argument of [yamlSafeValue]: [string | number | undefined]. *)
Inductive YamlInput :=
| YUndefined
| YNumber (n : num)
| YString (s : jsstring).

Definition yamlSafeValue (value : YamlInput) : jsstring :=
  match value with
  | YUndefined => []
  | YNumber n => numText n
  | YString s =>
      if existsb yamlSpecial s || negb (jsstring_eqb (trim s) s)
      then JSONstringify s
      else s
  end.

(** The fields of the source's [FullIncident] that only the note writer
    reads. *)
Record NoteFields := mkNoteFields {
  note_severity : jsstring;
  note_url : jsstring;
  note_updated_at : option jsstring;
  note_incidentType : option jsstring
}.

(** [if (v) { lines.push(`key: ${this.yamlSafeValue(v)}`) }] *)
Definition optionalField (key : jsstring) (v : option jsstring) : list jsstring :=
  match v with
  | Some s => if truthy s then [key ++ yamlSafeValue (YString s)] else []
  | None => []
  end.

(** The lines that [formatFrontmatter] pushes between the two [---]. *)
Definition frontmatterFields (incident : FullIncident) (more : NoteFields)
  : list jsstring :=
  [ js "incident_id: " ++ yamlSafeValue (YString (full_id incident));
    js "reference: " ++ yamlSafeValue (YString (full_reference incident));
    js "name: " ++ yamlSafeValue (YString (full_name incident));
    js "created_at: " ++ yamlSafeValue (YString (full_created_at incident));
    js "status: " ++ yamlSafeValue (YString (status incident));
    js "severity: " ++ yamlSafeValue (YString (note_severity more));
    js "url: " ++ yamlSafeValue (YString (note_url more)) ]
  ++ optionalField (js "updated_at: ") (note_updated_at more)
  ++ optionalField (js "closed_at: ") (full_closed_at incident)
  ++ optionalField (js "type: ") (note_incidentType more)
  ++ match durationMinutes incident with
     | Some d => [js "duration_minutes: " ++ numText d]
     | None => []
     end.

Definition formatFrontmatter (incident : FullIncident) (more : NoteFields) : jsstring :=
  join_lines ([js "---"] ++ frontmatterFields incident more ++ [js "---"]).

(** ** settings.ts: the validators of the settings tab *)


(** [validateSectionHeader] *)
Definition validateSectionHeader (value : jsstring) : option jsstring :=
  let trimmed := trim value in
  if (length trimmed =? 0)%nat then None
  else if negb (starts_with [HASH] trimmed) then None
  else Some trimmed.

(** What a reader of a rendered duration takes from it: the digits up to
    the unit letters. *)
Fixpoint spanDigits (s : jsstring) : jsstring * jsstring :=
  match s with
  | [] => ([], [])
  | c :: t =>
      match digit_of c with
      | Some _ => let '(d, r) := spanDigits t in (c :: d, r)
      | None => ([], s)
      end
  end.

Definition readUnits (sign : Z) (d1 r1 : jsstring) : option Z :=
  match d1 with
  | [] => None
  | _ :: _ =>
      if jsstring_eqb r1 (js "m") then Some (sign * parse_digits 0 d1)%Z
      else if jsstring_eqb r1 (js "h") then Some (sign * (60 * parse_digits 0 d1))%Z
      else if starts_with (js "h ") r1 then
        let '(d2, r2) := spanDigits (skipn 2 r1) in
        if jsstring_eqb r2 (js "m")
        then Some (sign * (60 * parse_digits 0 d1 + parse_digits 0 d2))%Z
        else None
      else None
  end.

Definition readDuration (s : jsstring) : option Z :=
  let '(sign, body) :=
    match s with
    | c :: t => if (c =? 45)%N then ((-1)%Z, t) else (1%Z, s)
    | [] => (1%Z, s)
    end in
  let '(d1, r1) := spanDigits body in
  readUnits sign d1 r1.

(** How a reader of JSON takes a quoted string's inside back: a backslash
    with [u] and four hexadecimal digits is one code unit, a backslash with
    another character is that character or the control character it names. *)
Definition hexValue (c : code_unit) : N :=
  if (c <? 58)%N then (c - 48)%N else (c - 87)%N.

Definition unescape (x : code_unit) : code_unit :=
  if (x =? 98)%N then 8%N
  else if (x =? 116)%N then 9%N
  else if (x =? 110)%N then 10%N
  else if (x =? 102)%N then 12%N
  else if (x =? 114)%N then 13%N
  else x.

Fixpoint unquoteJSON (s : jsstring) : jsstring :=
  match s with
  | [] => []
  | c :: t =>
      if (c =? 92)%N then
        match t with
        | [] => []
        | x :: t1 =>
            if (x =? 117)%N then
              match t1 with
              | h1 :: h2 :: h3 :: h4 :: t2 =>
                  (4096 * hexValue h1 + 256 * hexValue h2 + 16 * hexValue h3
                   + hexValue h4)%N :: unquoteJSON t2
              | _ => []
              end
            else unescape x :: unquoteJSON t1
        end
      else c :: unquoteJSON t
  end.

(** A calendar date and an incident with awkward field values. *)
Definition january15 : LocalDate := mkLocalDate 2024 0 15.
Definition awkwardIncident : FullIncident :=
  mkFullIncident (js "01HQ") (js "INC-7") (doc ["DB down"; "---"]%string)
    (js "2024-01-15T10:00:00Z") None (js "Investigating: cause") live None
    [] [] [] [] [] [].
Definition awkwardFields : NoteFields :=
  mkNoteFields (js "Major") (js "https://app.incident.io/i/7") None (Some (js "Default")).

(* ================================================================== *)
(** * Part II: properties                                              *)
(* ================================================================== *)

(** ** Lines of a text *)

Lemma split_lines_nonempty (s : jsstring) : split_lines s <> [].
Proof.
  destruct s as [|c t]; simpl; [discriminate|].
  destruct (N.eqb c LF); [discriminate|].
  destruct (split_lines t); discriminate.
Qed.

Lemma join_split (s : jsstring) : join_lines (split_lines s) = s.
Proof.
  induction s as [|c t IH]; simpl; [reflexivity|].
  destruct (N.eqb_spec c LF) as [->|Hc].
  - pose proof (split_lines_nonempty t) as Hne.
    destruct (split_lines t) eqn:E; [contradiction|].
    simpl. now rewrite <- IH.
  - pose proof (split_lines_nonempty t) as Hne.
    destruct (split_lines t) as [|l ls] eqn:E; [contradiction|].
    simpl in *. destruct ls; simpl; now rewrite <- IH.
Qed.

Lemma split_lines_app (a b : jsstring) :
  split_lines (a ++ LF :: b) = split_lines a ++ split_lines b.
Proof.
  induction a as [|c t IH]; simpl.
  - reflexivity.
  - destruct (N.eqb c LF); rewrite IH; [reflexivity|].
    pose proof (split_lines_nonempty t) as Hne.
    destruct (split_lines t); [contradiction|reflexivity].
Qed.

Lemma split_lines_no_LF (s l : jsstring) :
  In l (split_lines s) -> ~ In LF l.
Proof.
  revert l; induction s as [|c t IH]; simpl; intros l Hin.
  - destruct Hin as [<-|[]]. intros [].
  - destruct (N.eqb_spec c LF) as [->|Hc].
    + destruct Hin as [<-|Hin]; [intros []|now apply IH].
    + pose proof (split_lines_nonempty t) as Hne.
      destruct (split_lines t) as [|l0 ls] eqn:E; [contradiction|].
      destruct Hin as [<-|Hin].
      * intros [Heq|Hin]; [now apply Hc|].
        apply (IH l0); [now left|assumption].
      * apply IH. now right.
Qed.

Lemma split_lines_single (l : jsstring) :
  ~ In LF l -> split_lines l = [l].
Proof.
  induction l as [|c t IH]; simpl; intros Hn; [reflexivity|].
  destruct (N.eqb_spec c LF) as [->|Hc]; [exfalso; apply Hn; now left|].
  rewrite IH; [reflexivity|]. intros H; apply Hn; now right.
Qed.

Lemma split_join (ls : list jsstring) :
  ls <> [] -> (forall l, In l ls -> ~ In LF l) ->
  split_lines (join_lines ls) = ls.
Proof.
  induction ls as [|l ls IH]; intros Hne Hall; [contradiction|].
  destruct ls as [|l' ls'].
  - simpl. apply split_lines_single. apply Hall. now left.
  - change (join_lines (l :: l' :: ls')) with (l ++ LF :: join_lines (l' :: ls')).
    rewrite split_lines_app, IH.
    + rewrite split_lines_single; [reflexivity|]. apply Hall. now left.
    + discriminate.
    + intros x Hx. apply Hall. now right.
Qed.

Lemma join_lines_empty (ls : list jsstring) :
  join_lines ls = [] <-> ls = [] \/ ls = [[]].
Proof.
  split.
  - destruct ls as [|l ls]; [now left|].
    destruct ls as [|l' ls'].
    + simpl. intros ->. now right.
    + change (join_lines (l :: l' :: ls')) with (l ++ LF :: join_lines (l' :: ls')).
      intros H. destruct l; discriminate.
  - intros [->| ->]; reflexivity.
Qed.

Lemma slice_0 {A} (n : nat) (l : list A) : slice 0 n l = firstn n l.
Proof. unfold slice. now rewrite Nat.sub_0_r. Qed.

Lemma truthy_false (s : jsstring) : truthy s = false <-> s = [].
Proof. destruct s; simpl; split; intros H; try reflexivity; discriminate. Qed.

Lemma truthy_true (s : jsstring) : truthy s = true <-> s <> [].
Proof.
  destruct s; simpl; split; intros H; try reflexivity; try discriminate.
  now contradiction H.
Qed.

(** Lines cut out of a split text can be joined and split again. *)
Lemma split_join_sub (s : jsstring) (ls : list jsstring) :
  (forall l, In l ls -> In l (split_lines s)) ->
  join_lines ls <> [] ->
  split_lines (join_lines ls) = ls.
Proof.
  intros Hsub Hne. apply split_join.
  - intros ->. now apply Hne.
  - intros l Hl. apply (split_lines_no_LF s). now apply Hsub.
Qed.

Lemma keptLines_id (ls : list jsstring) : ls <> [[]] -> keptLines ls = ls.
Proof.
  intros Hne. unfold keptLines.
  destruct (truthy (join_lines ls)) eqn:E; [reflexivity|].
  apply truthy_false, join_lines_empty in E. destruct E as [->| ->]; [reflexivity|].
  now contradiction Hne.
Qed.

Lemma split_glue (s : jsstring) (ls : list jsstring) (rest : jsstring) :
  (forall l, In l ls -> In l (split_lines s)) ->
  split_lines (join_lines ls ++ sepFor (join_lines ls) ++ rest)
  = keptLines ls ++ split_lines rest.
Proof.
  intros Hsub. unfold sepFor, keptLines.
  destruct (truthy (join_lines ls)) eqn:E.
  - simpl. rewrite split_lines_app. f_equal.
    apply (split_join_sub s); [assumption|]. now apply truthy_true.
  - apply truthy_false in E. rewrite E. reflexivity.
Qed.

Lemma split_glue_end (s : jsstring) (ls : list jsstring) (body : jsstring) :
  (forall l, In l ls -> In l (split_lines s)) ->
  split_lines (body ++ sepFor (join_lines ls) ++ join_lines ls)
  = split_lines body ++ keptLines ls.
Proof.
  intros Hsub. unfold sepFor, keptLines.
  destruct (truthy (join_lines ls)) eqn:E.
  - simpl. rewrite split_lines_app. f_equal.
    apply (split_join_sub s); [assumption|]. now apply truthy_true.
  - apply truthy_false in E. rewrite E. simpl. now rewrite !app_nil_r.
Qed.

Lemma In_firstn {A} (n : nat) (l : list A) (x : A) : In x (firstn n l) -> In x l.
Proof.
  revert l; induction n as [|n IH]; intros [|y l]; simpl; try tauto.
  intros [->|H]; [now left|right; now apply IH].
Qed.

Lemma In_skipn {A} (n : nat) (l : list A) (x : A) : In x (skipn n l) -> In x l.
Proof.
  revert l; induction n as [|n IH]; intros [|y l]; simpl; try tauto.
  intros H. right. now apply IH.
Qed.

(** The lines of the document after a replace, for every input. *)
Lemma replaceSection_lines (content : jsstring) (headings : list HeadingCache)
    (existing : HeadingCache) (body : jsstring) :
  split_lines (replaceSection content headings existing body)
  = keptLines (firstn (line existing) (split_lines content))
    ++ split_lines body
    ++ keptLines (skipn (endLineNum (split_lines content) headings existing)
                    (split_lines content)).
Proof.
  unfold replaceSection, beforeSection, afterSection, slice_from.
  rewrite slice_0.
  rewrite (split_glue content); [|intros l; apply In_firstn].
  f_equal.
  apply (split_glue_end content). intros l; apply In_skipn.
Qed.

Lemma updateContent_found (sectionHeader content : jsstring)
    (headings : list HeadingCache) (existing : HeadingCache) (body : jsstring) :
  findExistingHeading headings (sectionHeaderText sectionHeader) = Some existing ->
  updateContent sectionHeader content headings body
  = replaceSection content headings existing body.
Proof. intros H. unfold updateContent. now rewrite H. Qed.

(** ** Where the owned range ends *)

Lemma endLineNum_cases (lines : list jsstring) (headings : list HeadingCache)
    (existing : HeadingCache) :
  (exists h, In h headings /\ closesSection existing h = true
             /\ endLineNum lines headings existing = line h)
  \/ ((forall h, In h headings -> closesSection existing h = false)
      /\ endLineNum lines headings existing = length lines).
Proof.
  unfold endLineNum.
  destruct (find (closesSection existing) headings) as [h|] eqn:E.
  - left. exists h. apply find_some in E. tauto.
  - right. split; [|reflexivity]. intros h Hin. now apply (find_none _ _ E).
Qed.

(** In an index in document order the heading found by the loop is the
    nearest one that closes the section. *)
Lemma endLineNum_nearest (lines : list jsstring) (headings : list HeadingCache)
    (existing : HeadingCache) :
  StronglySorted (fun a b => line a <= line b) headings ->
  forall h, In h headings -> closesSection existing h = true ->
  endLineNum lines headings existing <= line h.
Proof.
  unfold endLineNum. intros Hs.
  induction Hs as [|a l Hs IH Hall]; intros h Hin Hc; [destruct Hin|].
  simpl. destruct (closesSection existing a) eqn:Ea.
  - destruct Hin as [->|Hin]; [lia|].
    rewrite Forall_forall in Hall. now apply Hall.
  - destruct Hin as [->|Hin]; [congruence|]. now apply IH.
Qed.

(** ** C1: the replace and the frame *)

(** C1, as stated, fails: a document that starts with one blank line and then
    the managed heading loses that blank line, so the line before the heading
    is not kept. *)
Lemma replace_drops_lone_blank_line :
  findExistingHeading [mkHeading (js "Incidents") 2 1] (sectionHeaderText (js "## Incidents"))
    = Some (mkHeading (js "Incidents") 2 1)
  /\ firstn 1 (split_lines blankThenSection) = [[]]
  /\ split_lines (updateContent (js "## Incidents") blankThenSection
                    [mkHeading (js "Incidents") 2 1] newBody)
     = [js "## Incidents"; js "new"]
  /\ ~ (exists rest,
          split_lines (updateContent (js "## Incidents") blankThenSection
                         [mkHeading (js "Incidents") 2 1] newBody)
          = firstn 1 (split_lines blankThenSection) ++ rest).
Proof.
  repeat split; try reflexivity.
  intros [rest H]. vm_compute in H. discriminate H.
Qed.

(** C1 (amended): when the managed heading is in the index and neither side of
    the owned range is a lone empty line, the lines of the new document are the
    lines before the heading, the lines of the new body, and the lines from the
    closing heading on, each unchanged and in this order; the closing line is
    the line of a heading after the section with a level not deeper than the
    section's (the nearest one when the index is in document order), or the
    end of the document when there is none. *)
Theorem replace_preserves_frame (sectionHeader content : jsstring)
    (headings : list HeadingCache) (existing : HeadingCache) (body : jsstring) :
  findExistingHeading headings (sectionHeaderText sectionHeader) = Some existing ->
  firstn (line existing) (split_lines content) <> [[]] ->
  skipn (endLineNum (split_lines content) headings existing) (split_lines content) <> [[]] ->
  split_lines (updateContent sectionHeader content headings body)
  = firstn (line existing) (split_lines content)
    ++ split_lines body
    ++ skipn (endLineNum (split_lines content) headings existing) (split_lines content)
  /\ ((exists h, In h headings /\ line existing < line h /\ level h <= level existing
                 /\ endLineNum (split_lines content) headings existing = line h)
      \/ ((forall h, In h headings -> ~ (line existing < line h /\ level h <= level existing))
          /\ endLineNum (split_lines content) headings existing
             = length (split_lines content)))
  /\ (StronglySorted (fun a b => line a <= line b) headings ->
      forall h, In h headings -> line existing < line h -> level h <= level existing ->
      endLineNum (split_lines content) headings existing <= line h).
Proof.
  intros Hfound Hb Ha. split; [|split].
  - rewrite (updateContent_found _ _ _ _ _ Hfound), replaceSection_lines.
    now rewrite !keptLines_id.
  - destruct (endLineNum_cases (split_lines content) headings existing)
      as [(h & Hin & Hc & He)|(Hnone & He)].
    + left. exists h. unfold closesSection in Hc.
      apply andb_true_iff in Hc. destruct Hc as [H1 H2].
      apply Nat.ltb_lt in H1. apply Nat.leb_le in H2. tauto.
    + right. split; [|assumption]. intros h Hin [H1 H2].
      specialize (Hnone h Hin). unfold closesSection in Hnone.
      apply Nat.ltb_lt in H1. apply Nat.leb_le in H2.
      rewrite H1, H2 in Hnone. discriminate.
  - intros Hs h Hin H1 H2. apply endLineNum_nearest; try assumption.
    unfold closesSection. apply andb_true_iff.
    split; [now apply Nat.ltb_lt|now apply Nat.leb_le].
Qed.

Lemma replace_preserves_frame_witness :
  split_lines
    (updateContent (js "## Incidents")
       (doc ["# Log"; "intro"; "## Incidents"; "old 1"; "old 2"; "## Next"; "stays"]%string)
       [mkHeading (js "Log") 1 0; mkHeading (js "Incidents") 2 2; mkHeading (js "Next") 2 5]
       (doc ["## Incidents"; "new"]%string))
  = map js ["# Log"; "intro"; "## Incidents"; "new"; "## Next"; "stays"]%string.
Proof.
  refine (eq_trans
    (proj1 (replace_preserves_frame (js "## Incidents")
       (doc ["# Log"; "intro"; "## Incidents"; "old 1"; "old 2"; "## Next"; "stays"]%string)
       [mkHeading (js "Log") 1 0; mkHeading (js "Incidents") 2 2; mkHeading (js "Next") 2 5]
       (mkHeading (js "Incidents") 2 2)
       (doc ["## Incidents"; "new"]%string) _ _ _)) _).
  - reflexivity.
  - vm_compute. discriminate.
  - vm_compute. discriminate.
  - reflexivity.
Defined.

(** ** C3: what separates the new body from its neighbours *)

(** C3, as stated, fails: with text on both sides of the section the replace
    puts no blank line on either side of the new body. *)
Lemma replace_inserts_no_blank_line :
  findExistingHeading sectionThenNextIndex (sectionHeaderText (js "## Incidents"))
    = Some (mkHeading (js "Incidents") 2 1)
  /\ beforeSection sectionBetween (mkHeading (js "Incidents") 2 1) = js "intro"
  /\ afterSection sectionBetween sectionThenNextIndex (mkHeading (js "Incidents") 2 1)
     = js "## Next"
  /\ split_lines (updateContent (js "## Incidents") sectionBetween sectionThenNextIndex
                    newBody)
     = map js ["intro"; "## Incidents"; "new"; "## Next"]%string
  /\ ~ In [] (split_lines (updateContent (js "## Incidents") sectionBetween
                             sectionThenNextIndex newBody)).
Proof.
  repeat split; try reflexivity.
  vm_compute. intros H. repeat (destruct H as [H|H]; [discriminate H|]). exact H.
Qed.

(** C3 (amended): in a replace of a located section exactly one line feed
    (a line break, not a blank line) stands between the new body and the text
    of a side that is not empty, and nothing is put next to a side whose text
    is empty; so the body starts on the line after the last kept line before
    it and the following content starts on the line after the body's last
    line, and no line is added. *)
Theorem replace_separators (sectionHeader content : jsstring)
    (headings : list HeadingCache) (existing : HeadingCache) (body : jsstring) :
  findExistingHeading headings (sectionHeaderText sectionHeader) = Some existing ->
  (beforeSection content existing <> [] -> afterSection content headings existing <> [] ->
   updateContent sectionHeader content headings body
   = beforeSection content existing ++ [LF] ++ body ++ [LF]
     ++ afterSection content headings existing)
  /\ (beforeSection content existing <> [] -> afterSection content headings existing = [] ->
      updateContent sectionHeader content headings body
      = beforeSection content existing ++ [LF] ++ body)
  /\ (beforeSection content existing = [] -> afterSection content headings existing <> [] ->
      updateContent sectionHeader content headings body
      = body ++ [LF] ++ afterSection content headings existing)
  /\ (beforeSection content existing = [] -> afterSection content headings existing = [] ->
      updateContent sectionHeader content headings body = body)
  /\ split_lines (updateContent sectionHeader content headings body)
     = keptLines (firstn (line existing) (split_lines content))
       ++ split_lines body
       ++ keptLines (skipn (endLineNum (split_lines content) headings existing)
                       (split_lines content)).
Proof.
  intros Hfound. rewrite (updateContent_found _ _ _ _ _ Hfound).
  repeat split.
  - intros Hb Ha. unfold replaceSection, sepFor.
    apply truthy_true in Hb, Ha. now rewrite Hb, Ha.
  - intros Hb Ha. unfold replaceSection, sepFor.
    apply truthy_true in Hb. rewrite Hb, Ha. simpl. now rewrite !app_nil_r.
  - intros Hb Ha. unfold replaceSection, sepFor.
    apply truthy_true in Ha. rewrite Ha, Hb. reflexivity.
  - intros Hb Ha. unfold replaceSection, sepFor.
    rewrite Ha, Hb. simpl. now rewrite !app_nil_r.
  - apply replaceSection_lines.
Qed.

Lemma replace_separators_witness :
  updateContent (js "## Incidents") sectionBetween sectionThenNextIndex newBody
  = js "intro" ++ [LF] ++ newBody ++ [LF] ++ js "## Next".
Proof.
  refine (proj1 (replace_separators (js "## Incidents") sectionBetween
                   sectionThenNextIndex (mkHeading (js "Incidents") 2 1) newBody _) _ _).
  - reflexivity.
  - vm_compute. discriminate.
  - vm_compute. discriminate.
Defined.

(** ** Collapsing line feeds and trimming *)

Lemma collapse_from_leading (s : jsstring) (k : nat) :
  k <= 2 -> leadingLF (collapse_from k s) + k <= 2.
Proof.
  revert k; induction s as [|c t IH]; intros k Hk; simpl; [lia|].
  destruct (N.eqb_spec c LF) as [->|Hc].
  - destruct (Nat.ltb_spec k 2) as [Hlt|Hge].
    + simpl. specialize (IH (S k)). lia.
    + apply IH. lia.
  - simpl. destruct (N.eqb_spec c LF); [contradiction|lia].
Qed.

Lemma starts_with_cons (x : code_unit) (n s : jsstring) :
  starts_with (x :: n) s = true -> exists t, s = x :: t /\ starts_with n t = true.
Proof.
  destruct s as [|y t]; cbn [starts_with]; [discriminate|].
  intros H. apply andb_true_iff in H. destruct H as [H1 H2].
  apply N.eqb_eq in H1. subst y. now exists t.
Qed.

Lemma starts_with_triple (s : jsstring) :
  starts_with TRIPLE_LF s = true -> 3 <= leadingLF s.
Proof.
  unfold TRIPLE_LF. intros H.
  apply starts_with_cons in H. destruct H as (t1 & -> & H).
  apply starts_with_cons in H. destruct H as (t2 & -> & H).
  apply starts_with_cons in H. destruct H as (t3 & -> & H).
  cbn [leadingLF]. rewrite !N.eqb_refl. lia.
Qed.

Lemma collapse_from_no_triple (s : jsstring) (k : nat) :
  k <= 2 -> includes (collapse_from k s) TRIPLE_LF = false.
Proof.
  revert k; induction s as [|c t IH]; intros k Hk; [reflexivity|].
  cbn [collapse_from].
  destruct (N.eqb_spec c LF) as [->|Hc].
  - destruct (Nat.ltb_spec k 2) as [Hlt|Hge]; [|apply IH; lia].
    cbn [includes]. rewrite (IH (S k)) by lia. rewrite orb_false_r.
    destruct (starts_with TRIPLE_LF (LF :: collapse_from (S k) t)) eqn:E; [|reflexivity].
    apply starts_with_triple in E. cbn [leadingLF] in E. rewrite N.eqb_refl in E.
    pose proof (collapse_from_leading t (S k)). lia.
  - cbn [includes]. rewrite (IH 0) by lia. rewrite orb_false_r.
    destruct (starts_with TRIPLE_LF (c :: collapse_from 0 t)) eqn:E; [|reflexivity].
    apply starts_with_cons in E. destruct E as (t1 & E & _).
    injection E as E _. now contradiction Hc.
Qed.

Lemma starts_with_app (n a b : jsstring) :
  starts_with n a = true -> starts_with n (a ++ b) = true.
Proof.
  revert a; induction n as [|x n IH]; intros [|y a]; simpl; try reflexivity; try discriminate.
  intros H. apply andb_true_iff in H. destruct H as [H1 H2].
  rewrite H1. now apply IH.
Qed.

Lemma includes_app_l (a b n : jsstring) :
  includes a n = true -> includes (a ++ b) n = true.
Proof.
  induction a as [|x a IH]; simpl.
  - rewrite orb_false_r. intros H. destruct n; [|discriminate].
    destruct b; reflexivity.
  - intros H. apply orb_true_iff in H. destruct H as [H|H].
    + change (x :: a ++ b) with ((x :: a) ++ b).
      now rewrite (starts_with_app _ _ _ H).
    + rewrite (IH H). apply orb_true_r.
Qed.

Lemma includes_app_r (a b n : jsstring) :
  includes b n = true -> includes (a ++ b) n = true.
Proof.
  intros H. induction a as [|x a IH]; simpl; [assumption|].
  rewrite IH. apply orb_true_r.
Qed.

Lemma dropWhile_split {A} (p : A -> bool) (l : list A) :
  exists pre, l = pre ++ dropWhile p l.
Proof.
  induction l as [|x l [pre IH]]; simpl.
  - now exists [].
  - destruct (p x).
    + exists (x :: pre). simpl. now f_equal.
    + now exists [].
Qed.

Lemma dropWhile_length {A} (p : A -> bool) (l : list A) :
  length (dropWhile p l) <= length l.
Proof.
  induction l as [|x l IH]; simpl; [lia|]. destruct (p x); simpl; lia.
Qed.

Lemma dropWhile_idem {A} (p : A -> bool) (l : list A) :
  dropWhile p (dropWhile p l) = dropWhile p l.
Proof.
  induction l as [|x l IH]; simpl; [reflexivity|].
  destruct (p x) eqn:E; [assumption|]. simpl. now rewrite E.
Qed.

Lemma dropWhile_fixed_head {A} (p : A -> bool) (x : A) (l : list A) :
  dropWhile p (x :: l) = x :: l -> p x = false.
Proof.
  simpl. destruct (p x); [|reflexivity].
  intros H. pose proof (dropWhile_length p l) as Hl. rewrite H in Hl. simpl in Hl. lia.
Qed.

Lemma trimEnd_split (s : jsstring) : exists suf, s = trimEnd s ++ suf.
Proof.
  unfold trimEnd. destruct (dropWhile_split is_ws (rev s)) as [pre H].
  exists (rev pre). rewrite <- rev_app_distr, <- H. now rewrite rev_involutive.
Qed.

Lemma trimStart_split (s : jsstring) : exists pre, s = pre ++ trimStart s.
Proof. apply dropWhile_split. Qed.

Lemma includes_trim (s n : jsstring) :
  includes s n = false -> includes (trim s) n = false.
Proof.
  intros H. destruct (includes (trim s) n) eqn:E; [|reflexivity].
  unfold trim in E.
  destruct (trimStart_split (trimEnd s)) as [pre Hp].
  destruct (trimEnd_split s) as [suf Hs].
  apply (includes_app_r pre) in E. rewrite <- Hp in E.
  apply (includes_app_l _ suf) in E. rewrite <- Hs in E. congruence.
Qed.

Lemma trimStart_trim (s : jsstring) : trimStart (trim s) = trim s.
Proof. unfold trim, trimStart. apply dropWhile_idem. Qed.

Lemma trimEnd_trim (s : jsstring) : trimEnd (trim s) = trim s.
Proof.
  unfold trim. set (y := trimEnd s).
  assert (Hy : dropWhile is_ws (rev y) = rev y).
  { unfold y, trimEnd. rewrite rev_involutive. apply dropWhile_idem. }
  destruct (trimStart_split y) as [pre Hp].
  unfold trimEnd at 1.
  destruct (rev (trimStart y)) as [|a r] eqn:Er.
  - simpl. apply (f_equal (@rev _)) in Er. rewrite rev_involutive in Er. now rewrite Er.
  - assert (Ha : is_ws a = false).
    { apply (dropWhile_fixed_head is_ws a (r ++ rev pre)).
      rewrite Hp, rev_app_distr, Er in Hy. exact Hy. }
    simpl. rewrite Ha. rewrite <- Er. apply rev_involutive.
Qed.

(** The run-by-run reading of the pattern: a run of [k] line feeds between
    other text becomes a run of [min k 2]. *)
Lemma collapse_from_run (k j : nat) (rest : jsstring) :
  leadingLF rest = 0 ->
  collapse_from j (repeat LF k ++ rest)
  = repeat LF (Nat.min k (2 - j)) ++ collapse_from 0 rest.
Proof.
  intros Hrest. revert j; induction k as [|k IH]; intros j.
  - simpl. destruct rest as [|c t]; [reflexivity|].
    simpl in *. destruct (N.eqb c LF); [discriminate|reflexivity].
  - cbn [repeat app collapse_from]. rewrite N.eqb_refl.
    destruct (Nat.ltb_spec j 2) as [Hlt|Hge].
    + rewrite IH. replace (2 - j) with (S (2 - S j)) by lia. reflexivity.
    + rewrite IH. replace (2 - j) with 0 by lia. now rewrite !Nat.min_0_r.
Qed.

Lemma collapse_from_text (a rest : jsstring) (c : code_unit) (j : nat) :
  N.eqb c LF = false ->
  collapse_from j (a ++ c :: rest) = collapse_from j (a ++ [c]) ++ collapse_from 0 rest.
Proof.
  intros Hc. revert j; induction a as [|x a IH]; intros j; simpl.
  - now rewrite Hc.
  - destruct (N.eqb x LF); [destruct (j <? 2)|]; simpl; now rewrite IH.
Qed.

Lemma collapseNewlines_run (a rest : jsstring) (c : code_unit) (k : nat) :
  N.eqb c LF = false -> leadingLF rest = 0 ->
  collapseNewlines (a ++ c :: repeat LF k ++ rest)
  = collapseNewlines (a ++ [c]) ++ repeat LF (Nat.min k 2) ++ collapseNewlines rest.
Proof.
  intros Hc Hrest. unfold collapseNewlines.
  rewrite (collapse_from_text a _ c 0 Hc). f_equal.
  now rewrite collapse_from_run.
Qed.

(** ** C2: removing the section *)

(** C2, as stated, fails: the removal also trims white space at the start of
    the document and already merges two consecutive blank lines into one, so
    its result is not the lines outside the owned range with only runs of
    three blank lines collapsed and only the end trimmed. *)
Lemma remove_differs_from_statement :
  removeSectionFromNote (js "## Incidents") indentedNote [mkHeading (js "Incidents") 2 5]
    = Some (doc ["a"; ""; "b"]%string)
  /\ removeSection_as_stated indentedNote [mkHeading (js "Incidents") 2 5]
       (mkHeading (js "Incidents") 2 5)
     = doc ["  a"; ""; ""; "b"]%string
  /\ removeSectionFromNote (js "## Incidents") indentedNote [mkHeading (js "Incidents") 2 5]
     <> Some (removeSection_as_stated indentedNote [mkHeading (js "Incidents") 2 5]
                (mkHeading (js "Incidents") 2 5)).
Proof.
  repeat split; try reflexivity.
  vm_compute. discriminate.
Qed.

(** The text before the heading and the text after the section are
    concatenated with nothing between them (the replace puts a line feed
    there): a line that directly precedes the heading runs into the heading
    that follows the section. *)
Example remove_joins_neighbouring_lines :
  removeSectionFromNote (js "## Incidents")
    (doc ["intro"; "## Incidents"; "old"; "## Next"; "stuff"]%string)
    [mkHeading (js "Incidents") 2 1; mkHeading (js "Next") 2 3]
  = Some (doc ["intro## Next"; "stuff"]%string).
Proof. reflexivity. Qed.

(** C2 (amended): when the managed heading is in the index and the owned range
    reaches the start or the end of the document, [removeSectionFromNote]
    writes the lines outside the owned range, joined, with every run of three
    or more line feeds (two or more consecutive blank lines) collapsed to two
    line feeds (one blank line) and white space trimmed at both ends; the
    result holds no three consecutive line feeds and neither starts nor ends
    with white space. *)
Theorem remove_at_document_edge (sectionHeader content : jsstring)
    (headings : list HeadingCache) (existing : HeadingCache) :
  findExistingHeading headings (sectionHeaderText sectionHeader) = Some existing ->
  firstn (line existing) (split_lines content) = []
  \/ skipn (endLineNum (split_lines content) headings existing) (split_lines content) = [] ->
  exists result,
    removeSectionFromNote sectionHeader content headings = Some result
    /\ result = trim (collapseNewlines
                        (join_lines
                           (firstn (line existing) (split_lines content)
                            ++ skipn (endLineNum (split_lines content) headings existing)
                                 (split_lines content))))
    /\ includes result TRIPLE_LF = false
    /\ trimStart result = result
    /\ trimEnd result = result.
Proof.
  intros Hfound Hedge. unfold removeSectionFromNote. rewrite Hfound.
  eexists. split; [reflexivity|]. split; [|split; [|split]].
  - unfold removeSection, beforeSection, afterSection, slice_from.
    rewrite slice_0. destruct Hedge as [H|H]; rewrite H; simpl.
    + reflexivity.
    + now rewrite !app_nil_r.
  - apply includes_trim. apply collapse_from_no_triple. lia.
  - apply trimStart_trim.
  - apply trimEnd_trim.
Qed.

Lemma remove_at_document_edge_witness :
  exists result,
    removeSectionFromNote (js "## Incidents")
      (doc ["# Log"; "intro"; ""; ""; "## Incidents"; "old"]%string)
      [mkHeading (js "Log") 1 0; mkHeading (js "Incidents") 2 4] = Some result
    /\ result = doc ["# Log"; "intro"]%string.
Proof.
  destruct (remove_at_document_edge (js "## Incidents")
              (doc ["# Log"; "intro"; ""; ""; "## Incidents"; "old"]%string)
              [mkHeading (js "Log") 1 0; mkHeading (js "Incidents") 2 4]
              (mkHeading (js "Incidents") 2 4) eq_refl (or_intror eq_refl))
    as (result & Hwritten & Hresult & _).
  exists result. split; [exact Hwritten|].
  rewrite Hresult. reflexivity.
Defined.

(** ** C7 and C6: the backoff policy *)

Lemma exponential_cap (a : nat) :
  Z.min (INITIAL_BACKOFF_MS * 2 ^ Z.of_nat a) MAX_BACKOFF_MS
  = if a <=? 5 then (500 * 2 ^ Z.of_nat a)%Z else 30000%Z.
Proof.
  unfold INITIAL_BACKOFF_MS, MAX_BACKOFF_MS.
  destruct (Nat.leb_spec a 5) as [Hle|Hgt].
  - apply Z.min_l.
    assert (H : (2 ^ Z.of_nat a <= 2 ^ 5)%Z) by (apply Z.pow_le_mono_r; lia).
    change (2 ^ 5)%Z with 32%Z in H. lia.
  - apply Z.min_r.
    assert (H : (2 ^ 6 <= 2 ^ Z.of_nat a)%Z) by (apply Z.pow_le_mono_r; lia).
    change (2 ^ 6)%Z with 64%Z in H. lia.
Qed.

(** C7: without a retry-after hint the value handed to the jitter is
    min(500 * 2^a, 30000) for every attempt number a, that is 500 * 2^a up to
    attempt 5 and 30000 from attempt 6 on; for attempts 6 and 10 it is 30000. *)
Theorem backoff_exponential_schedule (addJitter : number -> number) (a : nat) :
  calculateBackoff addJitter a None
    = addJitter (Z.min (500 * 2 ^ Z.of_nat a) 30000)
  /\ backoffBase a None = Z.min (500 * 2 ^ Z.of_nat a) 30000
  /\ backoffBase a None = (if a <=? 5 then (500 * 2 ^ Z.of_nat a)%Z else 30000%Z)
  /\ backoffBase 6 None = 30000%Z
  /\ backoffBase 10 None = 30000%Z.
Proof.
  repeat split; try reflexivity.
  unfold backoffBase, calculateBackoff, exponentialBackoff. rewrite exponential_cap.
  now destruct (a <=? 5).
Qed.

Lemma digit_of_digit (d : N) :
  (d < 10)%N -> digit_of (48 + d)%N = Some (Z.of_N d).
Proof.
  intros H. unfold digit_of.
  replace (N.leb 48 (48 + d)) with true by (symmetry; apply N.leb_le; lia).
  replace (N.leb (48 + d) 57) with true by (symmetry; apply N.leb_le; lia).
  cbn [andb]. f_equal. lia.
Qed.

Lemma digits_of_S (fuel : nat) (n : N) (acc : jsstring) :
  digits_of (S fuel) n acc
  = if N.ltb n 10 then (48 + n mod 10)%N :: acc
    else digits_of fuel (n / 10) ((48 + n mod 10)%N :: acc).
Proof. reflexivity. Qed.

Lemma parse_digits_cons (acc : Z) (d : N) (t : jsstring) :
  (d < 10)%N ->
  parse_digits acc ((48 + d)%N :: t) = parse_digits (10 * acc + Z.of_N d) t.
Proof. intros H. cbn [parse_digits]. now rewrite digit_of_digit. Qed.

Lemma parse_digits_of (fuel : nat) :
  forall (n : N) (rest : jsstring),
  (n < 10 ^ N.of_nat (S fuel))%N ->
  parse_digits 0 (digits_of (S fuel) n rest) = parse_digits (Z.of_N n) rest.
Proof.
  induction fuel as [|fuel IH]; intros n rest Hn; rewrite digits_of_S.
  - change (10 ^ N.of_nat 1)%N with 10%N in Hn.
    apply N.ltb_lt in Hn as Hlt. rewrite Hlt.
    rewrite parse_digits_cons by (apply N.mod_lt; lia).
    rewrite N.mod_small by lia. reflexivity.
  - destruct (N.ltb_spec n 10) as [Hlt|Hge].
    + rewrite parse_digits_cons by (apply N.mod_lt; lia).
      rewrite N.mod_small by lia. reflexivity.
    + rewrite IH.
      * rewrite parse_digits_cons by (apply N.mod_lt; lia).
        f_equal. rewrite (N.div_mod n 10) at 3 by lia. lia.
      * apply N.Div0.div_lt_upper_bound.
        replace (N.of_nat (S (S fuel))) with (N.succ (N.of_nat (S fuel))) in Hn by lia.
        now rewrite N.pow_succ_r' in Hn.
Qed.

Lemma size_bound (n : N) : (n < 10 ^ N.of_nat (S (N.to_nat (N.size n))))%N.
Proof.
  replace (N.of_nat (S (N.to_nat (N.size n)))) with (N.succ (N.size n)) by lia.
  eapply N.lt_le_trans; [apply N.size_gt|].
  transitivity (10 ^ N.size n)%N.
  - apply N.pow_le_mono_l. lia.
  - apply N.pow_le_mono_r; lia.
Qed.

Lemma parse_decimalText (n : N) : parse_digits 0 (decimalText n) = Z.of_N n.
Proof. unfold decimalText. rewrite parse_digits_of; [reflexivity|apply size_bound]. Qed.

Lemma decimalText_head (n : N) :
  exists d t, decimalText n = (48 + d)%N :: t /\ (d < 10)%N.
Proof.
  unfold decimalText. generalize (@nil code_unit) as acc.
  generalize (N.to_nat (N.size n)) as fuel. intros fuel. revert n.
  induction fuel as [|fuel IH]; intros n acc; rewrite digits_of_S.
  - destruct (N.ltb n 10);
      exists (n mod 10)%N, acc; (split; [reflexivity|apply N.mod_lt; lia]).
  - destruct (N.ltb n 10).
    + exists (n mod 10)%N, acc. split; [reflexivity|apply N.mod_lt; lia].
    + apply IH.
Qed.

Lemma digit_not_ws (d : N) : (d < 10)%N -> is_ws (48 + d)%N = false.
Proof.
  intros H.
  assert (Hd : In d [0; 1; 2; 3; 4; 5; 6; 7; 8; 9]%N) by (simpl; lia).
  simpl in Hd.
  repeat (destruct Hd as [<-|Hd]; [reflexivity|]). destruct Hd.
Qed.

Lemma digit_not_sign (d : N) :
  (d < 10)%N -> N.eqb (48 + d)%N 45 = false /\ N.eqb (48 + d)%N 43 = false.
Proof. intros H. split; apply N.eqb_neq; lia. Qed.

Lemma roundFinite_exact (z : Z) : (Z.abs z <= 2 ^ 53)%Z -> roundFinite z = z.
Proof. intros H. unfold roundFinite. apply Z.leb_le in H. now rewrite H. Qed.

Lemma roundDouble_exact (z : Z) : (Z.abs z <= 2 ^ 53)%Z -> roundDouble z = Finite z.
Proof.
  intros H. unfold roundDouble. rewrite (roundFinite_exact z H).
  assert (Hlt : (2 ^ 53 < 2 ^ 1024)%Z) by (apply Z.pow_lt_mono_r; lia).
  replace (2 ^ 1024 <=? Z.abs z)%Z with false; [reflexivity|].
  symmetry. apply Z.leb_gt. lia.
Qed.

Lemma times1000_exact (h : Z) :
  (Z.abs (h * 1000) <= 2 ^ 53)%Z -> times1000 (Finite h) = Finite (h * 1000).
Proof. intros H. cbn [times1000]. now apply roundDouble_exact. Qed.

(** The numeral of [h] reads as the double nearest to [h]. *)
Lemma parseInt10_decimalText (h : N) :
  parseInt10 (decimalText h) = roundDouble (Z.of_N h).
Proof.
  pose proof (parse_decimalText h) as Hp.
  destruct (decimalText_head h) as (d & t & E & Hd). rewrite E in *.
  unfold parseInt10, trimStart. cbn [dropWhile].
  rewrite (digit_not_ws d Hd).
  destruct (digit_not_sign d Hd) as [-> ->].
  rewrite (digit_of_digit d Hd), Hp. f_equal. lia.
Qed.

Lemma parseInt10_negative (h : N) :
  parseInt10 (45%N :: decimalText h) = roundDouble (- Z.of_N h).
Proof.
  pose proof (parse_decimalText h) as Hp.
  destruct (decimalText_head h) as (d & t & E & Hd). rewrite E in *.
  unfold parseInt10, trimStart. cbn [dropWhile].
  change (is_ws 45%N) with false. cbv iota. rewrite N.eqb_refl.
  rewrite (digit_of_digit d Hd), Hp. f_equal; lia.
Qed.

Lemma parseInt10_empty : parseInt10 [] = NotANumber.
Proof. reflexivity. Qed.

Lemma calculateBackoff_hint (addJitter : number -> number) (a : nat) (s : jsstring) :
  parseInt10 s <> NotANumber ->
  calculateBackoff addJitter a (Some s) = addJitter (times1000 (parseInt10 s)).
Proof.
  intros Hs. unfold calculateBackoff.
  destruct s as [|c t]; [now contradiction Hs|].
  cbn [truthy]. destruct (parseInt10 (c :: t)); [now contradiction Hs| |]; reflexivity.
Qed.

Lemma calculateBackoff_no_number (addJitter : number -> number) (a : nat) (s : jsstring) :
  parseInt10 s = NotANumber ->
  calculateBackoff addJitter a (Some s)
  = addJitter (Z.min (500 * 2 ^ Z.of_nat a) 30000).
Proof.
  intros Hs. unfold calculateBackoff. rewrite Hs. destruct (truthy s); reflexivity.
Qed.

Lemma roundDouble_is_a_number (z : Z) : roundDouble z <> NotANumber.
Proof. unfold roundDouble. destruct (2 ^ 1024 <=? Z.abs (roundFinite z))%Z; discriminate. Qed.

(** C6, as stated, fails: the hint "9007199254740993" is the numeral of a
    non-negative integer h = 2^53 + 1, yet the value handed to the jitter is
    not h * 1000.  Numbers are doubles: [parseInt] returns 2^53, the double
    nearest to h, and the product is 9007199254740992000. *)
Lemma large_hint_is_rounded :
  js "9007199254740993" = decimalText 9007199254740993
  /\ parseInt10 (js "9007199254740993") = Finite 9007199254740992
  /\ backoffBase 1 (Some (js "9007199254740993")) = Finite 9007199254740992000
  /\ backoffBase 1 (Some (js "9007199254740993"))
     <> Finite (9007199254740993 * 1000).
Proof.
  split; [vm_compute; reflexivity|]. split; [vm_compute; reflexivity|].
  split; [vm_compute; reflexivity|]. vm_compute. discriminate.
Qed.

(** A hint with a minus sign is not the numeral of a non-negative integer,
    yet the backoff does not fall back to the exponential schedule (1000 ms
    at attempt 1): the source tests the parsed number for [NaN] only and
    takes -5 seconds from the hint "-5". *)
Example negative_hint_is_taken :
  parseInt10 (js "-5") = Finite (-5)
  /\ backoffBase 1 (Some (js "-5")) = Finite (-5000)
  /\ backoffBase 1 None = Finite 1000
  /\ backoffBase 1 (Some (js "-5")) <> backoffBase 1 None.
Proof.
  split; [vm_compute; reflexivity|]. split; [vm_compute; reflexivity|].
  split; [vm_compute; reflexivity|]. vm_compute. discriminate.
Qed.

(** C6 (amended): for every attempt number, a hint from which
    [parseInt(_, 10)] reads a non-negative integer h with h * 1000 at most
    2^53 gives h * 1000 to the jitter, whatever the attempt number; the
    decimal numeral of such an h is such a hint.  Numbers are doubles: for
    the numeral of any non-negative integer h the jitter gets 1000 times the
    double nearest to h, rounded to a double again.  A hint from which
    [parseInt] reads no number (such as "invalid" or the empty string) falls
    back to the exponential schedule of that attempt. *)
Theorem backoff_retry_after_hint (addJitter : number -> number) (a : nat) :
  (forall h : N,
     (Z.of_N h * 1000 <= 2 ^ 53)%Z ->
     calculateBackoff addJitter a (Some (decimalText h)) = addJitter (Z.of_N h * 1000)%Z)
  /\ (forall (s : jsstring) (h : Z),
        parseInt10 s = Finite h -> (0 <= h)%Z -> (h * 1000 <= 2 ^ 53)%Z ->
        calculateBackoff addJitter a (Some s) = addJitter (h * 1000)%Z)
  /\ (forall h : N,
        calculateBackoff addJitter a (Some (decimalText h))
        = addJitter (times1000 (roundDouble (Z.of_N h))))
  /\ (forall s : jsstring,
        parseInt10 s = NotANumber ->
        calculateBackoff addJitter a (Some s)
        = addJitter (Z.min (500 * 2 ^ Z.of_nat a) 30000))
  /\ calculateBackoff addJitter a (Some (js "invalid"))
     = addJitter (Z.min (500 * 2 ^ Z.of_nat a) 30000)
  /\ calculateBackoff addJitter a (Some (js ""))
     = addJitter (Z.min (500 * 2 ^ Z.of_nat a) 30000).
Proof.
  assert (Hnum : forall (s : jsstring) (h : Z),
             parseInt10 s = Finite h -> (0 <= h)%Z -> (h * 1000 <= 2 ^ 53)%Z ->
             calculateBackoff addJitter a (Some s) = addJitter (h * 1000)%Z).
  { intros s h Hs Hh Hb. rewrite calculateBackoff_hint by (rewrite Hs; discriminate).
    rewrite Hs, times1000_exact; [reflexivity|]. rewrite Z.abs_eq; lia. }
  split; [|split; [|split; [|split; [|split]]]].
  - intros h Hb. apply Hnum; [|lia|exact Hb].
    rewrite parseInt10_decimalText. apply roundDouble_exact.
    rewrite Z.abs_eq; lia.
  - exact Hnum.
  - intros h. rewrite calculateBackoff_hint; rewrite parseInt10_decimalText;
      [reflexivity|apply roundDouble_is_a_number].
  - intros s. apply calculateBackoff_no_number.
  - apply calculateBackoff_no_number. reflexivity.
  - reflexivity.
Qed.

Lemma backoff_retry_after_hint_witness :
  calculateBackoff (fun ms => ms) 1 (Some (js "60 seconds")) = 60000%Z
  /\ calculateBackoff (fun ms => ms) 1 (Some (js "soon")) = 1000%Z.
Proof.
  split.
  - refine (proj1 (proj2 (backoff_retry_after_hint (fun ms => ms) 1))
              (js "60 seconds") 60%Z _ _ _).
    + vm_compute. reflexivity.
    + lia.
    + vm_compute. discriminate.
  - exact (proj1 (proj2 (proj2 (proj2 (backoff_retry_after_hint (fun ms => ms) 1))))
             (js "soon") eq_refl).
Defined.

(** ** C5: the retry decision of [request] *)

Section RequestFacts.
Variable addJitter : number -> number.
Context {T : Type}.
Variable url : jsstring.
Variable attempts : nat -> Attempt T.

Let loop := request_loop addJitter url attempts.

Lemma loop_S (remaining attempt : nat) (lastError : option Error) :
  loop (S remaining) attempt lastError
  = match attempts attempt with
    | Response status retryAfter json =>
        if Z.leb 200 status && Z.ltb status 300 then mkRun (Ok json) [] 1
        else if Z.eqb status 429 then
          afterDelay (calculateBackoff addJitter attempt retryAfter)
            (loop remaining (S attempt) lastError)
        else if Z.leb 500 status then
          afterDelay (calculateBackoff addJitter attempt None)
            (loop remaining (S attempt) lastError)
        else if negb (includes (message (clientError status url)) API_REQUEST_FAILED)
        then afterDelay (calculateBackoff addJitter attempt None)
               (loop remaining (S attempt) (Some (clientError status url)))
        else mkRun (Throw (ErrorObject (clientError status url))) [] 1
    | Rejected (ErrorObject e) =>
        if negb (includes (message e) API_REQUEST_FAILED)
        then afterDelay (calculateBackoff addJitter attempt None)
               (loop remaining (S attempt) (Some e))
        else mkRun (Throw (ErrorObject e)) [] 1
    | Rejected OtherValue => mkRun (Throw OtherValue) [] 1
    end.
Proof.
  unfold loop. cbn [request_loop].
  destruct (attempts attempt) as [status retryAfter json|[e|]]; reflexivity.
Qed.

(** The client's own error is recognised by the [catch] block. *)
Lemma clientError_marked (status : Z) :
  includes (message (clientError status url)) API_REQUEST_FAILED = true.
Proof.
  unfold clientError, message.
  change (js "API request failed with status ")
    with (API_REQUEST_FAILED ++ js " with status ").
  rewrite <- app_assoc. apply includes_app_l.
  reflexivity.
Qed.

Lemma not_success (status : Z) :
  status = 429%Z \/ (500 <= status)%Z ->
  Z.leb 200 status && Z.ltb status 300 = false.
Proof.
  intros H. apply andb_false_iff. right. apply Z.ltb_ge. lia.
Qed.

Lemma loop_retried (remaining attempt : nat) (lastError : option Error) :
  retried (attempts attempt) ->
  loop (S remaining) attempt lastError
  = afterDelay (calculateBackoff addJitter attempt (hintOf (attempts attempt)))
      (loop remaining (S attempt) (lastErrorAfter attempts 1 attempt lastError)).
Proof.
  intros Hr. rewrite loop_S. cbn [lastErrorAfter].
  destruct Hr as [ra json|st ra json Hst|e He]; cbn [hintOf].
  - rewrite not_success by now left. reflexivity.
  - rewrite not_success by now right.
    destruct (Z.eqb_spec st 429) as [->|Hne]; [lia|].
    apply Z.leb_le in Hst. now rewrite Hst.
  - now rewrite He.
Qed.

(** As long as the attempts are retried, the loop sleeps the backoff of each
    and goes on with the next. *)
Lemma loop_prefix (k : nat) :
  forall (remaining attempt : nat) (lastError : option Error),
  (forall j, j < k -> retried (attempts (attempt + j))) ->
  loop (k + remaining) attempt lastError
  = mkRun
      (outcome (loop remaining (attempt + k) (lastErrorAfter attempts k attempt lastError)))
      (map (fun j => calculateBackoff addJitter j (hintOf (attempts j))) (seq attempt k)
       ++ delays (loop remaining (attempt + k)
                    (lastErrorAfter attempts k attempt lastError)))
      (k + calls (loop remaining (attempt + k)
                    (lastErrorAfter attempts k attempt lastError))).
Proof.
  induction k as [|k IH]; intros remaining attempt lastError Hr.
  - rewrite Nat.add_0_r. cbn. now destruct (loop remaining attempt lastError).
  - cbn [Nat.add]. rewrite loop_retried
      by (specialize (Hr 0 (Nat.lt_0_succ k)); now rewrite Nat.add_0_r in Hr).
    rewrite IH.
    + replace (S attempt + k) with (attempt + S k) by lia. reflexivity.
    + intros j Hj. replace (S attempt + j) with (attempt + S j) by lia.
      apply Hr. lia.
Qed.

Lemma lastErrorAfter_none (k : nat) :
  forall (from : nat) (last : option Error),
  (forall j t, j < k -> attempts (from + j) <> Rejected t) ->
  lastErrorAfter attempts k from last = last.
Proof.
  induction k as [|k IH]; intros from last Hn; [reflexivity|].
  cbn [lastErrorAfter].
  assert (H0 : forall t, attempts from <> Rejected t).
  { intros t. specialize (Hn 0 t (Nat.lt_0_succ k)). now rewrite Nat.add_0_r in Hn. }
  destruct (attempts from) as [st ra json|t] eqn:E; [|now contradiction (H0 t)].
  apply IH. intros j t Hj. replace (S from + j) with (from + S j) by lia.
  apply Hn. lia.
Qed.

Lemma lastErrorAfter_last (k : nat) :
  forall (from i : nat) (last : option Error) (e : Error),
  i < k ->
  attempts (from + i) = Rejected (ErrorObject e) ->
  includes (message e) API_REQUEST_FAILED = false ->
  (forall j t, i < j < k -> attempts (from + j) <> Rejected t) ->
  lastErrorAfter attempts k from last = Some e.
Proof.
  induction k as [|k IH]; intros from i last e Hi Hat He Hlater; [lia|].
  cbn [lastErrorAfter]. destruct i as [|i].
  - rewrite Nat.add_0_r in Hat. rewrite Hat, He.
    apply lastErrorAfter_none. intros j t Hj.
    replace (S from + j) with (from + S j) by lia. apply Hlater. lia.
  - apply (IH (S from) i); try assumption; try lia.
    + now replace (S from + i) with (from + S i) by lia.
    + intros j t Hj. replace (S from + j) with (from + S j) by lia.
      apply Hlater. lia.
Qed.

Lemma request_run_calls_le : calls (request_run addJitter url attempts) <= MAX_RETRIES.
Proof.
  unfold request_run. fold loop.
  generalize (@None Error) as last. generalize 0 as attempt.
  induction MAX_RETRIES as [|n IH]; intros attempt last; [cbn; lia|].
  rewrite loop_S.
  repeat match goal with
         | |- context [match ?x with _ => _ end] => destruct x
         end; cbn [calls afterDelay]; try lia;
    apply le_n_S, IH.
Qed.

Lemma request_settles : request addJitter url attempts <> Pending.
Proof.
  unfold request, request_run. fold loop.
  generalize (@None Error) as last. generalize 0 as attempt.
  induction MAX_RETRIES as [|n IH]; intros attempt last; [cbn; discriminate|].
  rewrite loop_S.
  repeat match goal with
         | |- context [match ?x with _ => _ end] => destruct x
         end; cbn [outcome afterDelay]; try discriminate; apply IH.
Qed.
End RequestFacts.

Lemma run_after_prefix (addJitter : number -> number) {T : Type} (url : jsstring)
    (attempts : nat -> Attempt T) (k : nat) :
  k <= MAX_RETRIES ->
  (forall j, j < k -> retried (attempts j)) ->
  request_run addJitter url attempts
  = mkRun
      (outcome (request_loop addJitter url attempts (MAX_RETRIES - k) k
                  (lastErrorAfter attempts k 0 None)))
      (retryDelays addJitter attempts k
       ++ delays (request_loop addJitter url attempts (MAX_RETRIES - k) k
                    (lastErrorAfter attempts k 0 None)))
      (k + calls (request_loop addJitter url attempts (MAX_RETRIES - k) k
                    (lastErrorAfter attempts k 0 None))).
Proof.
  intros Hk Hr. unfold request_run.
  replace MAX_RETRIES with (k + (MAX_RETRIES - k)) at 1 by lia.
  now rewrite (loop_prefix addJitter url attempts k (MAX_RETRIES - k) 0 None Hr).
Qed.

Lemma retryDelays_length (addJitter : number -> number) {T : Type}
    (attempts : nat -> Attempt T) (k : nat) :
  length (retryDelays addJitter attempts k) = k.
Proof. unfold retryDelays. now rewrite length_map, length_seq. Qed.

(** C5, as stated, fails.  After five time-outs the request does not fail
    with a "max retries exceeded" error that carries the time-out: it throws
    the time-out error itself, whose message does not mention the retries.
    And an error thrown by the transport whose message happens to contain the
    marker of the client's own error is not retried: it is thrown at once. *)
Lemma request_breaks_statement :
  request_run (fun ms => ms) usersUrl (fun _ => @Rejected unit (ErrorObject timedOut))
    = mkRun (Throw (ErrorObject timedOut))
        (map Finite [500; 1000; 2000; 4000; 8000]%Z) 5
  /\ includes (message timedOut) (js "Max retries") = false
  /\ request_run (fun ms => ms) usersUrl (fun _ => @Rejected unit (ErrorObject hangUp))
     = mkRun (Throw (ErrorObject hangUp)) [] 1.
Proof. repeat split. Qed.

(** C5 (amended): [request] calls the server at most MAX_RETRIES = 5 times.
    As long as every attempt so far met a 429, a status of 500 or more, or a
    thrown [Error] whose message does not contain "API request failed", it
    slept the backoff of each of them (with the retry-after hint after a 429
    only) and tried again.  The first attempt that meets another status
    outside 2xx, in particular a 4xx other than 429, ends the request at once
    with the client's "API request failed" error; a 2xx ends it with the body;
    a thrown value that is not such an [Error] is thrown on at once.  When all
    five attempts were retried the request fails with the last thrown
    transport error itself if there was one, and with the "Max retries (5)
    exceeded" error otherwise. *)
Theorem request_retry_decision (addJitter : number -> number) {T : Type} (url : jsstring)
    (attempts : nat -> Attempt T) :
  calls (request_run addJitter url attempts) <= 5
  /\ (forall k, k <= 5 -> (forall j, j < k -> retried (attempts j)) ->
      k <= calls (request_run addJitter url attempts)
      /\ firstn k (delays (request_run addJitter url attempts))
         = retryDelays addJitter attempts k)
  /\ (forall k status retryAfter json,
        k < 5 -> (forall j, j < k -> retried (attempts j)) ->
        attempts k = Response status retryAfter json ->
        (status < 200 \/ 300 <= status < 500)%Z -> status <> 429%Z ->
        request_run addJitter url attempts
        = mkRun (Throw (ErrorObject (clientError status url)))
            (retryDelays addJitter attempts k) (S k))
  /\ (forall k status retryAfter json,
        k < 5 -> (forall j, j < k -> retried (attempts j)) ->
        attempts k = Response status retryAfter json ->
        (200 <= status < 300)%Z ->
        request_run addJitter url attempts
        = mkRun (Ok json) (retryDelays addJitter attempts k) (S k))
  /\ (forall k t,
        k < 5 -> (forall j, j < k -> retried (attempts j)) ->
        attempts k = Rejected t -> ~ retried (@Rejected T t) ->
        request_run addJitter url attempts
        = mkRun (Throw t) (retryDelays addJitter attempts k) (S k))
  /\ ((forall j, j < 5 -> retried (attempts j)) ->
      (forall j t, j < 5 -> attempts j <> Rejected t) ->
      request_run addJitter url attempts
      = mkRun (Throw (ErrorObject (maxRetriesError url)))
          (retryDelays addJitter attempts 5) 5)
  /\ ((forall j, j < 5 -> retried (attempts j)) ->
      forall i e, i < 5 -> attempts i = Rejected (ErrorObject e) ->
      (forall j t, i < j < 5 -> attempts j <> Rejected t) ->
      request_run addJitter url attempts
      = mkRun (Throw (ErrorObject e)) (retryDelays addJitter attempts 5) 5).
Proof.
  change 5 with MAX_RETRIES.
  split; [apply request_run_calls_le|].
  split; [|split; [|split; [|split; [|split]]]].
  - intros k Hk Hr. rewrite (run_after_prefix addJitter url attempts k Hk Hr).
    cbn [calls delays]. split; [lia|].
    rewrite firstn_app, retryDelays_length, Nat.sub_diag, firstn_O, app_nil_r.
    rewrite <- (retryDelays_length addJitter attempts k) at 1. apply firstn_all.
  - intros k status retryAfter json Hk Hr Hat Hst Hne.
    rewrite (run_after_prefix addJitter url attempts k (Nat.lt_le_incl _ _ Hk) Hr).
    replace (MAX_RETRIES - k) with (S (MAX_RETRIES - S k)) by lia.
    rewrite loop_S, Hat.
    replace (Z.leb 200 status && Z.ltb status 300) with false
      by (destruct (Z.leb_spec 200 status), (Z.ltb_spec status 300);
          cbn; try reflexivity; lia).
    replace (Z.eqb status 429) with false by (symmetry; apply Z.eqb_neq; lia).
    replace (Z.leb 500 status) with false by (symmetry; apply Z.leb_gt; lia).
    rewrite clientError_marked. cbn [outcome delays calls]. now rewrite app_nil_r, Nat.add_1_r.
  - intros k status retryAfter json Hk Hr Hat Hst.
    rewrite (run_after_prefix addJitter url attempts k (Nat.lt_le_incl _ _ Hk) Hr).
    replace (MAX_RETRIES - k) with (S (MAX_RETRIES - S k)) by lia.
    rewrite loop_S, Hat.
    replace (Z.leb 200 status && Z.ltb status 300) with true
      by (symmetry; apply andb_true_iff; split; [apply Z.leb_le|apply Z.ltb_lt]; lia).
    cbn [outcome delays calls]. now rewrite app_nil_r, Nat.add_1_r.
  - intros k t Hk Hr Hat Hnot.
    rewrite (run_after_prefix addJitter url attempts k (Nat.lt_le_incl _ _ Hk) Hr).
    replace (MAX_RETRIES - k) with (S (MAX_RETRIES - S k)) by lia.
    rewrite loop_S, Hat.
    destruct t as [e|].
    + destruct (includes (message e) API_REQUEST_FAILED) eqn:E.
      * cbn [outcome delays calls]. now rewrite app_nil_r, Nat.add_1_r.
      * contradiction Hnot. now constructor.
    + cbn [outcome delays calls]. now rewrite app_nil_r, Nat.add_1_r.
  - intros Hr Hnone.
    rewrite (run_after_prefix addJitter url attempts MAX_RETRIES (le_n _) Hr).
    rewrite Nat.sub_diag. rewrite lastErrorAfter_none by (intros j t Hj; now apply Hnone).
    cbn [request_loop outcome delays calls]. now rewrite app_nil_r.
  - intros Hr i e Hi Hat Hlater.
    rewrite (run_after_prefix addJitter url attempts MAX_RETRIES (le_n _) Hr).
    rewrite Nat.sub_diag.
    rewrite (lastErrorAfter_last attempts MAX_RETRIES 0 i None e Hi Hat).
    + cbn [request_loop outcome delays calls]. now rewrite app_nil_r.
    + specialize (Hr i Hi). rewrite Hat in Hr. now inversion Hr.
    + intros j t Hj. now apply Hlater.
Qed.

Lemma request_retry_decision_witness :
  request_run (fun ms => ms) usersUrl
    (fun n => if n =? 0 then Response 503 None tt else Response 404 None tt)
  = mkRun (Throw (ErrorObject (clientError 404 usersUrl))) [Finite 500] 2.
Proof.
  refine (proj1 (proj2 (proj2
            (request_retry_decision (fun ms => ms) usersUrl
               (fun n => if n =? 0 then Response 503 None tt else Response 404 None tt))))
            1 404%Z None tt _ _ _ _ _).
  - lia.
  - intros j Hj. destruct j as [|j]; [|lia]. apply retried_5xx. lia.
  - reflexivity.
  - lia.
  - discriminate.
Defined.

(** ** C10: batches *)

Lemma allSettled_fulfilled {R} (ps : list (Res R)) :
  (forall p, In p ps -> p <> Pending) ->
  exists settled, allSettled ps = Some settled
                  /\ fulfilledValues settled = successes ps.
Proof.
  induction ps as [|p ps IH]; intros Hs.
  - now exists [].
  - destruct IH as (settled & E & F); [intros q Hq; apply Hs; now right|].
    cbn [allSettled successes]. rewrite E.
    destruct p as [v|t|].
    + exists (Fulfilled v :: settled). cbn [fulfilledValues]. now rewrite F.
    + exists (RejectedWith t :: settled). now cbn [fulfilledValues].
    + exfalso. apply (Hs Pending); [now left|reflexivity].
Qed.

Lemma successes_app {R} (a b : list (Res R)) :
  successes (a ++ b) = successes a ++ successes b.
Proof.
  induction a as [|[v|t|] a IH]; cbn [app successes]; [reflexivity| |assumption|assumption].
  now rewrite IH.
Qed.

Lemma processInBatches_from_spec {T R} (processor : T -> Res R) (items : list T)
    (batchSize : nat) :
  0 < batchSize ->
  (forall x, In x items -> processor x <> Pending) ->
  forall (fuel i : nat) (results : list R),
  length items - i < fuel ->
  processInBatches_from fuel items batchSize processor i results
  = Ok (results ++ successes (map processor (skipn i items))).
Proof.
  intros Hb Hs. induction fuel as [|fuel IH]; intros i results Hf; [lia|].
  cbn [processInBatches_from].
  destruct (Nat.ltb_spec i (length items)) as [Hlt|Hge].
  - unfold slice. replace (i + batchSize - i) with batchSize by lia.
    destruct (allSettled_fulfilled (map processor (firstn batchSize (skipn i items))))
      as (settled & E & F).
    { intros p Hp. apply in_map_iff in Hp. destruct Hp as (x & <- & Hx).
      apply Hs. eapply In_skipn, In_firstn, Hx. }
    rewrite E, F, IH by lia.
    rewrite <- app_assoc, <- successes_app, <- map_app.
    rewrite Nat.add_comm, <- skipn_skipn. now rewrite firstn_skipn.
  - rewrite skipn_all2 by lia. cbn. now rewrite app_nil_r.
Qed.

Lemma processInBatches_never_throws {T R} (processor : T -> Res R) (items : list T)
    (batchSize : nat) (fuel i : nat) (results : list R) (t : Thrown) :
  processInBatches_from fuel items batchSize processor i results <> Throw t.
Proof.
  revert i results. induction fuel as [|fuel IH]; intros i results; [discriminate|].
  cbn [processInBatches_from].
  destruct (i <? length items); [|discriminate].
  destruct (allSettled _); [apply IH|discriminate].
Qed.

(** ** The client: which failures reach [syncData] *)

Section ClientFacts.
Variable addJitter : number -> number.
Variable toLowerCase : jsstring -> jsstring.
Variable DateParse : jsstring -> num.
Variable sortByTime : list (jsstring * jsstring) -> list (jsstring * jsstring).
Variable encodeURIComponent : jsstring -> jsstring.
Variable cutoffDate : nat -> jsstring.
Variable net : Network.

Local Abbreviation getUsers' := (getUsers addJitter net).
Local Abbreviation findUser' := (findUser addJitter toLowerCase net).
Local Abbreviation getSchedules' := (getSchedules addJitter net).
Local Abbreviation getOnCallSchedules' := (getOnCallSchedules addJitter toLowerCase net).
Local Abbreviation candidateIncidents' :=
  (candidateIncidents addJitter encodeURIComponent cutoffDate net).
Local Abbreviation getFullIncidentDetails' :=
  (getFullIncidentDetails addJitter DateParse sortByTime net).
Local Abbreviation syncData' :=
  (syncData addJitter toLowerCase DateParse sortByTime encodeURIComponent cutoffDate net).

Lemma request_ok_or_throw {A} (url : jsstring) (attempts : nat -> Attempt A) :
  (exists v, request addJitter url attempts = Ok v)
  \/ (exists t, request addJitter url attempts = Throw t).
Proof.
  pose proof (request_settles addJitter url attempts) as H.
  destruct (request addJitter url attempts) as [v|t|].
  - left. now exists v.
  - right. now exists t.
  - now contradiction H.
Qed.

(** A request inside [try]/[catch] with a handler that returns a value
    always yields a value. *)
Lemma caught_request {A B} (url : jsstring) (attempts : nat -> Attempt A)
    (k : A -> B) (d : B) :
  exists v,
    try_catch (bind (request addJitter url attempts) (fun r => Ok (k r)))
      (fun _ => Ok d) = Ok v.
Proof.
  destruct (request_ok_or_throw url attempts) as [[v E]|[t E]]; rewrite E; cbn.
  - now exists (k v).
  - now exists d.
Qed.

Lemma getIncidentUpdates_total (incidentId : jsstring) :
  exists v, getIncidentUpdates addJitter net incidentId = Ok v.
Proof. apply (caught_request _ _ orEmpty []). Qed.

Lemma getIncidentFollowUps_total (incidentId : jsstring) :
  exists v, getIncidentFollowUps addJitter net incidentId = Ok v.
Proof.
  apply (caught_request _ _
           (fun r => filter (fun fu => notDeleted (followup_status fu)) (orEmpty r)) []).
Qed.

Lemma getIncidentActions_total (incidentId : jsstring) :
  exists v, getIncidentActions addJitter net incidentId = Ok v.
Proof.
  apply (caught_request _ _
           (fun r => filter (fun a => notDeleted (action_status a)) (orEmpty r)) []).
Qed.

Lemma getIncidentAttachments_total (incidentId : jsstring) :
  exists v, getIncidentAttachments addJitter net incidentId = Ok v.
Proof. apply (caught_request _ _ orEmpty []). Qed.

Lemma getIncidentTimestamps_total (incidentId : jsstring) :
  exists v, getIncidentTimestamps addJitter sortByTime net incidentId = Ok v.
Proof.
  apply (caught_request _ _
           (fun r => sortByTime
                       (map (fun tv => (timestamp_name tv, orEmpty (timestamp_value tv)))
                          (filter (fun tv => present (timestamp_value tv)) (orEmpty r))))
           []).
Qed.

(** [getFullIncidentDetails] always fulfils: the basic record, the five
    fetched collections, and the back-fill of the close time. *)
Lemma getFullIncidentDetails_shape (incident : Incident) (userId : jsstring) :
  exists fetchedUpdates fetchedFollowUps fetchedActions fetchedAttachments fetchedTimestamps,
    getIncidentUpdates addJitter net (id incident) = Ok fetchedUpdates
    /\ getFullIncidentDetails' incident userId
       = Ok (adoptCloseFromTimeline DateParse
               (let b := buildBasicFullIncident DateParse incident userId in
                mkFullIncident (full_id b) (full_reference b) (full_name b)
                  (full_created_at b) (full_closed_at b) (status b)
                  (statusCategory b) (durationMinutes b) (roles b)
                  fetchedTimestamps fetchedUpdates fetchedActions
                  fetchedFollowUps fetchedAttachments)
               fetchedUpdates).
Proof.
  destruct (getIncidentUpdates_total (id incident)) as [u Eu].
  destruct (getIncidentFollowUps_total (id incident)) as [fu Efu].
  destruct (getIncidentActions_total (id incident)) as [ac Eac].
  destruct (getIncidentAttachments_total (id incident)) as [at' Eat].
  destruct (getIncidentTimestamps_total (id incident)) as [ts Ets].
  exists u, fu, ac, at', ts. split; [assumption|].
  unfold getFullIncidentDetails. rewrite Eu, Efu, Eac, Eat, Ets. reflexivity.
Qed.

Lemma getFullIncidentDetails_total (incident : Incident) (userId : jsstring) :
  exists f, getFullIncidentDetails' incident userId = Ok f.
Proof.
  destruct (getFullIncidentDetails_shape incident userId) as (u & fu & ac & at' & ts & _ & E).
  eexists. exact E.
Qed.

Lemma checkSchedule_total (userEmail : jsstring) (schedule : Schedule) :
  exists v, checkSchedule addJitter toLowerCase net userEmail schedule = Ok v.
Proof.
  unfold checkSchedule, getScheduleEntries, requestV2.
  destruct (request_ok_or_throw (API_BASE_V2 ++ js "/schedule_entries?schedule_id="
                                   ++ schedule_id schedule)
              (net_schedule_entries net (schedule_id schedule))) as [[v E]|[t E]];
    rewrite E; cbn; eexists; reflexivity.
Qed.

Lemma allOf_total {A} (ps : list (Res A)) :
  (forall p, In p ps -> exists v, p = Ok v) -> exists vs, allOf ps = Ok vs.
Proof.
  induction ps as [|p ps IH]; intros H; [now exists []|].
  destruct (H p (or_introl eq_refl)) as [v ->].
  destruct IH as [vs E]; [intros q Hq; apply H; now right|].
  cbn [allOf]. rewrite E. cbn. eexists; reflexivity.
Qed.

Lemma getOnCallSchedules_cases (userEmail : jsstring) :
  match getSchedules' with
  | Ok _ => exists onCall, getOnCallSchedules' userEmail = Ok onCall
  | Throw t => getOnCallSchedules' userEmail = Throw t
  | Pending => getOnCallSchedules' userEmail = Pending
  end.
Proof.
  unfold getOnCallSchedules.
  destruct getSchedules' as [ss|t|]; cbn [bind]; try reflexivity.
  destruct (allOf_total (map (checkSchedule addJitter toLowerCase net userEmail) ss))
    as [vs E].
  { intros p Hp. apply in_map_iff in Hp. destruct Hp as (s & <- & _).
    apply checkSchedule_total. }
  rewrite E. cbn. eexists; reflexivity.
Qed.

Lemma findUser_cases (identifier : jsstring) :
  match getUsers' with
  | Ok users => findUser' identifier = Ok (find (userMatches toLowerCase identifier) users)
  | Throw t => findUser' identifier = Throw t
  | Pending => findUser' identifier = Pending
  end.
Proof. unfold findUser. destruct getUsers'; reflexivity. Qed.

Lemma syncData_unfold (fuel : nat) (identifier : jsstring) (historicalOptions : option nat) :
  syncData' fuel identifier historicalOptions
  = match findUser' identifier with
    | Ok None => Throw (noUserError identifier)
    | Ok (Some user) =>
        match all2 (getOnCallSchedules' (user_email user))
                (candidateIncidents' fuel user historicalOptions) with
        | Ok (onCall, incidents) =>
            match processInBatches fuel incidents BATCH_SIZE
                    (fun incident => getFullIncidentDetails' incident (user_id user)) with
            | Ok fullIncidents =>
                Ok (mkSyncResult
                      (if 0 <? length (schedules onCall) then Some onCall else None)
                      (map (fun incident =>
                              mkIncidentResult (reference incident) (name incident)
                                (status_name (incident_status incident))) incidents)
                      fullIncidents)
            | Throw t => Throw t
            | Pending => Pending
            end
        | Throw t => Throw t
        | Pending => Pending
        end
    | Throw t => Throw t
    | Pending => Pending
    end.
Proof.
  unfold syncData, candidateIncidents.
  destruct (findUser' identifier) as [[user|]|t|]; reflexivity.
Qed.

Lemma full_details_in_order (fuel : nat) (incidents : list Incident) (userId : jsstring) :
  length incidents < fuel ->
  processInBatches fuel incidents BATCH_SIZE
    (fun incident => getFullIncidentDetails' incident userId)
  = Ok (successes (map (fun incident => getFullIncidentDetails' incident userId) incidents)).
Proof.
  intros Hf. unfold processInBatches.
  rewrite processInBatches_from_spec.
  - reflexivity.
  - unfold BATCH_SIZE. lia.
  - intros x _. destruct (getFullIncidentDetails_total x userId) as [f ->]. discriminate.
  - lia.
Qed.

Lemma successes_all_ok {A R} (f : A -> Res R) (l : list A) :
  (forall x, exists v, f x = Ok v) -> length (successes (map f l)) = length l.
Proof.
  intros H. induction l as [|x l IH]; [reflexivity|].
  cbn [map successes]. destruct (H x) as [v ->]. cbn. now rewrite IH.
Qed.

(** *** C4 *)

(** C4 (amended): [syncData] throws exactly when the user list cannot be
    fetched, or no user matches the identifier, or, for the matched user,
    the schedule list or the candidate incident list cannot be fetched.
    Failures of the per-schedule entry requests and of the per-incident
    sub-resource requests never make it throw: with the three lists fetched
    and fuel for the batches it returns a result with full details for every
    candidate incident. *)
Theorem syncData_failure_causes (fuel : nat) (identifier : jsstring)
    (historicalOptions : option nat) :
  (isThrow (syncData' fuel identifier historicalOptions) = true <->
     isThrow getUsers' = true
     \/ (exists users, getUsers' = Ok users
                       /\ forall u, In u users -> userMatches toLowerCase identifier u = false)
     \/ (exists users user,
           getUsers' = Ok users
           /\ find (userMatches toLowerCase identifier) users = Some user
           /\ (isThrow getSchedules' = true
               \/ isThrow (candidateIncidents' fuel user historicalOptions) = true)))
  /\ (forall users user scheduleList incidents,
        getUsers' = Ok users ->
        find (userMatches toLowerCase identifier) users = Some user ->
        getSchedules' = Ok scheduleList ->
        candidateIncidents' fuel user historicalOptions = Ok incidents ->
        length incidents < fuel ->
        exists result,
          syncData' fuel identifier historicalOptions = Ok result
          /\ length (fullIncidents result) = length incidents).
Proof.
  split.
  - rewrite syncData_unfold.
    pose proof (findUser_cases identifier) as HF.
    destruct getUsers' as [users|t|] eqn:EU; rewrite HF.
    + destruct (find (userMatches toLowerCase identifier) users) as [user|] eqn:Efind.
      * pose proof (getOnCallSchedules_cases (user_email user)) as HO.
        assert (Hrhs : forall P : Prop,
                   (P <-> isThrow getSchedules' = true
                          \/ isThrow (candidateIncidents' fuel user historicalOptions) = true) ->
                   (P <-> (isThrow (@Ok (list IncidentIOUser) users) = true
                           \/ (exists users0, Ok users = Ok users0
                                 /\ forall u, In u users0 ->
                                      userMatches toLowerCase identifier u = false)
                           \/ (exists users0 user0,
                                 Ok users = Ok users0
                                 /\ find (userMatches toLowerCase identifier) users0 = Some user0
                                 /\ (isThrow getSchedules' = true
                                     \/ isThrow (candidateIncidents' fuel user0
                                                   historicalOptions) = true))))).
        { intros P HP. rewrite HP. split.
          - intros H. right. right. exists users, user. tauto.
          - intros [H|[(users0 & E & Hnone)|(users0 & user0 & E & Ef & H)]].
            + discriminate H.
            + injection E as <-. apply find_some in Efind.
              destruct Efind as [Hin Hm]. rewrite (Hnone user Hin) in Hm. discriminate.
            + injection E as <-. rewrite Efind in Ef. injection Ef as <-. exact H. }
        apply Hrhs.
        destruct getSchedules' as [ss|ts|] eqn:ES.
        -- destruct HO as [onCall ->].
           destruct (candidateIncidents' fuel user historicalOptions) as [incs|tc|];
             cbn [all2 isThrow].
           ++ destruct (processInBatches fuel incs BATCH_SIZE _) as [fi|tp|] eqn:EP;
                cbn [isThrow]; try (split; [discriminate|intros [H|H]; discriminate H]).
              exfalso. exact (processInBatches_never_throws _ _ _ _ _ _ _ EP).
           ++ split; [intros _; now right|reflexivity].
           ++ split; [discriminate|intros [H|H]; discriminate H].
        -- rewrite HO. cbn [all2 isThrow]. split; [intros _; now left|reflexivity].
        -- rewrite HO.
           destruct (candidateIncidents' fuel user historicalOptions) as [incs|tc|];
             cbn [all2 isThrow].
           ++ split; [discriminate|intros [H|H]; discriminate H].
           ++ split; [intros _; now right|reflexivity].
           ++ split; [discriminate|intros [H|H]; discriminate H].
      * cbn [isThrow]. split; [|reflexivity]. intros _. right. left.
        exists users. split; [reflexivity|]. intros u Hu. now apply (find_none _ _ Efind).
    + cbn [isThrow]. split; [intros _; now left|reflexivity].
    + cbn [isThrow]. split; [discriminate|].
      intros [H|[(users0 & E & _)|(users0 & user0 & E & _)]]; discriminate.
  - intros users user scheduleList incidents EU Efind ES EC Hfuel.
    rewrite syncData_unfold.
    pose proof (findUser_cases identifier) as HF. rewrite EU in HF. rewrite HF, Efind.
    pose proof (getOnCallSchedules_cases (user_email user)) as HO. rewrite ES in HO.
    destruct HO as [onCall ->]. rewrite EC. cbn [all2].
    rewrite full_details_in_order by assumption.
    eexists. split; [reflexivity|]. cbn [fullIncidents].
    apply successes_all_ok. intros x. apply getFullIncidentDetails_total.
Qed.
End ClientFacts.

(** C4, as stated, fails: a user matches the identifier, yet [syncData]
    throws, because the request for the schedule list is answered 403. *)
Lemma syncData_fails_with_matching_user :
  findUser (fun ms => ms) (fun s => s) schedulesForbidden (js "james") = Ok (Some james)
  /\ syncData (fun ms => ms) (fun s => s) (fun _ => NaN) (fun l => l) (fun s => s)
       (fun _ => []) schedulesForbidden 10 (js "james") None
     = Throw (ErrorObject (clientError 403 (js "https://api.incident.io/v2/schedules"))).
Proof. split; reflexivity. Qed.

Lemma syncData_failure_causes_witness :
  exists result,
    syncData (fun ms => ms) (fun s => s) (fun _ => NaN) (fun l => l) (fun s => s)
      (fun _ => []) detailsDown 10 (js "james") None = Ok result
    /\ length (fullIncidents result) = 1.
Proof.
  exact (proj2 (syncData_failure_causes (fun ms => ms) (fun s => s) (fun _ => NaN)
                  (fun l => l) (fun s => s) (fun _ => []) detailsDown 10 (js "james") None)
           [james] james [mkSchedule (js "S1") (js "Primary")] [outage]
           eq_refl eq_refl eq_refl eq_refl ltac:(cbn; lia)).
Defined.

Example isoInstant_epoch :
  isoInstant (js "1970-01-01T00:00:00Z") = Num 0
  /\ isoInstant (js "2024-01-15T00:00:00Z") = Num 1705276800000
  /\ isoInstant (js "2024-02-29T23:59:59Z") = Num 1709251199000
  /\ isoInstant (js "yesterday") = NaN.
Proof. repeat split. Qed.

(** ** C9: duration and close time *)

(** C9, as stated, fails: [closed_at] is present on the raw incident, so a
    close time is known, but [created_at] is the empty string and no duration
    is computed. *)
Lemma duration_missing_with_close_time :
  exists f,
    getFullIncidentDetails (fun ms => ms) isoInstant (fun l => l) quietNetwork
      closedWithoutCreation (js "U1") = Ok f
    /\ present (closed_at closedWithoutCreation) = true
    /\ full_closed_at f = Some (js "2024-01-02T00:00:00Z")
    /\ durationMinutes f = None.
Proof. eexists. repeat split. Qed.

(** C9 (amended): [getFullIncidentDetails] always yields a record, and in it
    [durationMinutes] is defined if and only if either the raw incident has a
    (non-empty) [closed_at] and a non-empty [created_at], or it has no
    [closed_at], its status category is "closed" and some fetched update has
    the new-status category "closed"; in the second case the first such update
    gives [closed_at] and the duration is computed from its time.  A
    [closed_at] of the raw incident is kept as it is. *)
Theorem duration_iff_close_known (addJitter : number -> number) (DateParse : jsstring -> num)
    (sortByTime : list (jsstring * jsstring) -> list (jsstring * jsstring))
    (net : Network) (incident : Incident) (userId : jsstring) :
  exists f,
    getFullIncidentDetails addJitter DateParse sortByTime net incident userId = Ok f
    /\ getIncidentUpdates addJitter net (id incident) = Ok (updates f)
    /\ (durationMinutes f <> None <->
        (present (closed_at incident) = true /\ truthy (created_at incident) = true)
        \/ (present (closed_at incident) = false
            /\ category (incident_status incident) = closed
            /\ exists u, In u (updates f) /\ isClosedUpdate u = true))
    /\ (present (closed_at incident) = false ->
        category (incident_status incident) = closed ->
        forall u, find isClosedUpdate (updates f) = Some u ->
        full_closed_at f = Some (update_created_at u)
        /\ durationMinutes f
           = Some (minutesBetween DateParse (created_at incident) (update_created_at u)))
    /\ (present (closed_at incident) = true -> full_closed_at f = closed_at incident).
Proof.
  destruct (getFullIncidentDetails_shape addJitter DateParse sortByTime net incident userId)
    as (U & FU & AC & AT & TS & EU & E).
  eexists. split; [exact E|].
  unfold adoptCloseFromTimeline, buildBasicFullIncident.
  cbn [full_id full_reference full_name full_created_at full_closed_at status
       statusCategory durationMinutes roles timestamps updates actions followUps
       attachments].
  destruct incident as [iid iref iname created [c|] [sname cat] assignments];
    cbn [id closed_at created_at incident_status category present] in *.
  - destruct (truthy c) eqn:Ec; cbn [negb andb].
    + cbn [updates full_closed_at durationMinutes].
      split; [exact EU|]. split; [|split; [discriminate|reflexivity]].
      destruct (truthy created); split.
      * intros _. now left.
      * discriminate.
      * intros H. now contradiction H.
      * intros [[_ H]|[H _]]; discriminate H.
    + destruct (category_eqb cat closed) eqn:Ecat.
      * destruct (find isClosedUpdate U) as [u|] eqn:Ef;
          cbn [updates full_closed_at durationMinutes].
        -- split; [exact EU|]. split; [|split; [|discriminate]].
           ++ split; [|discriminate]. intros _. right.
              split; [reflexivity|]. split; [now destruct cat|].
              exists u. now apply find_some in Ef.
           ++ intros _ _ u' Hu'. rewrite Ef in Hu'. injection Hu' as <-. now split.
        -- split; [exact EU|].
           split; [|split; [intros _ _ u0 Hu0; rewrite Ef in Hu0; discriminate Hu0|discriminate]].
           split; [intros H; now contradiction H|].
           intros [[H _]|(_ & _ & u & Hin & Hu)]; [discriminate H|].
           rewrite (find_none _ _ Ef u Hin) in Hu. discriminate.
      * cbn [updates full_closed_at durationMinutes].
        split; [exact EU|]. split; [|split; [|discriminate]].
        -- split; [intros H; now contradiction H|].
           intros [[H _]|(_ & Hc & _)]; [discriminate H|].
           subst cat. discriminate Ecat.
        -- intros _ Hc. subst cat. discriminate Ecat.
  - cbn [negb andb].
    destruct (category_eqb cat closed) eqn:Ecat.
    + destruct (find isClosedUpdate U) as [u|] eqn:Ef;
        cbn [updates full_closed_at durationMinutes].
      * split; [exact EU|]. split; [|split; [|discriminate]].
        -- split; [|discriminate]. intros _. right.
           split; [reflexivity|]. split; [now destruct cat|].
           exists u. now apply find_some in Ef.
        -- intros _ _ u' Hu'. rewrite Ef in Hu'. injection Hu' as <-. now split.
      * split; [exact EU|].
           split; [|split; [intros _ _ u0 Hu0; rewrite Ef in Hu0; discriminate Hu0|discriminate]].
        split; [intros H; now contradiction H|].
        intros [[H _]|(_ & _ & u & Hin & Hu)]; [discriminate H|].
        rewrite (find_none _ _ Ef u Hin) in Hu. discriminate.
    + cbn [updates full_closed_at durationMinutes].
      split; [exact EU|]. split; [|split; [|discriminate]].
      * split; [intros H; now contradiction H|].
        intros [[H _]|(_ & Hc & _)]; [discriminate H|].
        subst cat. discriminate Ecat.
      * intros _ Hc. subst cat. discriminate Ecat.
Qed.

Lemma duration_iff_close_known_witness :
  exists f,
    getFullIncidentDetails (fun ms => ms) isoInstant (fun l => l) timelineCloses
      closedNoTime (js "U1") = Ok f
    /\ full_closed_at f = Some (js "2024-01-14T11:30:29Z")
    /\ durationMinutes f = Some (Num 90).
Proof.
  destruct (duration_iff_close_known (fun ms => ms) isoInstant (fun l => l) timelineCloses
              closedNoTime (js "U1")) as (f & E & EU & _ & Hfill & _).
  exists f. split; [exact E|].
  injection EU as EU.
  apply (Hfill eq_refl eq_refl (mkUpdate (js "2024-01-14T11:30:29Z") (Some (js "closed")))).
  rewrite <- EU. reflexivity.
Defined.

(** ** C10: the results of the batches *)

Lemma allSettled_values {R} (ps : list (Res R)) (settled : list (Settled R)) :
  allSettled ps = Some settled -> fulfilledValues settled = successes ps.
Proof.
  revert settled; induction ps as [|p ps IH]; intros settled H.
  - injection H as <-. reflexivity.
  - cbn [allSettled] in H.
    destruct p as [v|t|]; destruct (allSettled ps) as [rest|]; try discriminate H;
      injection H as <-; cbn [fulfilledValues successes]; now rewrite (IH rest eq_refl).
Qed.

(** Whatever the batch size and the fuel: if the loop returns, it returns the
    collected results followed by the successes of the remaining items. *)
Lemma processInBatches_from_returns {T R} (processor : T -> Res R) (items : list T)
    (batchSize : nat) :
  forall (fuel i : nat) (results out : list R),
  processInBatches_from fuel items batchSize processor i results = Ok out ->
  out = results ++ successes (map processor (skipn i items)).
Proof.
  induction fuel as [|fuel IH]; intros i results out H; [discriminate H|].
  cbn [processInBatches_from] in H.
  destruct (Nat.ltb_spec i (length items)) as [Hlt|Hge].
  - unfold slice in H. replace (i + batchSize - i) with batchSize in H by lia.
    destruct (allSettled (map processor (firstn batchSize (skipn i items))))
      as [settled|] eqn:E; [|discriminate H].
    apply IH in H. rewrite H, (allSettled_values _ _ E).
    rewrite <- app_assoc, <- successes_app, <- map_app.
    rewrite Nat.add_comm, <- skipn_skipn. now rewrite firstn_skipn.
  - injection H as <-. rewrite skipn_all2 by lia. cbn. now rewrite app_nil_r.
Qed.



(** One rejected item in the first batch and one in the second: both are left
    out, their neighbours stay. *)
Example batches_partial_failure :
  processInBatches 8 [1; 2; 3; 4; 5; 6; 7] 5
    (fun n => if (n =? 2) || (n =? 6) then Throw OtherValue else Ok n)
  = Ok [1; 3; 4; 5; 7].
Proof. reflexivity. Qed.

(** ** C8: the date window *)

Section DateWindowFacts.
Variable DateParse : jsstring -> num.
Variable LocalTime : Z -> Z.
Variable UTC : Z -> Z.

Local Abbreviation dateStart' := (dateStart LocalTime UTC).
Local Abbreviation dateEnd' := (dateEnd LocalTime UTC).
Local Abbreviation activeOn' := (activeOn DateParse LocalTime UTC).




End DateWindowFacts.


(** The dates of the test suite, on a host in UTC. *)
Example date_window_examples :
  let utc (t : Z) := t in
  let spans := incidentBetween (js "2024-01-14T10:00:00Z") (Some (js "2024-01-16T10:00:00Z")) in
  let day (s : jsstring) := isoInstant s in
  filterIncidentsForDate isoInstant utc utc [spans] (day (js "2024-01-13T00:00:00Z")) = []
  /\ filterIncidentsForDate isoInstant utc utc [spans] (day (js "2024-01-14T00:00:00Z")) = [spans]
  /\ filterIncidentsForDate isoInstant utc utc [spans] (day (js "2024-01-15T00:00:00Z")) = [spans]
  /\ filterIncidentsForDate isoInstant utc utc [spans] (day (js "2024-01-16T00:00:00Z")) = [spans]
  /\ filterIncidentsForDate isoInstant utc utc [spans] (day (js "2024-01-17T00:00:00Z")) = []
  /\ filterIncidentsForDate isoInstant utc utc
       [incidentBetween (js "2024-01-10T10:00:00Z") (Some (js "2024-01-15T00:00:00Z"))]
       (day (js "2024-01-15T00:00:00Z"))
     = [incidentBetween (js "2024-01-10T10:00:00Z") (Some (js "2024-01-15T00:00:00Z"))]
  /\ filterIncidentsForDate isoInstant utc utc
       [incidentBetween (js "2024-01-15T23:59:59Z") (Some (js "2024-01-16T10:00:00Z"))]
       (day (js "2024-01-15T00:00:00Z"))
     = [incidentBetween (js "2024-01-15T23:59:59Z") (Some (js "2024-01-16T10:00:00Z"))].
Proof. repeat split. Qed.

(* ================================================================== *)
(** * Part III: further properties of the client                      *)
(* ================================================================== *)

(** ** The backoff schedule *)

Lemma backoffBase_none (a : nat) :
  backoffBase a None = Z.min (500 * 2 ^ Z.of_nat a) 30000.
Proof. reflexivity. Qed.

(** X1: without a hint the backoff is a finite number of milliseconds that
    starts at 500 ms, never exceeds 30000 ms, never decreases from one
    attempt to the next, and doubles as long as the attempt number is below
    5. *)
Theorem backoff_base_bounds (a b : nat) :
  exists ms ms' : Z,
    backoffBase a None = Finite ms
    /\ backoffBase b None = Finite ms'
    /\ (500 <= ms <= 30000)%Z
    /\ (a <= b -> (ms <= ms')%Z)
    /\ (a < 5 -> backoffBase (S a) None = Finite (2 * ms)).
Proof.
  exists (Z.min (500 * 2 ^ Z.of_nat a) 30000), (Z.min (500 * 2 ^ Z.of_nat b) 30000).
  rewrite !backoffBase_none.
  assert (Hpos : (1 <= 2 ^ Z.of_nat a)%Z) by (apply Z.pow_le_mono_r with (b := 0%Z); lia).
  split; [reflexivity|]. split; [reflexivity|]. split; [lia|]. split.
  - intros Hab.
    assert (H : (2 ^ Z.of_nat a <= 2 ^ Z.of_nat b)%Z) by (apply Z.pow_le_mono_r; lia).
    lia.
  - intros Ha. f_equal. rewrite Nat2Z.inj_succ, Z.pow_succ_r by lia.
    assert (H : (2 ^ Z.of_nat (S a) <= 2 ^ 5)%Z) by (apply Z.pow_le_mono_r; lia).
    rewrite Nat2Z.inj_succ, Z.pow_succ_r in H by lia.
    change (2 ^ 5)%Z with 32%Z in H. lia.
Qed.

Lemma backoff_base_bounds_witness :
  exists ms ms' : Z,
    backoffBase 2 None = Finite ms
    /\ backoffBase 9 None = Finite ms'
    /\ (ms <= ms')%Z
    /\ backoffBase 3 None = Finite (2 * ms).
Proof.
  destruct (backoff_base_bounds 2 9) as (ms & ms' & E & E' & _ & Hle & Hdouble).
  exists ms, ms'. split; [exact E|]. split; [exact E'|].
  split; [apply Hle; lia|apply Hdouble; lia].
Defined.

(** ** What a request returns and how long it sleeps *)

Section RequestMore.
Variable addJitter : number -> number.
Context {T : Type}.
Variable url : jsstring.
Variable attempts : nat -> Attempt T.

Let loop := request_loop addJitter url attempts.

Lemma loop_ok_source (remaining : nat) :
  forall (attempt : nat) (lastError : option Error) (v : T),
  outcome (loop remaining attempt lastError) = Ok v ->
  exists k status retryAfter,
    k < remaining
    /\ attempts (attempt + k) = Response status retryAfter v
    /\ (200 <= status < 300)%Z
    /\ (forall j, j < k -> retried (attempts (attempt + j)))
    /\ calls (loop remaining attempt lastError) = S k.
Proof.
  induction remaining as [|remaining IH]; intros attempt lastError v H;
    [discriminate H|].
  unfold loop in *. rewrite loop_S in *.
  assert (Hnext : forall last d,
             outcome (afterDelay d (request_loop addJitter url attempts remaining
                                      (S attempt) last)) = Ok v ->
             retried (attempts attempt) ->
             exists k status retryAfter,
               k < S remaining
               /\ attempts (attempt + k) = Response status retryAfter v
               /\ (200 <= status < 300)%Z
               /\ (forall j, j < k -> retried (attempts (attempt + j)))
               /\ calls (afterDelay d (request_loop addJitter url attempts remaining
                                         (S attempt) last)) = S k).
  { intros last d Hout Hr. cbn [outcome afterDelay] in Hout.
    destruct (IH (S attempt) last v Hout) as (k & st & ra & Hk & Hat & Hst & Hpre & Hc).
    exists (S k), st, ra. split; [lia|]. split.
    - now replace (attempt + S k) with (S attempt + k) by lia.
    - split; [assumption|]. split.
      + intros j Hj. destruct j as [|j].
        * now rewrite Nat.add_0_r.
        * replace (attempt + S j) with (S attempt + j) by lia. apply Hpre. lia.
      + cbn [calls afterDelay]. now rewrite Hc. }
  destruct (attempts attempt) as [status retryAfter json|[e|]] eqn:Eat.
  - destruct (Z.leb 200 status && Z.ltb status 300) eqn:E2.
    + cbn [outcome] in H. injection H as <-.
      apply andb_true_iff in E2. destruct E2 as [Hl Hu].
      apply Z.leb_le in Hl. apply Z.ltb_lt in Hu.
      exists 0, status, retryAfter. rewrite Nat.add_0_r.
      repeat split; try assumption; try lia.
    + destruct (Z.eqb_spec status 429) as [->|Hne].
      * apply (Hnext _ _ H). constructor.
      * destruct (Z.leb_spec 500 status) as [Hge|Hlt].
        -- apply (Hnext _ _ H). now constructor.
        -- rewrite clientError_marked in H. discriminate H.
  - destruct (includes (message e) API_REQUEST_FAILED) eqn:Em.
    + discriminate H.
    + apply (Hnext _ _ H). now constructor.
  - discriminate H.
Qed.

Lemma loop_delays (remaining : nat) :
  forall (attempt : nat) (lastError : option Error),
  delays (loop remaining attempt lastError)
  = map (fun j => calculateBackoff addJitter j (hintOf (attempts j)))
      (seq attempt (length (delays (loop remaining attempt lastError))))
  /\ length (delays (loop remaining attempt lastError))
     <= calls (loop remaining attempt lastError)
     <= S (length (delays (loop remaining attempt lastError)))
  /\ (calls (loop remaining attempt lastError)
      = length (delays (loop remaining attempt lastError)) ->
      calls (loop remaining attempt lastError) = remaining).
Proof.
  induction remaining as [|remaining IH]; intros attempt lastError.
  - cbn. repeat split; lia.
  - unfold loop in *. rewrite loop_S.
    assert (Hnext : forall last hint,
               hintOf (attempts attempt) = hint ->
               let r := afterDelay (calculateBackoff addJitter attempt hint)
                          (request_loop addJitter url attempts remaining (S attempt) last) in
               delays r
               = map (fun j => calculateBackoff addJitter j (hintOf (attempts j)))
                   (seq attempt (length (delays r)))
               /\ length (delays r) <= calls r <= S (length (delays r))
               /\ (calls r = length (delays r) -> calls r = S remaining)).
    { intros last hint Hh. cbn [afterDelay delays calls length seq map].
      destruct (IH (S attempt) last) as (Hd & Hc & He).
      rewrite Hh. split; [now rewrite <- Hd|]. split; [lia|].
      intros Heq. injection Heq as Heq. now rewrite (He Heq). }
    destruct (attempts attempt) as [status retryAfter json|[e|]] eqn:Eat.
    + destruct (Z.leb 200 status && Z.ltb status 300) eqn:E2.
      * cbn. repeat split; lia.
      * destruct (Z.eqb_spec status 429) as [->|Hne].
        -- apply Hnext. reflexivity.
        -- destruct (Z.leb 500 status).
           ++ apply Hnext. cbn [hintOf].
              now replace (Z.eqb status 429) with false by (symmetry; now apply Z.eqb_neq).
           ++ rewrite clientError_marked. cbn. repeat split; lia.
    + destruct (includes (message e) API_REQUEST_FAILED).
      * cbn. repeat split; lia.
      * apply Hnext. reflexivity.
    + cbn. repeat split; lia.
Qed.
End RequestMore.

(** X2: [request] fulfils only with the body of a 2xx response: when it
    returns [json], some attempt k < 5 met a response with a status in
    200..299 and that body, every attempt before it was retried, and the
    server was called k + 1 times. *)
Theorem request_returns_only_2xx_body (addJitter : number -> number) {T : Type} (url : jsstring)
    (attempts : nat -> Attempt T) (json : T) :
  request addJitter url attempts = Ok json ->
  exists k status retryAfter,
    k < MAX_RETRIES
    /\ attempts k = Response status retryAfter json
    /\ (200 <= status < 300)%Z
    /\ (forall j, j < k -> retried (attempts j))
    /\ calls (request_run addJitter url attempts) = S k.
Proof.
  intros H. exact (loop_ok_source addJitter url attempts MAX_RETRIES 0 None json H).
Qed.

Lemma request_returns_only_2xx_body_witness :
  exists k status retryAfter,
    k < MAX_RETRIES
    /\ (fun n => if n <? 2 then Response 503 None 0 else Response 201 None n) k
       = Response status retryAfter 2
    /\ (200 <= status < 300)%Z.
Proof.
  destruct (request_returns_only_2xx_body (fun ms => ms) usersUrl
              (fun n => if n <? 2 then Response 503 None 0 else Response 201 None n)
              2 eq_refl) as (k & status & retryAfter & Hk & Hat & Hst & _).
  now exists k, status, retryAfter.
Defined.

(** X3: the pauses of a request are exactly the backoffs of its first
    attempts, in order, each computed from the attempt number and from the
    retry-after header of a 429; the request sleeps once after every call but
    a last one that ends it, and it has slept after its last call only when
    all five attempts were used up. *)
Theorem request_sleeps_between_calls (addJitter : number -> number) {T : Type} (url : jsstring)
    (attempts : nat -> Attempt T) :
  delays (request_run addJitter url attempts)
  = retryDelays addJitter attempts (length (delays (request_run addJitter url attempts)))
  /\ length (delays (request_run addJitter url attempts))
     <= calls (request_run addJitter url attempts)
     <= S (length (delays (request_run addJitter url attempts)))
  /\ (calls (request_run addJitter url attempts)
      = length (delays (request_run addJitter url attempts)) ->
      calls (request_run addJitter url attempts) = MAX_RETRIES).
Proof. exact (loop_delays addJitter url attempts MAX_RETRIES 0 None). Qed.

Lemma request_sleeps_between_calls_witness :
  calls (request_run (fun ms => ms) usersUrl (fun _ => @Response unit 500 None tt))
  = MAX_RETRIES.
Proof.
  apply (proj2 (proj2 (request_sleeps_between_calls (fun ms => ms) usersUrl
                         (fun _ => @Response unit 500 None tt)))).
  reflexivity.
Defined.

Lemma retryDelays_no_hint (addJitter : number -> number) {T : Type} (attempts : nat -> Attempt T)
    (n : nat) :
  n <= 5 ->
  (forall j, j < 5 -> hintOf (attempts j) = None) ->
  retryDelays addJitter attempts n
  = firstn n (map (fun ms : Z => addJitter ms) [500; 1000; 2000; 4000; 8000]%Z).
Proof.
  intros Hn Hh. unfold retryDelays.
  assert (H0 := Hh 0). assert (H1 := Hh 1). assert (H2 := Hh 2).
  assert (H3 := Hh 3). assert (H4 := Hh 4).
  do 5 (destruct n as [|n]; [cbn [seq map firstn];
        rewrite ?H0, ?H1, ?H2, ?H3, ?H4 by lia; reflexivity|]).
  destruct n as [|n]; [|lia].
  cbn [seq map firstn]. rewrite H0, H1, H2, H3, H4 by lia. reflexivity.
Qed.

(** X4: when no 429 response carries a retry-after header, the pauses of a
    request are an initial part of the jittered schedule 500, 1000, 2000,
    4000, 8000 ms; without jitter they are finite and a request therefore
    sleeps at most 15500 ms in total. *)
Theorem request_delay_budget (addJitter : number -> number) {T : Type} (url : jsstring)
    (attempts : nat -> Attempt T) :
  (forall j, j < 5 -> hintOf (attempts j) = None) ->
  delays (request_run addJitter url attempts)
  = firstn (length (delays (request_run addJitter url attempts)))
      (map (fun ms : Z => addJitter ms) [500; 1000; 2000; 4000; 8000]%Z)
  /\ (exists pauses : list Z,
        delays (request_run (fun ms => ms) url attempts) = map Finite pauses
        /\ (fold_right Z.add 0 pauses <= 15500)%Z).
Proof.
  intros Hh.
  assert (Hgen : forall jitter,
             delays (request_run jitter url attempts)
             = firstn (length (delays (request_run jitter url attempts)))
                 (map (fun ms : Z => jitter ms) [500; 1000; 2000; 4000; 8000]%Z)).
  { intros jitter.
    destruct (loop_delays jitter url attempts MAX_RETRIES 0 None) as (Hd & Hc & _).
    pose proof (request_run_calls_le jitter url attempts) as Hle.
    assert (H5 : MAX_RETRIES = 5) by reflexivity.
    unfold request_run in *. rewrite Hd at 1.
    apply (retryDelays_no_hint jitter attempts); [|assumption].
    lia. }
  split; [apply Hgen|].
  exists (firstn (length (delays (request_run (fun ms : number => ms) url attempts)))
            [500; 1000; 2000; 4000; 8000]%Z).
  split.
  - rewrite (Hgen (fun ms => ms)) at 1. now rewrite <- firstn_map.
  - generalize (length (delays (request_run (fun ms : number => ms) url attempts))) as n.
    intros n. do 6 (destruct n as [|n]; [cbn; lia|]). cbn. lia.
Qed.

Lemma request_delay_budget_witness :
  delays (request_run (fun ms => ms) usersUrl
            (fun n => if n <? 3 then @Response unit 502 None tt else Response 200 None tt))
  = map Finite [500; 1000; 2000]%Z.
Proof.
  refine (eq_trans
    (proj1 (request_delay_budget (fun ms => ms) usersUrl
              (fun n => if n <? 3 then @Response unit 502 None tt else Response 200 None tt)
              _)) _).
  - intros j _. destruct (j <? 3); reflexivity.
  - reflexivity.
Defined.

(** ** Strings: [includes] and equality *)

Lemma includes_nil (s : jsstring) : includes s [] = true.
Proof. destruct s; reflexivity. Qed.

Lemma jsstring_eqb_eq (a b : jsstring) : jsstring_eqb a b = true <-> a = b.
Proof.
  revert b; induction a as [|x a IH]; intros [|y b]; cbn [jsstring_eqb];
    try (split; [discriminate|discriminate]); [split; reflexivity|].
  rewrite andb_true_iff, N.eqb_eq, IH. split.
  - intros [-> ->]. reflexivity.
  - intros H. injection H as -> ->. now split.
Qed.

Lemma starts_with_iff (n s : jsstring) :
  starts_with n s = true <-> exists q, s = n ++ q.
Proof.
  revert s; induction n as [|x n IH]; intros s; cbn [starts_with].
  - split; [intros _; now exists s|reflexivity].
  - destruct s as [|y s].
    + split; [discriminate|]. intros [q H]. discriminate H.
    + rewrite andb_true_iff, N.eqb_eq, IH. split.
      * intros [-> [q ->]]. now exists q.
      * intros [q H]. injection H as -> ->. split; [reflexivity|now exists q].
Qed.

Lemma includes_iff (h n : jsstring) :
  includes h n = true <-> exists p q, h = p ++ n ++ q.
Proof.
  induction h as [|x h IH]; cbn [includes].
  - rewrite orb_false_r, starts_with_iff. split.
    + intros [q H]. now exists [], q.
    + intros (p & q & H). destruct p as [|y p]; [now exists q|discriminate H].
  - rewrite orb_true_iff, starts_with_iff, IH. split.
    + intros [[q H]|(p & q & H)].
      * now exists [], q.
      * exists (x :: p), q. cbn. now rewrite H.
    + intros (p & q & H). destruct p as [|y p].
      * left. now exists q.
      * right. injection H as -> H. now exists p, q.
Qed.

Lemma includes_suffix_of_needle (h a b : jsstring) :
  includes h (a ++ b) = true -> includes h b = true.
Proof.
  rewrite !includes_iff. intros (p & q & H).
  exists (p ++ a), q. now rewrite H, <- !app_assoc.
Qed.

Lemma find_first {A} (f : A -> bool) (l : list A) (x : A) :
  find f l = Some x <->
  exists pre post, l = pre ++ x :: post /\ f x = true
                   /\ forall y, In y pre -> f y = false.
Proof.
  induction l as [|a l IH]; cbn [find].
  - split; [discriminate|]. intros (pre & post & H & _). destruct pre; discriminate H.
  - destruct (f a) eqn:Ea.
    + split.
      * intros H. injection H as <-. exists [], l. repeat split; [assumption|intros y []].
      * intros (pre & post & H & Hx & Hpre). destruct pre as [|b pre].
        -- injection H as -> _. reflexivity.
        -- injection H as -> _. rewrite (Hpre b (or_introl eq_refl)) in Ea. discriminate.
    + rewrite IH. split.
      * intros (pre & post & -> & Hx & Hpre). exists (a :: pre), post.
        repeat split; [assumption|]. intros y [<-|Hy]; [assumption|now apply Hpre].
      * intros (pre & post & H & Hx & Hpre). destruct pre as [|b pre].
        -- injection H as -> _. congruence.
        -- injection H as -> ->. exists pre, post. repeat split; [assumption|].
           intros y Hy. apply Hpre. now right.
Qed.

(** ** The connection test, the user lookup and the on-call lookup *)

Section ClientMoreFacts.
Variable addJitter : number -> number.
Variable toLowerCase : jsstring -> jsstring.
Variable DateParse : jsstring -> num.
Variable sortByTime : list (jsstring * jsstring) -> list (jsstring * jsstring).
Variable encodeURIComponent : jsstring -> jsstring.
Variable cutoffDate : nat -> jsstring.
Variable net : Network.

(** X5: [testConnection] never rejects.  It reports success exactly when
    [getUsers] yields a non-empty list, and then it returns the first user of
    that list; otherwise it reports the message of the error that [request]
    threw, or that no users were found. *)
Theorem testConnection_never_rejects :
  exists r,
    testConnection addJitter net = Ok r
    /\ (test_success r = true <->
        exists first rest, getUsers addJitter net = Ok (first :: rest))
    /\ (forall first rest, getUsers addJitter net = Ok (first :: rest) ->
        r = mkConnectionTest true None (Some first))
    /\ (forall t, getUsers addJitter net = Throw t ->
        r = mkConnectionTest false (Some (errorMessageOf t)) None)
    /\ (getUsers addJitter net = Ok [] ->
        r = mkConnectionTest false (Some (js "No users found in response")) None).
Proof.
  unfold testConnection, getUsers, requestV2.
  destruct (request_ok_or_throw addJitter (API_BASE_V2 ++ js "/users") (net_users net))
    as [[response E]|[t E]]; rewrite E; cbn [bind try_catch].
  - destruct response as [[|first rest]|]; cbn [orEmpty]; eexists;
      (split; [reflexivity|]); cbn [test_success].
    + split; [|split; [discriminate|split; [discriminate|reflexivity]]].
      split; [discriminate|]. intros (f & r & H). discriminate H.
    + split; [|split; [|split; [discriminate|discriminate]]].
      * split; [|reflexivity]. intros _. now exists first, rest.
      * intros f r H. injection H as <- _. reflexivity.
    + split; [|split; [discriminate|split; [discriminate|reflexivity]]].
      split; [discriminate|]. intros (f & r & H). discriminate H.
  - eexists. split; [reflexivity|]. cbn [test_success].
    split; [|split; [discriminate|split; [|discriminate]]].
    + split; [discriminate|]. intros (f & r & H). discriminate H.
    + intros t' H. injection H as <-. reflexivity.
Qed.

(** X6: when the user list is fetched, [findUser] returns the first user in
    list order whose e-mail address or name contains the identifier in lower
    case (every user before it fails the test), and none exactly when no user
    passes the test. *)
Theorem findUser_first_in_list_order (identifier : jsstring) (users : list IncidentIOUser) :
  getUsers addJitter net = Ok users ->
  (forall u, findUser addJitter toLowerCase net identifier = Ok (Some u) <->
     exists before after,
       users = before ++ u :: after
       /\ userMatches toLowerCase identifier u = true
       /\ forall v, In v before -> userMatches toLowerCase identifier v = false)
  /\ (findUser addJitter toLowerCase net identifier = Ok None <->
      forall v, In v users -> userMatches toLowerCase identifier v = false).
Proof.
  intros EU. pose proof (findUser_cases addJitter toLowerCase net identifier) as HF.
  rewrite EU in HF. rewrite HF. split.
  - intros u. rewrite <- find_first. split; [intros H; now injection H|now intros ->].
  - split.
    + intros H. injection H as H. intros v Hv. now apply (find_none _ _ H).
    + intros H. f_equal.
      destruct (find (userMatches toLowerCase identifier) users) as [u|] eqn:E;
        [|reflexivity].
      apply find_some in E. destruct E as [Hin Hm]. rewrite (H u Hin) in Hm. discriminate.
Qed.

(** X7: an empty identifier matches every user, so [findUser] then returns
    the first user of the list, whoever that is. *)
Theorem findUser_empty_identifier (first : IncidentIOUser) (rest : list IncidentIOUser) :
  toLowerCase [] = [] ->
  getUsers addJitter net = Ok (first :: rest) ->
  findUser addJitter toLowerCase net [] = Ok (Some first).
Proof.
  intros Hlow EU. pose proof (findUser_cases addJitter toLowerCase net []) as HF.
  rewrite EU in HF. rewrite HF. cbn [find]. unfold userMatches.
  now rewrite Hlow, includes_nil.
Qed.

Lemma checkSchedule_value (userEmail : jsstring) (schedule : Schedule) :
  checkSchedule addJitter toLowerCase net userEmail schedule
  = Ok (if onCallFor addJitter toLowerCase net userEmail schedule
        then Some (schedule_name schedule) else None).
Proof.
  unfold checkSchedule, onCallFor, getScheduleEntries, requestV2.
  destruct (request_ok_or_throw addJitter
              (API_BASE_V2 ++ js "/schedule_entries?schedule_id=" ++ schedule_id schedule)
              (net_schedule_entries net (schedule_id schedule))) as [[v E]|[t E]];
    rewrite E; reflexivity.
Qed.

Lemma allOf_map_ok {A B} (f : A -> B) (g : A -> Res B) (l : list A) :
  (forall x, In x l -> g x = Ok (f x)) -> allOf (map g l) = Ok (map f l).
Proof.
  induction l as [|x l IH]; intros H; [reflexivity|].
  cbn [map allOf]. rewrite (H x (or_introl eq_refl)), IH; [reflexivity|].
  intros y Hy. apply H. now right.
Qed.

Lemma somes_filter {A B} (b : A -> bool) (n : A -> B) (l : list A) :
  somes (map (fun x => if b x then Some (n x) else None) l) = map n (filter b l).
Proof.
  induction l as [|x l IH]; [reflexivity|].
  cbn [map somes filter]. destruct (b x); cbn [map]; now rewrite IH.
Qed.

(** X8: when the schedule list is fetched, [getOnCallSchedules] returns, in
    the order of that list, the names of exactly the schedules whose entries
    could be fetched and contain the user's e-mail address in any letter
    case; a schedule whose entries request fails counts as not on call.  When
    the schedule list itself cannot be fetched, the lookup rejects. *)
Theorem getOnCallSchedules_lists_covered_schedules (userEmail : jsstring) :
  (forall scheduleList,
     getSchedules addJitter net = Ok scheduleList ->
     getOnCallSchedules addJitter toLowerCase net userEmail
     = Ok (mkOnCall (map schedule_name
                       (filter (onCallFor addJitter toLowerCase net userEmail)
                          scheduleList))))
  /\ (forall t,
        getSchedules addJitter net = Throw t ->
        getOnCallSchedules addJitter toLowerCase net userEmail = Throw t).
Proof.
  split.
  - intros scheduleList ES. unfold getOnCallSchedules. rewrite ES. cbn [bind].
    rewrite (allOf_map_ok
               (fun s => if onCallFor addJitter toLowerCase net userEmail s
                         then Some (schedule_name s) else None)).
    + cbn [bind]. now rewrite somes_filter.
    + intros s _. apply checkSchedule_value.
  - intros t ES. unfold getOnCallSchedules. now rewrite ES.
Qed.
End ClientMoreFacts.

Lemma testConnection_never_rejects_witness :
  testConnection (fun ms => ms) schedulesForbidden
  = Ok (mkConnectionTest true None (Some james)).
Proof.
  destruct (testConnection_never_rejects (fun ms => ms) schedulesForbidden)
    as (r & E & _ & Hfirst & _).
  rewrite E. f_equal. exact (Hfirst james [] eq_refl).
Defined.

Lemma findUser_empty_identifier_witness :
  findUser (fun ms => ms) (fun s => s) detailsDown [] = Ok (Some james).
Proof.
  exact (findUser_empty_identifier (fun ms => ms) (fun s => s) detailsDown james []
           eq_refl eq_refl).
Defined.

Lemma findUser_first_in_list_order_witness :
  findUser (fun ms => ms) (fun s => s) detailsDown (js "nobody") = Ok None.
Proof.
  apply (proj2 (findUser_first_in_list_order (fun ms => ms) (fun s => s) detailsDown
                  (js "nobody") [james] eq_refl)).
  intros v [<-|[]]. reflexivity.
Defined.

Lemma getOnCallSchedules_lists_covered_schedules_witness :
  getOnCallSchedules (fun ms => ms) (fun s => s) detailsDown (js "james@example.com")
  = Ok (mkOnCall []).
Proof.
  exact (proj1 (getOnCallSchedules_lists_covered_schedules (fun ms => ms) (fun s => s)
                  detailsDown (js "james@example.com"))
           [mkSchedule (js "S1") (js "Primary")] eq_refl).
Defined.

(** ** Full incidents *)

Section FullIncidentFacts.
Variable addJitter : number -> number.
Variable toLowerCase : jsstring -> jsstring.
Variable DateParse : jsstring -> num.
Variable sortByTime : list (jsstring * jsstring) -> list (jsstring * jsstring).
Variable encodeURIComponent : jsstring -> jsstring.
Variable cutoffDate : nat -> jsstring.
Variable net : Network.

Local Abbreviation getFull := (getFullIncidentDetails addJitter DateParse sortByTime net).

Lemma orDefault_truthy (s d : jsstring) : truthy d = true -> truthy (orDefault s d) = true.
Proof. intros H. unfold orDefault. destruct (truthy s) eqn:E; assumption. Qed.

Lemma adoptClose_keeps (f : FullIncident) (fetched : list IncidentUpdate) :
  let g := adoptCloseFromTimeline DateParse f fetched in
  full_id g = full_id f /\ full_reference g = full_reference f
  /\ full_name g = full_name f /\ full_created_at g = full_created_at f
  /\ status g = status f /\ statusCategory g = statusCategory f
  /\ roles g = roles f /\ timestamps g = timestamps f /\ updates g = updates f
  /\ actions g = actions f /\ followUps g = followUps f
  /\ attachments g = attachments f.
Proof.
  unfold adoptCloseFromTimeline.
  destruct (negb (present (full_closed_at f)) && category_eqb (statusCategory f) closed);
    [destruct (find isClosedUpdate fetched)|]; cbn; repeat split; reflexivity.
Qed.

(** The five collections of a full incident are the results of the five
    fetches. *)
Lemma getFullIncidentDetails_collections (incident : Incident) (userId : jsstring)
    (f : FullIncident) :
  getFull incident userId = Ok f ->
  getIncidentUpdates addJitter net (id incident) = Ok (updates f)
  /\ getIncidentFollowUps addJitter net (id incident) = Ok (followUps f)
  /\ getIncidentActions addJitter net (id incident) = Ok (actions f)
  /\ getIncidentAttachments addJitter net (id incident) = Ok (attachments f)
  /\ getIncidentTimestamps addJitter sortByTime net (id incident) = Ok (timestamps f)
  /\ full_id f = id incident /\ full_reference f = reference incident
  /\ full_created_at f = created_at incident
  /\ statusCategory f = category (incident_status incident)
  /\ full_name f = orDefault (name incident) (js "Untitled Incident")
  /\ status f = orDefault (status_name (incident_status incident)) (js "Unknown")
  /\ roles f = flat_map (roleOf userId) (orEmpty (incident_role_assignments incident)).
Proof.
  destruct (getIncidentUpdates_total addJitter net (id incident)) as [u Eu].
  destruct (getIncidentFollowUps_total addJitter net (id incident)) as [fu Efu].
  destruct (getIncidentActions_total addJitter net (id incident)) as [ac Eac].
  destruct (getIncidentAttachments_total addJitter net (id incident)) as [at' Eat].
  destruct (getIncidentTimestamps_total addJitter sortByTime net (id incident)) as [ts Ets].
  unfold getFullIncidentDetails. rewrite Eu, Efu, Eac, Eat, Ets. cbn [all2 bind].
  intros H. injection H as <-.
  match goal with
  | |- context [adoptCloseFromTimeline DateParse ?g ?l] =>
      destruct (adoptClose_keeps g l)
        as (H1 & H2 & H3 & H4 & H5 & H6 & H7 & H8 & H9 & H10 & H11 & H12)
  end.
  rewrite H1, H2, H3, H4, H5, H6, H7, H8, H9, H10, H11, H12.
  cbn [full_id full_reference full_name full_created_at status statusCategory roles
       timestamps updates actions followUps attachments buildBasicFullIncident].
  repeat split; reflexivity.
Qed.

Lemma roleOf_length (userId : jsstring) (assignments : list IncidentRoleAssignment) :
  length (flat_map (roleOf userId) assignments)
  = length (filter hasRoleAndAssignee assignments).
Proof.
  induction assignments as [|a l IH]; [reflexivity|].
  cbn [flat_map filter]. rewrite length_app, IH.
  unfold roleOf, hasRoleAndAssignee.
  destruct (assignment_role a), (assignment_assignee a); reflexivity.
Qed.

Lemma roleOf_named (userId : jsstring) (assignments : list IncidentRoleAssignment)
    (r : FullRole) :
  In r (flat_map (roleOf userId) assignments) -> role r <> [] /\ assignee r <> [].
Proof.
  intros H. apply in_flat_map in H. destruct H as (a & _ & H).
  unfold roleOf in H.
  destruct (assignment_role a) as [what|]; [|contradiction].
  destruct (assignment_assignee a) as [who|]; [|contradiction].
  destruct H as [<-|[]]. cbn [role assignee].
  split; apply truthy_true; now apply orDefault_truthy.
Qed.

(** X9: [getFullIncidentDetails] never rejects, whatever the five
    sub-resource requests do.  The record it yields keeps the id, the
    reference and the creation time of the raw incident.  It has one role for
    every role assignment that has both a role and an assignee, in their
    order, and none for the others; the role name and the assignee name of a
    role are never empty, and neither are the name and the status name of
    the record ("Unknown" and "Untitled Incident" stand in). *)
Theorem full_incident_always_built (incident : Incident) (userId : jsstring) :
  exists f,
    getFull incident userId = Ok f
    /\ full_id f = id incident
    /\ full_reference f = reference incident
    /\ full_created_at f = created_at incident
    /\ roles f = flat_map (roleOf userId) (orEmpty (incident_role_assignments incident))
    /\ length (roles f)
       = length (filter hasRoleAndAssignee (orEmpty (incident_role_assignments incident)))
    /\ (forall r, In r (roles f) -> role r <> [] /\ assignee r <> [])
    /\ full_name f <> []
    /\ status f <> [].
Proof.
  destruct (getFullIncidentDetails_total addJitter DateParse sortByTime net incident userId)
    as [f E].
  exists f. split; [exact E|].
  destruct (getFullIncidentDetails_collections incident userId f E)
    as (_ & _ & _ & _ & _ & H1 & H2 & H3 & _ & H5 & H6 & H7).
  split; [exact H1|]. split; [exact H2|]. split; [exact H3|]. split; [exact H7|].
  split; [rewrite H7; apply roleOf_length|].
  split; [intros r Hr; rewrite H7 in Hr; exact (roleOf_named _ _ r Hr)|].
  split.
  - rewrite H5. apply truthy_true. now apply orDefault_truthy.
  - rewrite H6. apply truthy_true. now apply orDefault_truthy.
Qed.

Lemma caught_throw {A B} (url : jsstring) (attempts : nat -> Attempt A)
    (k : A -> B) (d : B) (t : Thrown) :
  request addJitter url attempts = Throw t ->
  try_catch (bind (request addJitter url attempts) (fun r => Ok (k r)))
    (fun _ => Ok d) = Ok d.
Proof. intros E. now rewrite E. Qed.

(** X10: a sub-resource whose request fails is an empty collection of the
    full incident, independently for each of the five; nothing else of the
    record is affected. *)
Theorem failed_sub_resource_is_empty (incident : Incident) (userId : jsstring)
    (f : FullIncident) :
  getFull incident userId = Ok f ->
  (isThrow (requestV2 addJitter (js "/incident_updates?incident_id=" ++ id incident)
              (net_updates net (id incident))) = true -> updates f = [])
  /\ (isThrow (requestV2 addJitter (js "/follow_ups?incident_id=" ++ id incident)
                 (net_follow_ups net (id incident))) = true -> followUps f = [])
  /\ (isThrow (requestV2 addJitter (js "/actions?incident_id=" ++ id incident)
                 (net_actions net (id incident))) = true -> actions f = [])
  /\ (isThrow (requestV1 addJitter (js "/incident_attachments?incident_id=" ++ id incident)
                 (net_attachments net (id incident))) = true -> attachments f = [])
  /\ (isThrow (requestV2 addJitter (js "/incident_timestamp_values?incident_id="
                                     ++ id incident)
                 (net_timestamps net (id incident))) = true -> timestamps f = []).
Proof.
  intros E.
  destruct (getFullIncidentDetails_collections incident userId f E)
    as (Hu & Hfu & Hac & Hat & Hts & _).
  unfold getIncidentUpdates, getIncidentFollowUps, getIncidentActions,
    getIncidentAttachments, getIncidentTimestamps in *.
  repeat split; intros Hthrow;
    match goal with
    | H : isThrow ?r = true |- _ => destruct r as [v|t|] eqn:Er; try discriminate H
    end.
  - cbn in Hu. now injection Hu.
  - cbn in Hfu. now injection Hfu.
  - cbn in Hac. now injection Hac.
  - cbn in Hat. now injection Hat.
  - cbn in Hts. now injection Hts.
Qed.

Lemma notDeleted_true (s : jsstring) : notDeleted s = true <-> s <> js "deleted".
Proof.
  unfold notDeleted. rewrite negb_true_iff. split.
  - intros H E. apply jsstring_eqb_eq in E. congruence.
  - intros H. destruct (jsstring_eqb s (js "deleted")) eqn:E; [|reflexivity].
    apply jsstring_eqb_eq in E. now contradiction H.
Qed.

(** X11: no follow-up and no action with the status "deleted" is part of a
    full incident. *)
Theorem full_incident_has_no_deleted_items (incident : Incident) (userId : jsstring)
    (f : FullIncident) :
  getFull incident userId = Ok f ->
  (forall fu, In fu (followUps f) -> followup_status fu <> js "deleted")
  /\ (forall a, In a (actions f) -> action_status a <> js "deleted").
Proof.
  intros E.
  destruct (getFullIncidentDetails_collections incident userId f E)
    as (_ & Hfu & Hac & _).
  unfold getIncidentFollowUps, getIncidentActions in *. split.
  - intros fu Hin.
    destruct (requestV2 addJitter (js "/follow_ups?incident_id=" ++ id incident)
                (net_follow_ups net (id incident))) as [v|t|]; cbn in Hfu;
      try discriminate Hfu; injection Hfu as Hfu; rewrite <- Hfu in Hin.
    + apply filter_In in Hin. now apply notDeleted_true.
    + destruct Hin.
  - intros a Hin.
    destruct (requestV2 addJitter (js "/actions?incident_id=" ++ id incident)
                (net_actions net (id incident))) as [v|t|]; cbn in Hac;
      try discriminate Hac; injection Hac as Hac; rewrite <- Hac in Hin.
    + apply filter_In in Hin. now apply notDeleted_true.
    + destruct Hin.
Qed.

Lemma successes_map_ok {A R B} (g : A -> Res R) (p : R -> B) (q : A -> B) (l : list A) :
  (forall x, exists v, g x = Ok v /\ p v = q x) ->
  map p (successes (map g l)) = map q l.
Proof.
  intros H. induction l as [|x l IH]; [reflexivity|].
  cbn [map successes]. destruct (H x) as (v & -> & Hv). cbn [map]. now rewrite Hv, IH.
Qed.

(** X12: in every result of [syncData] the summary list and the list of full
    incidents describe the same incidents in the same order (equal
    references, position by position), and [onCall] is never present with an
    empty list of schedules. *)
Theorem syncData_result_is_aligned (fuel : nat) (identifier : jsstring)
    (historicalOptions : option nat) (result : SyncResult) :
  syncData addJitter toLowerCase DateParse sortByTime encodeURIComponent cutoffDate net
    fuel identifier historicalOptions = Ok result ->
  map result_reference (incidents result) = map full_reference (fullIncidents result)
  /\ length (incidents result) = length (fullIncidents result)
  /\ (forall onCallResult, onCall result = Some onCallResult ->
      schedules onCallResult <> []).
Proof.
  intros H. rewrite syncData_unfold in H.
  destruct (findUser addJitter toLowerCase net identifier) as [[user|]|t|];
    try discriminate H.
  destruct (all2 _ _) as [[onCallResult candidates]|t|]; try discriminate H.
  destruct (processInBatches fuel candidates BATCH_SIZE _) as [full|t|] eqn:EP;
    try discriminate H.
  injection H as <-. cbn [incidents fullIncidents onCall].
  apply processInBatches_from_returns in EP. cbn [app skipn] in EP. subst full.
  assert (Href : map full_reference
                   (successes (map (fun incident => getFull incident (user_id user))
                                 candidates))
                 = map reference candidates).
  { apply successes_map_ok. intros x.
    destruct (getFullIncidentDetails_total addJitter DateParse sortByTime net x
                (user_id user)) as [f E].
    exists f. split; [exact E|].
    now destruct (getFullIncidentDetails_collections x (user_id user) f E)
      as (_ & _ & _ & _ & _ & _ & H2 & _). }
  split; [|split].
  - rewrite Href, map_map. reflexivity.
  - rewrite <- (length_map full_reference (successes _)), Href. now rewrite !length_map.
  - intros oc Hoc. destruct (schedules onCallResult) as [|s ss] eqn:Es.
    + discriminate Hoc.
    + cbn in Hoc. injection Hoc as <-. rewrite Es. discriminate.
Qed.
End FullIncidentFacts.

Lemma full_incident_always_built_witness :
  exists f,
    getFullIncidentDetails (fun ms => ms) isoInstant (fun l => l) quietNetwork halfAssigned
      (js "U1") = Ok f
    /\ length (roles f) = 1.
Proof.
  destruct (full_incident_always_built (fun ms => ms) isoInstant (fun l => l) quietNetwork
              halfAssigned (js "U1")) as (f & E & _ & _ & _ & _ & Hlen & _).
  exists f. split; [exact E|exact Hlen].
Defined.

Lemma failed_sub_resource_is_empty_witness :
  exists f,
    getFullIncidentDetails (fun ms => ms) isoInstant (fun l => l) detailsDown outage (js "U1")
    = Ok f
    /\ updates f = [] /\ followUps f = [].
Proof.
  destruct (getFullIncidentDetails_total (fun ms => ms) isoInstant (fun l => l) detailsDown
              outage (js "U1")) as [f E].
  exists f. split; [exact E|].
  destruct (failed_sub_resource_is_empty (fun ms => ms) isoInstant (fun l => l) detailsDown
              outage (js "U1") f E) as (Hu & Hfu & _).
  split; [apply Hu|apply Hfu]; reflexivity.
Defined.

Lemma full_incident_has_no_deleted_items_witness :
  exists f,
    getFullIncidentDetails (fun ms => ms) isoInstant (fun l => l) timelineCloses closedNoTime
      (js "U1") = Ok f
    /\ forall a, In a (actions f) -> action_status a <> js "deleted".
Proof.
  eexists. split; [reflexivity|].
  exact (proj2 (full_incident_has_no_deleted_items (fun ms => ms) isoInstant (fun l => l)
                  timelineCloses closedNoTime (js "U1") _ eq_refl)).
Defined.

Lemma syncData_result_is_aligned_witness :
  exists result,
    syncData (fun ms => ms) (fun s => s) isoInstant (fun l => l) (fun s => s)
      (fun _ => []) detailsDown 10 (js "james") None = Ok result
    /\ length (incidents result) = length (fullIncidents result).
Proof.
  eexists. split; [reflexivity|].
  exact (proj1 (proj2 (syncData_result_is_aligned (fun ms => ms) (fun s => s) isoInstant
                         (fun l => l) (fun s => s) (fun _ => []) detailsDown 10
                         (js "james") None _ eq_refl))).
Defined.

(** ** Batches *)

(** X13: the batch size is a matter of pacing only: with any two positive
    batch sizes (and fuel for the longer run) [processInBatches] returns the
    same list. *)
Theorem batch_size_does_not_change_result {T R : Type} (items : list T)
    (size1 size2 fuel : nat) (processor : T -> Res R) :
  0 < size1 -> 0 < size2 -> length items < fuel ->
  (forall x, In x items -> processor x <> Pending) ->
  processInBatches fuel items size1 processor
  = processInBatches fuel items size2 processor.
Proof.
  intros H1 H2 Hf Hs. unfold processInBatches.
  rewrite !processInBatches_from_spec; try assumption; try lia. reflexivity.
Qed.

Lemma batch_size_does_not_change_result_witness :
  processInBatches 9 [1; 2; 3; 4; 5; 6; 7] 5
    (fun n => if Nat.odd n then Ok n else Throw OtherValue)
  = processInBatches 9 [1; 2; 3; 4; 5; 6; 7] 2
      (fun n => if Nat.odd n then Ok n else Throw OtherValue).
Proof.
  apply batch_size_does_not_change_result; try lia.
  - cbn. lia.
  - intros x _. destruct (Nat.odd x); discriminate.
Defined.

Lemma zero_batch_stalls {T R : Type} (items : list T) (processor : T -> Res R)
    (fuel : nat) :
  items <> [] ->
  forall results, processInBatches_from fuel items 0 processor 0 results = Pending.
Proof.
  intros Hne. induction fuel as [|fuel IH]; intros results; [reflexivity|].
  cbn [processInBatches_from].
  destruct items as [|x items]; [now contradiction Hne|].
  cbn [length Nat.ltb Nat.leb]. unfold slice. cbn [Nat.add Nat.sub firstn map allSettled].
  apply IH.
Qed.

(** X14: an empty list of items is done at once, even with a batch size of
    0; a non-empty list with a batch size of 0 is never done, however long
    the loop runs, because the index does not advance. *)
Theorem zero_batch_size_never_finishes {T R : Type} (items : list T)
    (processor : T -> Res R) (fuel batchSize : nat) :
  processInBatches (S fuel) [] batchSize processor = Ok []
  /\ (items <> [] -> processInBatches fuel items 0 processor = Pending).
Proof.
  split; [reflexivity|]. intros Hne. now apply zero_batch_stalls.
Qed.

Lemma zero_batch_size_never_finishes_witness :
  processInBatches 1000 [1; 2; 3] 0 (fun n => Ok n) = Pending.
Proof.
  apply (proj2 (zero_batch_size_never_finishes [1; 2; 3] (fun n : nat => Ok n) 1000 0)).
  discriminate.
Defined.

(** ** Durations *)

Section DoubleRounding.
Local Open Scope Z_scope.

Lemma nearestEven_bounds (num den : Z) :
  0 < den ->
  2 * nearestEven num den * den <= 2 * num + den
  /\ 2 * num - den <= 2 * nearestEven num den * den
  /\ num / den <= nearestEven num den <= num / den + 1
  /\ (num mod den = 0 -> nearestEven num den = num / den).
Proof.
  intros Hden. unfold nearestEven.
  pose proof (Z.div_mod num den ltac:(lia)) as E.
  pose proof (Z.mod_pos_bound num den Hden) as B.
  remember (num / den) as m0 eqn:Q0. remember (num mod den) as r eqn:Q1.
  clear Q0 Q1.
  destruct (Z.ltb_spec den (2 * r)) as [H1|H1]; cbn [orb].
  - repeat split; first [nia | intros Hr; nia].
  - destruct (Z.eqb_spec (2 * r) den) as [H2|H2]; cbn [andb].
    + destruct (Z.odd m0); repeat split; first [nia | intros Hr; nia].
    + repeat split; first [nia | intros Hr; nia].
Qed.

(** With a scale 2 H whose double exceeds 60000, rounding the scaled
    quotient to an integer first does not move the result of rounding to
    the nearest minute. *)
Lemma round_core (sigma a H m : Z) :
  (sigma = 1 \/ sigma = -1) -> 0 < a -> 15000 < H ->
  2 * m * 60000 <= 2 * (a * (2 * H)) + 60000 ->
  2 * (a * (2 * H)) - 60000 <= 2 * m * 60000 ->
  (a * (2 * H)) / 60000 <= m <= (a * (2 * H)) / 60000 + 1 ->
  ((a * (2 * H)) mod 60000 = 0 -> m = (a * (2 * H)) / 60000) ->
  (2 * (sigma * m) + 2 * H) / (2 * (2 * H)) = (sigma * a + 30000) / 60000.
Proof.
  intros Hs Ha HH Hup Hlow Hm Hexact.
  pose proof (Z.div_mod (sigma * a + 30000) 60000 ltac:(lia)) as E.
  pose proof (Z.mod_pos_bound (sigma * a + 30000) 60000 ltac:(lia)) as B.
  remember ((sigma * a + 30000) / 60000) as R eqn:QR.
  remember ((sigma * a + 30000) mod 60000) as rho eqn:Qrho. clear QR Qrho.
  pose proof (Z.div_mod (a * (2 * H)) 60000 ltac:(lia)) as E0.
  pose proof (Z.mod_pos_bound (a * (2 * H)) 60000 ltac:(lia)) as B0.
  remember ((a * (2 * H)) / 60000) as m0 eqn:Q0.
  remember ((a * (2 * H)) mod 60000) as r eqn:Q1. clear Q0 Q1.
  symmetry. apply (Z.div_unique_pos _ _ _ (2 * (sigma * m) + 2 * H - 2 * (2 * H) * R));
    [|lia].
  destruct Hs as [-> | ->].
  - (* a positive difference *)
    assert (HL : (2 * R - 1) * H <= m).
    { assert ((2 * R - 1) * H * 60000 <= a * (2 * H)) by nia.
      assert ((2 * R - 1) * H <= m0) by nia. lia. }
    assert (HU : m < (2 * R + 1) * H).
    { assert (a * (2 * H) <= (2 * R + 1) * H * 60000 - 2 * H) by nia.
      nia. }
    nia.
  - (* a negative difference *)
    assert (HV : m <= (1 - 2 * R) * H).
    { assert (a * (2 * H) <= (1 - 2 * R) * H * 60000) by nia.
      assert (m0 <= (1 - 2 * R) * H) by nia.
      destruct (Z.eq_dec m0 ((1 - 2 * R) * H)) as [Heq|Hne]; [|lia].
      assert (r = 0) by nia. specialize (Hexact ltac:(assumption)). lia. }
    assert (HW : - ((2 * R + 1) * H) < m).
    { assert (- ((2 * R + 1) * H) * 60000 + 2 * H <= a * (2 * H)) by nia.
      nia. }
    nia.
Qed.

Lemma quotient_exponent_small (a : Z) :
  0 < a -> a <= 2 ^ 53 ->
  (if (60000 * 2 ^ Z.max (Z.log2 a - 15) 0 <=? a * 2 ^ Z.max (- (Z.log2 a - 15)) 0)
   then Z.log2 a - 15 else Z.log2 a - 15 - 1) <= 37.
Proof.
  intros Ha Hb.
  assert (Hl : Z.log2 a <= 53).
  { rewrite <- (Z.log2_pow2 53) by lia. now apply Z.log2_le_mono. }
  destruct (Z.eq_dec (Z.log2 a) 53) as [E|E].
  - rewrite E. change (Z.max (53 - 15) 0) with 38. change (Z.max (- (53 - 15)) 0) with 0.
    destruct (Z.leb_spec (60000 * 2 ^ 38) (a * 2 ^ 0)) as [H|H]; [|lia].
    change (2 ^ 0) with 1 in H. change (60000 * 2 ^ 38) with 16492674416640000 in H.
    change (2 ^ 53) with 9007199254740992 in Hb. lia.
  - destruct (60000 * 2 ^ Z.max (Z.log2 a - 15) 0 <=? a * 2 ^ Z.max (- (Z.log2 a - 15)) 0);
      lia.
Qed.

Lemma roundedQuotient_minutes (D : Z) :
  Z.abs D <= 2 ^ 53 -> roundedQuotient D 60000 = (D + 30000) / 60000.
Proof.
  intros Hb. unfold roundedQuotient.
  destruct (Z.eqb_spec (Z.abs D) 0) as [H0|H0].
  - assert (E : D = 0) by lia. subst D. reflexivity.
  - assert (Ha : 0 < Z.abs D) by lia.
    change (Z.log2 60000) with 15.
    pose proof (quotient_exponent_small (Z.abs D) Ha Hb) as He.
    set (e := if (60000 * 2 ^ Z.max (Z.log2 (Z.abs D) - 15) 0
                  <=? Z.abs D * 2 ^ Z.max (- (Z.log2 (Z.abs D) - 15)) 0)
              then Z.log2 (Z.abs D) - 15 else Z.log2 (Z.abs D) - 15 - 1) in *.
    assert (Hs : 15 <= 52 - e) by lia.
    rewrite (Z.max_l (52 - e) 0) by lia. rewrite (Z.max_r (- (52 - e)) 0) by lia.
    change (2 ^ 0) with 1. rewrite Z.mul_1_r.
    destruct (Z.leb_spec (52 - e) 0) as [Hle|_]; [lia|].
    assert (HP : 2 ^ (52 - e) = 2 * 2 ^ (52 - e - 1)).
    { rewrite <- Z.pow_succ_r by lia. f_equal. lia. }
    assert (HH : 2 ^ 14 <= 2 ^ (52 - e - 1)) by (apply Z.pow_le_mono_r; lia).
    change (2 ^ 14) with 16384 in HH.
    replace (2 ^ (52 - e + 1)) with (2 * 2 ^ (52 - e))
      by (rewrite <- Z.pow_succ_r by lia; f_equal; lia).
    rewrite HP.
    set (H := 2 ^ (52 - e - 1)) in *.
    destruct (nearestEven_bounds (Z.abs D * (2 * H)) 60000 ltac:(lia))
      as (B1 & B2 & B3 & B4).
    rewrite (round_core (Z.sgn D) (Z.abs D) H
               (nearestEven (Z.abs D * (2 * H)) 60000)); try assumption; try lia.
    replace (Z.sgn D * Z.abs D) with D; [reflexivity|].
    destruct (Z.sgn_spec D) as [[? ->]|[[? ->]|[? ->]]]; lia.
Qed.

End DoubleRounding.

(** X15: when both times parse and are at most 2^53 ms (some 285 000 years)
    apart, the duration in minutes is the difference of the two instants
    rounded to the nearest minute (a half rounds up): it differs from the
    exact quotient by at most half a minute, and it is not negative when the
    incident was not closed before it was created.  Beyond that distance the
    arithmetic of doubles decides: for the instants -8455882291008356 and
    8534073670061643 the difference is rounded up to an even number, the
    quotient is a half exactly and the result is 283165932685, one minute
    more than exact rounding gives.  When either time does not parse the
    duration is [NaN]. *)
Theorem duration_is_rounded_difference (DateParse : jsstring -> num)
    (created closedText : jsstring) :
  (forall c k, DateParse created = Num c -> DateParse closedText = Num k ->
     (Z.abs (k - c) <= 2 ^ 53)%Z ->
     exists d, minutesBetween DateParse created closedText = Num d
               /\ (k - c - 30000 < 60000 * d <= k - c + 30000)%Z
               /\ ((c <= k)%Z -> (0 <= d)%Z))
  /\ (DateParse created = Num (-8455882291008356) ->
      DateParse closedText = Num 8534073670061643 ->
      minutesBetween DateParse created closedText = Num 283165932685)
  /\ (DateParse created = NaN \/ DateParse closedText = NaN ->
      minutesBetween DateParse created closedText = NaN).
Proof.
  split; [|split].
  - intros c k Hc Hk Hb. unfold minutesBetween. rewrite Hc, Hk.
    rewrite (roundFinite_exact (k - c) Hb), (roundedQuotient_minutes (k - c) Hb).
    exists ((k - c + 30000) / 60000)%Z. split; [reflexivity|].
    pose proof (Z.div_mod (k - c + 30000) 60000 ltac:(lia)) as Hdm.
    pose proof (Z.mod_pos_bound (k - c + 30000) 60000 ltac:(lia)) as Hm.
    split; [lia|]. intros Hle. apply Z.div_pos; lia.
  - intros Hc Hk. unfold minutesBetween. rewrite Hc, Hk. vm_compute. reflexivity.
  - unfold minutesBetween. intros [H|H]; rewrite H; [reflexivity|].
    destruct (DateParse created); reflexivity.
Qed.

Lemma duration_is_rounded_difference_witness :
  exists d,
    minutesBetween isoInstant (js "2024-01-14T10:00:00Z") (js "2024-01-14T10:00:30Z") = Num d
    /\ (0 <= d)%Z.
Proof.
  destruct (proj1 (duration_is_rounded_difference isoInstant (js "2024-01-14T10:00:00Z")
                     (js "2024-01-14T10:00:30Z"))
              1705226400000%Z 1705226430000%Z eq_refl eq_refl) as (d & Hd & _ & Hpos).
  - vm_compute. discriminate.
  - exists d. split; [exact Hd|]. apply Hpos. lia.
Defined.

(** ** The test for a 404 *)

Lemma statusText_404 : statusText 404 = js "404".
Proof. reflexivity. Qed.

Lemma is404_by_text (e : Error) :
  is404Error (ErrorObject e) = includes (message e) (js "404").
Proof.
  cbn [is404Error]. destruct (includes (message e) (js "404")) eqn:E; [reflexivity|].
  cbn [orb]. destruct (includes (message e) (js "status 404")) eqn:E2; [|reflexivity].
  change (js "status 404") with (js "status " ++ js "404") in E2.
  apply includes_suffix_of_needle in E2. congruence.
Qed.

Lemma request_throws_client_error (addJitter : number -> number) {T : Type}
    (url : jsstring) (attempts : nat -> Attempt T) (k : nat) (status : Z)
    (retryAfter : option jsstring) (json : T) :
  k < MAX_RETRIES -> (forall j, j < k -> retried (attempts j)) ->
  attempts k = Response status retryAfter json ->
  (status < 200 \/ 300 <= status < 500)%Z -> status <> 429%Z ->
  request addJitter url attempts = Throw (ErrorObject (clientError status url)).
Proof.
  intros Hk Hr Hat Hst Hne. unfold request.
  rewrite (run_after_prefix addJitter url attempts k (Nat.lt_le_incl _ _ Hk) Hr).
  replace (MAX_RETRIES - k) with (S (MAX_RETRIES - S k)) by lia.
  rewrite loop_S, Hat.
  replace (Z.leb 200 status && Z.ltb status 300) with false
    by (destruct (Z.leb_spec 200 status), (Z.ltb_spec status 300);
        cbn; try reflexivity; lia).
  replace (Z.eqb status 429) with false by (symmetry; apply Z.eqb_neq; lia).
  replace (Z.leb 500 status) with false by (symmetry; apply Z.leb_gt; lia).
  rewrite clientError_marked. reflexivity.
Qed.

Lemma request_throws_max_retries (addJitter : number -> number) {T : Type}
    (url : jsstring) (attempts : nat -> Attempt T) :
  (forall j, j < MAX_RETRIES -> retried (attempts j)) ->
  (forall j t, j < MAX_RETRIES -> attempts j <> Rejected t) ->
  request addJitter url attempts = Throw (ErrorObject (maxRetriesError url)).
Proof.
  intros Hr Hnone. unfold request.
  rewrite (run_after_prefix addJitter url attempts MAX_RETRIES (le_n _) Hr).
  rewrite Nat.sub_diag. rewrite lastErrorAfter_none by (intros j t Hj; now apply Hnone).
  reflexivity.
Qed.

(** X16: [is404Error] is decided by the text "404" anywhere in the message.
    So when [request] ends with the client's error for a status outside 2xx
    below 500 other than 429, the error it throws counts as a 404 when the
    status is 404, but also, whatever the status, when the URL contains
    "404" (in an incident id, for one).  The error of a request that ran out
    of retries without a transport error carries the URL as well and counts
    as a 404 under the same condition.  A thrown value that is not an
    [Error] never counts. *)
Theorem is404_is_a_text_search (addJitter : number -> number) {T : Type}
    (url : jsstring) (attempts : nat -> Attempt T) :
  (forall e, is404Error (ErrorObject e) = includes (message e) (js "404"))
  /\ (forall k status retryAfter json,
        k < 5 -> (forall j, j < k -> retried (attempts j)) ->
        attempts k = Response status retryAfter json ->
        (status < 200 \/ 300 <= status < 500)%Z -> status <> 429%Z ->
        exists t,
          request addJitter url attempts = Throw t
          /\ (status = 404%Z -> is404Error t = true)
          /\ (includes url (js "404") = true -> is404Error t = true))
  /\ ((forall j, j < 5 -> retried (attempts j)) ->
      (forall j t, j < 5 -> attempts j <> Rejected t) ->
      exists t,
        request addJitter url attempts = Throw t
        /\ (includes url (js "404") = true -> is404Error t = true))
  /\ is404Error OtherValue = false.
Proof.
  split; [exact is404_by_text|]. split; [|split; [|reflexivity]].
  - intros k status retryAfter json Hk Hr Hat Hst Hne.
    exists (ErrorObject (clientError status url)).
    split; [exact (request_throws_client_error addJitter url attempts k status
                     retryAfter json Hk Hr Hat Hst Hne)|].
    rewrite is404_by_text. cbn [message clientError]. split.
    + intros ->. rewrite statusText_404. apply includes_iff.
      exists (js "API request failed with status "), (js ": " ++ url). reflexivity.
    + intros H. rewrite !app_assoc. now apply includes_app_r.
  - intros Hr Hnone. exists (ErrorObject (maxRetriesError url)).
    split; [exact (request_throws_max_retries addJitter url attempts Hr Hnone)|].
    intros H. rewrite is404_by_text. cbn [message maxRetriesError].
    now apply includes_app_r.
Qed.

Lemma is404_is_a_text_search_witness :
  exists t,
    request (fun ms => ms)
      (js "https://api.incident.io/v2/incident_updates?incident_id=01H404")
      (fun _ => @Response unit 403 None tt) = Throw t
    /\ is404Error t = true.
Proof.
  destruct (proj1 (proj2 (is404_is_a_text_search (fun ms => ms)
              (js "https://api.incident.io/v2/incident_updates?incident_id=01H404")
              (fun _ => @Response unit 403 None tt)))
              0 403%Z None tt) as (t & E & _ & H).
  - lia.
  - intros j Hj. lia.
  - reflexivity.
  - lia.
  - discriminate.
  - exists t. split; [exact E|]. apply H. reflexivity.
Defined.

(** ** Custom fields *)

(** X17: every custom field that [buildBasicFullIncident] keeps has a
    non-empty name and a non-empty value and comes from an entry of the raw
    incident; the text value of an entry wins over its single-select value,
    and that over its multi-select values, which are joined with ", ". *)
Theorem custom_fields_have_name_and_value (entries : list IncidentCustomField)
    (fieldName fieldValue : jsstring) :
  (In (fieldName, fieldValue) (parseCustomFields entries) ->
   fieldName <> [] /\ fieldValue <> []
   /\ exists entry, In entry entries /\ custom_field_name entry = fieldName
                    /\ customFieldValue entry = fieldValue)
  /\ (forall entry text, value_text entry = Some text -> text <> [] ->
      customFieldValue entry = text)
  /\ (forall entry choice, present (value_text entry) = false ->
      value_single_select entry = Some choice -> choice <> [] ->
      customFieldValue entry = choice)
  /\ (forall entry values, present (value_text entry) = false ->
      present (value_single_select entry) = false ->
      value_multi_select entry = Some values ->
      customFieldValue entry = joinWith (js ", ") values).
Proof.
  split; [|split; [|split]].
  - unfold parseCustomFields. intros H.
    apply filter_In in H. destruct H as [H Hv]. cbn [snd] in Hv.
    apply in_map_iff in H. destruct H as (entry & Heq & Hin).
    apply filter_In in Hin. destruct Hin as [Hin Hn].
    injection Heq as <- <-. repeat split.
    + now apply truthy_true.
    + now apply truthy_true.
    + now exists entry.
  - intros entry text Ht Hne. unfold customFieldValue. rewrite Ht. cbn [present orEmpty].
    apply truthy_true in Hne. now rewrite Hne.
  - intros entry choice Ht Hs Hne. unfold customFieldValue. rewrite Ht, Hs.
    cbn [present orEmpty]. apply truthy_true in Hne. now rewrite Hne.
  - intros entry values Ht Hs Hm. unfold customFieldValue. rewrite Ht, Hs, Hm.
    destruct values; reflexivity.
Qed.

Lemma custom_fields_have_name_and_value_witness :
  customFieldValue (mkCustomField (js "Teams") None (Some [])
                      (Some [js "Payments"; js "Platform"]))
  = js "Payments, Platform".
Proof.
  exact (proj2 (proj2 (proj2 (custom_fields_have_name_and_value [] [] [])))
           (mkCustomField (js "Teams") None (Some []) (Some [js "Payments"; js "Platform"]))
           [js "Payments"; js "Platform"] eq_refl eq_refl eq_refl).
Defined.

(** ** Pagination *)

Section PaginationFacts.
Variable addJitter : number -> number.
Variable toLowerCase : jsstring -> jsstring.
Variable encodeURIComponent : jsstring -> jsstring.
Variable cutoffDate : nat -> jsstring.
Variable net : Network.

(** X18: the pagination loop has no limit of its own.  Against a server that
    answers every page request with at least 250 incidents and a non-empty
    cursor, [getAllIncidentsPaginated] is still going after any number of
    pages. *)
Theorem pagination_has_no_page_limit (filters : PageFilters) :
  (forall url, exists page cursor,
     requestV2 addJitter url (net_incidents_page net url) = Ok page
     /\ pageSize <= length (orEmpty (page_incidents page))
     /\ page_after page = Some cursor /\ cursor <> []) ->
  forall fuel, getAllIncidentsPaginated addJitter encodeURIComponent net fuel filters = Pending.
Proof.
  intros Hserver fuel. unfold getAllIncidentsPaginated.
  generalize (@None jsstring) as cursor. generalize (@nil Incident) as collected.
  induction fuel as [|fuel IH]; intros collected cursor; [reflexivity|].
  cbn [getPages].
  match goal with
  | |- context [requestV2 addJitter ?u (net_incidents_page net ?u)] =>
      destruct (Hserver u) as (page & next & -> & Hlen & Hafter & Hne)
  end.
  cbn [bind].
  replace (length (orEmpty (page_incidents page)) <? pageSize) with false
    by (symmetry; apply Nat.ltb_ge; exact Hlen).
  rewrite Hafter. cbn [present]. apply truthy_true in Hne. rewrite Hne.
  apply IH.
Qed.
End PaginationFacts.

Lemma pagination_has_no_page_limit_witness :
  getAllIncidentsPaginated (fun ms => ms) (fun s => s) endlessPages 40 (mkFilters None true)
  = Pending.
Proof.
  apply pagination_has_no_page_limit.
  intros url. exists (mkPage (Some (repeat outage 250)) (Some (js "next"))), (js "next").
  split; [reflexivity|]. split; [|split; [reflexivity|discriminate]].
  cbn [page_incidents orEmpty]. rewrite repeat_length. unfold pageSize. lia.
Defined.

(* ================================================================== *)
(** * Part IV: further properties of the section reconciler           *)
(* ================================================================== *)

(** ** Replacing, appending and removing in sequence *)

Lemma join_keptLines (ls : list jsstring) : join_lines (keptLines ls) = join_lines ls.
Proof.
  unfold keptLines. destruct (truthy (join_lines ls)) eqn:E; [reflexivity|].
  apply truthy_false in E. now rewrite E.
Qed.

Lemma firstn_length_app {A} (l r : list A) : firstn (length l) (l ++ r) = l.
Proof. induction l as [|x l IH]; [now destruct r|]. cbn. now rewrite IH. Qed.

Lemma skipn_length_app {A} (l r : list A) : skipn (length l) (l ++ r) = r.
Proof. induction l as [|x l IH]; [reflexivity|]. exact IH. Qed.

Lemma skipn_length_app2 {A} (l m r : list A) :
  skipn (length l + length m) (l ++ m ++ r) = r.
Proof. rewrite <- length_app, app_assoc. apply skipn_length_app. Qed.

(** X19: replacing is stable under repetition.  After a replace, a second
    replace guided by an index that finds the section where the first one put
    it (the heading on the line after the kept lines, the section as long as
    the body written) yields exactly the document that a single replace with
    the second body yields; with the same body the document does not change. *)
Theorem replace_again_overwrites (sectionHeader content : jsstring)
    (headings headings' : list HeadingCache) (existing existing' : HeadingCache)
    (body body' : jsstring) :
  findExistingHeading headings (sectionHeaderText sectionHeader) = Some existing ->
  findExistingHeading headings' (sectionHeaderText sectionHeader) = Some existing' ->
  line existing'
    = length (keptLines (firstn (line existing) (split_lines content))) ->
  endLineNum (split_lines (updateContent sectionHeader content headings body))
      headings' existing'
    = length (keptLines (firstn (line existing) (split_lines content)))
      + length (split_lines body) ->
  updateContent sectionHeader (updateContent sectionHeader content headings body)
    headings' body'
  = updateContent sectionHeader content headings body'
  /\ updateContent sectionHeader (updateContent sectionHeader content headings body)
       headings' body
     = updateContent sectionHeader content headings body.
Proof.
  intros Hf Hf' Hline Hend.
  assert (Hgen : forall b,
             updateContent sectionHeader
               (updateContent sectionHeader content headings body) headings' b
             = updateContent sectionHeader content headings b).
  { intros b.
    rewrite (updateContent_found _ _ _ _ b Hf').
    rewrite (updateContent_found _ _ _ _ b Hf).
    rewrite (updateContent_found _ _ _ _ body Hf) in *.
    unfold replaceSection at 1. unfold beforeSection at 1 2, afterSection at 1 2.
    unfold slice_from. rewrite slice_0, Hend, Hline.
    rewrite replaceSection_lines.
    rewrite firstn_length_app, skipn_length_app2, !join_keptLines.
    unfold replaceSection, beforeSection, afterSection, slice_from.
    now rewrite slice_0. }
  split; apply Hgen.
Qed.

Lemma replace_again_overwrites_witness :
  updateContent (js "## Incidents")
    (updateContent (js "## Incidents") sectionBetween sectionThenNextIndex newBody)
    sectionThenNextIndex (doc ["## Incidents"; "- INC-1"; "- INC-2"]%string)
  = updateContent (js "## Incidents") sectionBetween sectionThenNextIndex
      (doc ["## Incidents"; "- INC-1"; "- INC-2"]%string).
Proof.
  exact (proj1 (replace_again_overwrites (js "## Incidents") sectionBetween
                  sectionThenNextIndex sectionThenNextIndex
                  (mkHeading (js "Incidents") 2 1) (mkHeading (js "Incidents") 2 1)
                  newBody (doc ["## Incidents"; "- INC-1"; "- INC-2"]%string)
                  eq_refl eq_refl eq_refl eq_refl)).
Defined.

Lemma join_lines_snoc_blank (ls : list jsstring) :
  ls <> [] -> join_lines (ls ++ [[]]) = join_lines ls ++ [LF].
Proof.
  induction ls as [|l ls IH]; intros Hne; [now contradiction Hne|].
  destruct ls as [|l' ls'].
  - reflexivity.
  - change (join_lines ((l :: l' :: ls') ++ [[]]))
      with (l ++ LF :: join_lines ((l' :: ls') ++ [[]])).
    rewrite IH by discriminate.
    change (join_lines (l :: l' :: ls')) with (l ++ LF :: join_lines (l' :: ls')).
    now rewrite <- app_assoc.
Qed.

Lemma appended_lines (content body : jsstring) :
  split_lines (content ++ [LF; LF] ++ body)
  = (split_lines content ++ [[]]) ++ split_lines body.
Proof.
  change (content ++ [LF; LF] ++ body) with (content ++ LF :: ([] ++ LF :: body)).
  rewrite split_lines_app, split_lines_app. cbn [split_lines].
  now rewrite <- app_assoc.
Qed.

Lemma appended_before (content body : jsstring) :
  join_lines (firstn (length (split_lines content) + 1)
                (split_lines (content ++ [LF; LF] ++ body)))
  = content ++ [LF].
Proof.
  rewrite appended_lines.
  replace (length (split_lines content) + 1) with (length (split_lines content ++ [[]]))
    by (rewrite length_app; reflexivity).
  rewrite firstn_length_app, join_lines_snoc_blank by apply split_lines_nonempty.
  now rewrite join_split.
Qed.

(** X20: an appended section is found and replaced in place.  When the
    heading was not in the index the section is appended after a blank line;
    a later update whose index finds the heading on the first line of that
    appended body, with no closing heading after it, yields the original text,
    the blank line and the new body: the text before the section is not
    touched and nothing accumulates. *)
Theorem append_then_replace (sectionHeader content body body' : jsstring)
    (headings headings' : list HeadingCache) (existing' : HeadingCache) :
  findExistingHeading headings (sectionHeaderText sectionHeader) = None ->
  findExistingHeading headings' (sectionHeaderText sectionHeader) = Some existing' ->
  line existing' = length (split_lines content) + 1 ->
  endLineNum (split_lines (updateContent sectionHeader content headings body))
      headings' existing'
    = length (split_lines (updateContent sectionHeader content headings body)) ->
  updateContent sectionHeader content headings body = content ++ [LF; LF] ++ body
  /\ updateContent sectionHeader (updateContent sectionHeader content headings body)
       headings' body'
     = content ++ [LF; LF] ++ body'.
Proof.
  intros Hnone Hf' Hline Hend.
  assert (Happ : updateContent sectionHeader content headings body
                 = content ++ [LF; LF] ++ body)
    by (unfold updateContent; now rewrite Hnone).
  split; [exact Happ|].
  rewrite (updateContent_found _ _ _ _ body' Hf').
  unfold replaceSection, beforeSection, afterSection, slice_from.
  rewrite slice_0, Hend, Hline, Happ, appended_before.
  rewrite skipn_all. cbn [join_lines sepFor truthy].
  replace (sepFor (content ++ [LF])) with [LF]
    by (unfold sepFor; destruct content; reflexivity).
  rewrite app_nil_r, <- !app_assoc. reflexivity.
Qed.

Lemma trimEnd_snoc_LF (s : jsstring) : trimEnd (s ++ [LF]) = trimEnd s.
Proof. unfold trimEnd. rewrite rev_app_distr. reflexivity. Qed.

Lemma collapse_from_snoc_LF (s : jsstring) :
  forall k, exists tail,
    (tail = [] \/ tail = [LF])
    /\ collapse_from k (s ++ [LF]) = collapse_from k s ++ tail.
Proof.
  induction s as [|c t IH]; intros k.
  - cbn [app collapse_from]. rewrite N.eqb_refl.
    destruct (k <? 2); [exists [LF]|exists []]; split; auto.
  - cbn [app collapse_from]. destruct (N.eqb c LF).
    + destruct (k <? 2).
      * destruct (IH (S k)) as (tail & Ht & ->). exists tail. now split.
      * destruct (IH k) as (tail & Ht & ->). exists tail. now split.
    + destruct (IH 0) as (tail & Ht & ->). exists tail. now split.
Qed.

Lemma trim_collapse_snoc_LF (s : jsstring) :
  trim (collapseNewlines (s ++ [LF])) = trim (collapseNewlines s).
Proof.
  unfold collapseNewlines, trim.
  destruct (collapse_from_snoc_LF s 0) as (tail & [->| ->] & ->).
  - now rewrite app_nil_r.
  - now rewrite trimEnd_snoc_LF.
Qed.

Lemma leadingLF_triple (s : jsstring) : 3 <= leadingLF s -> starts_with TRIPLE_LF s = true.
Proof.
  destruct s as [|a [|b [|c t]]]; cbn [leadingLF]; try lia.
  - destruct (N.eqb a LF); cbn; lia.
  - destruct (N.eqb a LF); [destruct (N.eqb b LF)|]; cbn; lia.
  - destruct (N.eqb_spec a LF) as [->|]; [|lia].
    destruct (N.eqb_spec b LF) as [->|]; [|lia].
    destruct (N.eqb_spec c LF) as [->|]; [|lia].
    reflexivity.
Qed.

Lemma collapse_from_clean (s : jsstring) :
  forall k, includes s TRIPLE_LF = false -> leadingLF s + k <= 2 ->
  collapse_from k s = s.
Proof.
  induction s as [|c t IH]; intros k Hno Hk; [reflexivity|].
  cbn [includes] in Hno. apply orb_false_iff in Hno. destruct Hno as [Hhead Htail].
  cbn [collapse_from]. cbn [leadingLF] in Hk.
  destruct (N.eqb_spec c LF) as [->|Hc].
  - replace (k <? 2) with true by (symmetry; apply Nat.ltb_lt; lia).
    f_equal. apply IH; [assumption|lia].
  - f_equal. apply IH; [assumption|].
    destruct (le_lt_dec (leadingLF t) 2) as [Hle|Hgt]; [lia|].
    assert (H3 : 3 <= leadingLF t) by lia.
    apply leadingLF_triple in H3.
    assert (Hin : includes t TRIPLE_LF = true) by (destruct t; cbn [includes]; now rewrite H3).
    congruence.
Qed.

Lemma collapseNewlines_clean (s : jsstring) :
  includes s TRIPLE_LF = false -> collapseNewlines s = s.
Proof.
  intros Hno. apply collapse_from_clean; [assumption|].
  destruct (le_lt_dec (leadingLF s) 2) as [Hle|Hgt]; [lia|].
  assert (H3 : 3 <= leadingLF s) by lia. apply leadingLF_triple in H3.
  assert (Hin : includes s TRIPLE_LF = true) by (destruct s; cbn [includes]; now rewrite H3).
  congruence.
Qed.

Lemma trim_idempotent (s : jsstring) : trim (trim s) = trim s.
Proof. unfold trim at 1. now rewrite trimEnd_trim, trimStart_trim. Qed.

(** X21: the clean-up after a removal, collapsing every run of three or more
    line feeds to two and then trimming both ends, is a normal form: it
    changes nothing in a text that has no three consecutive line feeds and
    no white space at its ends, its result is such a text, and cleaning up
    twice is the same as cleaning up once. *)
Theorem collapse_is_a_normal_form (s : jsstring) :
  (includes s TRIPLE_LF = false -> trim s = s -> trim (collapseNewlines s) = s)
  /\ includes (trim (collapseNewlines s)) TRIPLE_LF = false
  /\ trim (trim (collapseNewlines s)) = trim (collapseNewlines s)
  /\ trim (collapseNewlines (trim (collapseNewlines s))) = trim (collapseNewlines s).
Proof.
  assert (Hclean : includes (trim (collapseNewlines s)) TRIPLE_LF = false).
  { apply includes_trim. apply collapse_from_no_triple. lia. }
  split; [|split; [exact Hclean|split; [apply trim_idempotent|]]].
  - intros Hno Ht. now rewrite (collapseNewlines_clean s Hno).
  - rewrite (collapseNewlines_clean _ Hclean). apply trim_idempotent.
Qed.

Lemma collapse_is_a_normal_form_witness :
  trim (collapseNewlines (doc ["a"; ""; "b"; ""; "c"]%string))
  = doc ["a"; ""; "b"; ""; "c"]%string.
Proof.
  apply (proj1 (collapse_is_a_normal_form (doc ["a"; ""; "b"; ""; "c"]%string)));
    reflexivity.
Defined.

(** X22: appending the section and removing it again gives the document
    back.  After the append, a removal whose index finds the heading on the
    first line of the appended body, with no closing heading after it, writes
    the original text with its line feeds collapsed and its ends trimmed; a
    text that has no three consecutive line feeds and no white space at its
    ends is written back unchanged. *)
Theorem append_then_remove (sectionHeader content body : jsstring)
    (headings headings' : list HeadingCache) (existing' : HeadingCache) :
  findExistingHeading headings (sectionHeaderText sectionHeader) = None ->
  findExistingHeading headings' (sectionHeaderText sectionHeader) = Some existing' ->
  line existing' = length (split_lines content) + 1 ->
  endLineNum (split_lines (updateContent sectionHeader content headings body))
      headings' existing'
    = length (split_lines (updateContent sectionHeader content headings body)) ->
  removeSectionFromNote sectionHeader
    (updateContent sectionHeader content headings body) headings'
  = Some (trim (collapseNewlines content))
  /\ (includes content TRIPLE_LF = false -> trim content = content ->
      removeSectionFromNote sectionHeader
        (updateContent sectionHeader content headings body) headings'
      = Some content).
Proof.
  intros Hnone Hf' Hline Hend.
  assert (Happ : updateContent sectionHeader content headings body
                 = content ++ [LF; LF] ++ body)
    by (unfold updateContent; now rewrite Hnone).
  assert (Hrem : removeSectionFromNote sectionHeader
                   (updateContent sectionHeader content headings body) headings'
                 = Some (trim (collapseNewlines content))).
  { unfold removeSectionFromNote. rewrite Hf'. f_equal.
    unfold removeSection, beforeSection, afterSection, slice_from.
    rewrite slice_0, Hend, Hline, Happ, appended_before.
    rewrite skipn_all. cbn [join_lines]. rewrite app_nil_r.
    apply trim_collapse_snoc_LF. }
  split; [exact Hrem|].
  intros Hno Htrim. rewrite Hrem. f_equal.
  now rewrite collapseNewlines_clean.
Qed.

Lemma append_then_replace_witness :
  updateContent (js "## Incidents")
    (updateContent (js "## Incidents") plainNote plainNoteIndex newBody)
    appendedIndex (doc ["## Incidents"; "- INC-1"]%string)
  = plainNote ++ [LF; LF] ++ doc ["## Incidents"; "- INC-1"]%string.
Proof.
  exact (proj2 (append_then_replace (js "## Incidents") plainNote newBody
                  (doc ["## Incidents"; "- INC-1"]%string) plainNoteIndex appendedIndex
                  (mkHeading (js "Incidents") 2 3) eq_refl eq_refl eq_refl eq_refl)).
Defined.

Lemma append_then_remove_witness :
  removeSectionFromNote (js "## Incidents")
    (updateContent (js "## Incidents") plainNote plainNoteIndex newBody) appendedIndex
  = Some plainNote.
Proof.
  exact (proj2 (append_then_remove (js "## Incidents") plainNote newBody plainNoteIndex
                  appendedIndex (mkHeading (js "Incidents") 2 3)
                  eq_refl eq_refl eq_refl eq_refl) eq_refl eq_refl).
Defined.

(** ** The date window *)

Section DateWindowMore.
Variable DateParse : jsstring -> num.
Variable LocalTime : Z -> Z.
Variable UTC : Z -> Z.

Local Abbreviation selected := (filterIncidentsForDate DateParse LocalTime UTC).

(** X23: an incident whose creation time does not parse is listed on no
    date: the selection is the same as if the incident were not in the list;
    so is one that has a close time that does not parse; and for a target
    date that is not a valid date nothing is listed at all. *)
Theorem unparseable_times_are_never_listed (before after : list FullIncident)
    (date : num) (inc : FullIncident) :
  (DateParse (full_created_at inc) = NaN ->
   selected (before ++ inc :: after) date = selected (before ++ after) date)
  /\ (forall text, full_closed_at inc = Some text -> text <> [] ->
      DateParse text = NaN ->
      selected (before ++ inc :: after) date = selected (before ++ after) date)
  /\ selected (before ++ inc :: after) NaN = [].
Proof.
  assert (Hdrop : activeOn DateParse LocalTime UTC date inc = false ->
                  selected (before ++ inc :: after) date = selected (before ++ after) date).
  { intros Ha. unfold filterIncidentsForDate. rewrite !filter_app. cbn [filter].
    now rewrite Ha. }
  split; [|split].
  - intros Hc. apply Hdrop. unfold activeOn. rewrite Hc. reflexivity.
  - intros text Ht Hne Hk. apply Hdrop. unfold activeOn.
    rewrite Ht. cbn [present orEmpty].
    apply truthy_true in Hne. rewrite Hne, Hk.
    cbn [num_geb]. apply andb_false_r.
  - clear Hdrop. unfold filterIncidentsForDate.
    induction (before ++ inc :: after) as [|x l IH]; [reflexivity|].
    cbn [filter]. unfold activeOn at 1. cbn [dateEnd setHours].
    replace (num_leb (DateParse (full_created_at x)) NaN) with false
      by (destruct (DateParse (full_created_at x)); reflexivity).
    exact IH.
Qed.

Lemma day_bound_monotone (offset t t' : Z) :
  (forall a b, (a <= b)%Z -> (LocalTime a <= LocalTime b)%Z) ->
  (forall a b, (a <= b)%Z -> (UTC a <= UTC b)%Z) ->
  (t <= t')%Z ->
  (UTC (LocalTime t / msPerDay * msPerDay + offset)
   <= UTC (LocalTime t' / msPerDay * msPerDay + offset))%Z.
Proof.
  intros HL HU Ht. apply HU.
  assert (H : (LocalTime t / msPerDay <= LocalTime t' / msPerDay)%Z).
  { apply Z.div_le_mono; [unfold msPerDay; lia|now apply HL]. }
  unfold msPerDay in *. nia.
Qed.

Lemma setHours_between (h m sec ms t t' t'' a c : Z) :
  (forall x y, (x <= y)%Z -> (LocalTime x <= LocalTime y)%Z) ->
  (forall x y, (x <= y)%Z -> (UTC x <= UTC y)%Z) ->
  (t <= t')%Z -> (t' <= t'')%Z ->
  setHours LocalTime UTC (Num t) h m sec ms = Num a ->
  setHours LocalTime UTC (Num t'') h m sec ms = Num c ->
  exists b, setHours LocalTime UTC (Num t') h m sec ms = Num b /\ (a <= b <= c)%Z.
Proof.
  intros HL HU H1 H2 Ha Hc.
  pose proof (day_bound_monotone (MakeTime h m sec ms) t t' HL HU H1) as M1.
  pose proof (day_bound_monotone (MakeTime h m sec ms) t' t'' HL HU H2) as M2.
  unfold setHours, TimeClip in *.
  destruct (Z.ltb_spec 8640000000000000
              (Z.abs (UTC (LocalTime t / msPerDay * msPerDay + MakeTime h m sec ms))))
    as [|Ba]; [discriminate Ha|].
  destruct (Z.ltb_spec 8640000000000000
              (Z.abs (UTC (LocalTime t'' / msPerDay * msPerDay + MakeTime h m sec ms))))
    as [|Bc]; [discriminate Hc|].
  injection Ha as <-. injection Hc as <-.
  destruct (Z.ltb_spec 8640000000000000
              (Z.abs (UTC (LocalTime t' / msPerDay * msPerDay + MakeTime h m sec ms))))
    as [Bb|Bb]; [lia|].
  eexists. split; [reflexivity|lia].
Qed.

(** X24: in a time zone whose conversions are monotone, the days on which an
    incident is listed are consecutive: an incident, open or closed, that is
    listed on two dates is listed on every date between them.  Moreover an
    open incident listed on one date is listed on every later valid date,
    and an incident that was closed before a day began is listed on no
    later date. *)
Theorem listed_days_are_consecutive (incidents : list FullIncident) (t t' t'' : Z)
    (inc : FullIncident) :
  (forall a b, (a <= b)%Z -> (LocalTime a <= LocalTime b)%Z) ->
  (forall a b, (a <= b)%Z -> (UTC a <= UTC b)%Z) ->
  (t <= t')%Z -> (t' <= t'')%Z ->
  (In inc (selected incidents (Num t)) -> In inc (selected incidents (Num t'')) ->
   In inc (selected incidents (Num t')))
  /\ (present (full_closed_at inc) = false ->
      dateEnd LocalTime UTC (Num t') <> NaN ->
      In inc (selected incidents (Num t)) -> In inc (selected incidents (Num t')))
  /\ (forall text k s,
        full_closed_at inc = Some text -> text <> [] -> DateParse text = Num k ->
        dateStart LocalTime UTC (Num t) = Num s -> (k < s)%Z ->
        ~ In inc (selected incidents (Num t'))).
Proof.
  intros HL HU Ht Ht'. split; [|split].
  - intros Hin Hin''. unfold filterIncidentsForDate in *.
    apply filter_In in Hin. destruct Hin as [Hin Ha].
    apply filter_In in Hin''. destruct Hin'' as [_ Ha''].
    apply filter_In. split; [assumption|].
    unfold activeOn in *.
    apply andb_true_iff in Ha. destruct Ha as [Hc Ho].
    apply andb_true_iff in Ha''. destruct Ha'' as [Hc'' Ho''].
    apply andb_true_iff. split.
    + destruct (DateParse (full_created_at inc)) as [|c]; [discriminate Hc|].
      unfold dateEnd in *.
      destruct (setHours LocalTime UTC (Num t) 23 59 59 999) as [|e] eqn:Ee;
        [discriminate Hc|].
      destruct (setHours LocalTime UTC (Num t'') 23 59 59 999) as [|e''] eqn:Ee'';
        [discriminate Hc''|].
      destruct (setHours_between 23 59 59 999 t t' t'' e e'' HL HU Ht Ht' Ee Ee'')
        as (e' & -> & He).
      cbn [num_leb] in *. apply Z.leb_le in Hc. apply Z.leb_le. lia.
    + destruct (present (full_closed_at inc)); [|reflexivity].
      destruct (DateParse (orEmpty (full_closed_at inc))) as [|k]; [discriminate Ho|].
      unfold dateStart in *.
      destruct (setHours LocalTime UTC (Num t) 0 0 0 0) as [|s] eqn:Es;
        [discriminate Ho|].
      destruct (setHours LocalTime UTC (Num t'') 0 0 0 0) as [|s''] eqn:Es'';
        [discriminate Ho''|].
      destruct (setHours_between 0 0 0 0 t t' t'' s s'' HL HU Ht Ht' Es Es'')
        as (s' & -> & Hs).
      cbn [num_geb] in *. rewrite Z.geb_leb in *.
      apply Z.leb_le in Ho''. apply Z.leb_le. lia.
  - intros Hopen Hvalid Hin. unfold filterIncidentsForDate in *.
    apply filter_In in Hin. destruct Hin as [Hin Ha]. apply filter_In.
    split; [assumption|].
    unfold activeOn in *. rewrite Hopen in *. rewrite andb_true_r in *.
    destruct (DateParse (full_created_at inc)) as [|c]; [discriminate Ha|].
    pose proof (day_bound_monotone (MakeTime 23 59 59 999) t t' HL HU Ht) as Hmono.
    unfold dateEnd, setHours, TimeClip in *.
    destruct (Z.ltb 8640000000000000
                (Z.abs (UTC (LocalTime t / msPerDay * msPerDay + MakeTime 23 59 59 999))));
      [discriminate Ha|].
    destruct (Z.ltb 8640000000000000
                (Z.abs (UTC (LocalTime t' / msPerDay * msPerDay + MakeTime 23 59 59 999))));
      [now contradiction Hvalid|].
    cbn [num_leb] in *. apply Z.leb_le in Ha. apply Z.leb_le. lia.
  - intros text k s Hc Hne Hk Hs Hlt Hin. unfold filterIncidentsForDate in Hin.
    apply filter_In in Hin. destruct Hin as [_ Ha]. unfold activeOn in Ha.
    rewrite Hc in Ha. cbn [present orEmpty] in Ha.
    apply truthy_true in Hne. rewrite Hne, Hk in Ha.
    apply andb_true_iff in Ha. destruct Ha as [_ Ha].
    pose proof (day_bound_monotone (MakeTime 0 0 0 0) t t' HL HU Ht) as Hmono.
    unfold dateStart, setHours, TimeClip in *.
    destruct (Z.ltb 8640000000000000
                (Z.abs (UTC (LocalTime t / msPerDay * msPerDay + MakeTime 0 0 0 0))));
      [discriminate Hs|].
    injection Hs as <-.
    destruct (Z.ltb 8640000000000000
                (Z.abs (UTC (LocalTime t' / msPerDay * msPerDay + MakeTime 0 0 0 0))));
      [discriminate Ha|].
    cbn [num_geb] in Ha. rewrite Z.geb_leb in Ha. apply Z.leb_le in Ha. lia.
Qed.
End DateWindowMore.

Lemma unparseable_times_are_never_listed_witness :
  filterIncidentsForDate isoInstant plusOneLocal plusOneUTC
    [incidentBetween (js "last Tuesday") None] monday = [].
Proof.
  exact (proj1 (unparseable_times_are_never_listed isoInstant plusOneLocal plusOneUTC
                  [] [] monday (incidentBetween (js "last Tuesday") None)) eq_refl).
Defined.

Lemma listed_days_are_consecutive_witness :
  In closedAtMidnight
    (filterIncidentsForDate isoInstant plusOneLocal plusOneUTC [closedAtMidnight]
       (Num 1705060800000)).
Proof.
  refine (proj1 (listed_days_are_consecutive isoInstant plusOneLocal plusOneUTC
                   [closedAtMidnight] 1704974400000 1705060800000 1705147200000
                   closedAtMidnight _ _ _ _) _ _).
  - intros a b H. unfold plusOneLocal. lia.
  - intros a b H. unfold plusOneUTC. lia.
  - lia.
  - lia.
  - now left.
  - now left.
Defined.

(* ================================================================== *)
(** * Part V: dates, durations and frontmatter as text                 *)
(* ================================================================== *)

Definition numeralChar (c : code_unit) : Prop := c = 45%N \/ (48 <= c <= 57)%N.

Lemma digits_of_chars (fuel : nat) :
  forall (n : N) (acc : jsstring),
    Forall (fun c => (48 <= c <= 57)%N) acc ->
    Forall (fun c => (48 <= c <= 57)%N) (digits_of fuel n acc).
Proof.
  induction fuel as [|fuel IH]; intros n acc Hacc; [exact Hacc|].
  rewrite digits_of_S.
  assert (Hd : Forall (fun c => (48 <= c <= 57)%N) ((48 + n mod 10)%N :: acc)).
  { constructor; [|exact Hacc].
    assert (H : (n mod 10 < 10)%N) by (apply N.mod_lt; lia).
    revert H. generalize (n mod 10)%N. intros d H. cbv beta. lia. }
  destruct (N.ltb n 10); [exact Hd|now apply IH].
Qed.

Lemma decimalText_chars (n : N) : Forall (fun c => (48 <= c <= 57)%N) (decimalText n).
Proof. unfold decimalText. apply digits_of_chars. constructor. Qed.

Lemma statusText_chars (z : Z) : Forall numeralChar (statusText z).
Proof.
  unfold statusText. destruct (Z.ltb z 0).
  - constructor; [now left|].
    eapply Forall_impl; [|apply decimalText_chars]. intros c H. now right.
  - eapply Forall_impl; [|apply decimalText_chars]. intros c H. now right.
Qed.

Lemma padStart2_chars (s : jsstring) : Forall numeralChar s -> Forall numeralChar (padStart2 s).
Proof.
  intros H. unfold padStart2. apply Forall_app. split; [|exact H].
  induction (2 - length s) as [|k IH]; cbn [repeat]; constructor; [|exact IH].
  right. lia.
Qed.

Lemma starts_with_prefix (n s : jsstring) : starts_with n (n ++ s) = true.
Proof. apply starts_with_iff. now exists s. Qed.

Lemma skipn_length_prefix {A} (n s : list A) : skipn (length n) (n ++ s) = s.
Proof. induction n as [|x n IH]; [reflexivity|exact IH]. Qed.

Lemma replaceFirst_unfold (pattern replacement s : jsstring) :
  replaceFirst pattern replacement s
  = if starts_with pattern s then replacement ++ skipn (length pattern) s
    else match s with
         | [] => []
         | c :: t => c :: replaceFirst pattern replacement t
         end.
Proof. destruct s; reflexivity. Qed.

Lemma replaceFirst_here (pattern replacement s : jsstring) :
  replaceFirst pattern replacement (pattern ++ s) = replacement ++ s.
Proof.
  rewrite replaceFirst_unfold, starts_with_prefix, skipn_length_prefix. reflexivity.
Qed.

Lemma replaceFirst_skip (x : code_unit) (n replacement p s : jsstring) :
  (forall c, In c p -> c <> x) ->
  replaceFirst (x :: n) replacement (p ++ s)
  = p ++ replaceFirst (x :: n) replacement s.
Proof.
  induction p as [|c p IH]; intros Hp; [reflexivity|].
  cbn [app]. rewrite replaceFirst_unfold. cbn [starts_with].
  assert (Hc : c <> x) by (apply Hp; now left).
  apply not_eq_sym in Hc. apply N.eqb_neq in Hc. rewrite Hc. cbn [andb].
  f_equal. apply IH. intros d Hd. apply Hp. now right.
Qed.

Lemma numeral_not_letter (s : jsstring) (x : code_unit) :
  Forall numeralChar s -> (57 < x)%N -> forall c, In c s -> c <> x.
Proof.
  intros Hs Hx c Hc. rewrite Forall_forall in Hs. specialize (Hs c Hc).
  unfold numeralChar in Hs. lia.
Qed.

Lemma app_assoc3 {A} (x y z r : list A) : x ++ y ++ z ++ r = (x ++ y ++ z) ++ r.
Proof. now rewrite <- !app_assoc. Qed.

Lemma app_assoc5 {A} (x y z u v r : list A) :
  (x ++ y ++ z) ++ u ++ v ++ r = (x ++ y ++ z ++ u ++ v) ++ r.
Proof. now rewrite <- !app_assoc. Qed.

(** X25: in a file-name pattern that has the year, month and day
    placeholders in this order, with separators that contain none of the
    letters of a later placeholder, each placeholder is replaced by its
    number (two digits at least for month and day) and everything else is
    kept; in particular the pattern YYYY-MM-DD gives exactly the date text
    that the client sends to the API. *)
Theorem date_pattern_substitution (date : LocalDate) (pre a b post : jsstring) :
  (forall c, In c pre -> c <> 89%N /\ c <> 77%N /\ c <> 68%N) ->
  (forall c, In c a -> c <> 77%N /\ c <> 68%N) ->
  (forall c, In c b -> c <> 68%N) ->
  formatDateWithPattern date
    (pre ++ js "YYYY" ++ a ++ js "MM" ++ b ++ js "DD" ++ post)
  = pre ++ statusText (getFullYear date) ++ a
      ++ padStart2 (statusText (getMonth date + 1)) ++ b
      ++ padStart2 (statusText (getDate date)) ++ post
  /\ formatDateWithPattern date (js "YYYY-MM-DD") = formatDateForApi date.
Proof.
  assert (Hgen : forall pre a b post,
    (forall c, In c pre -> c <> 89%N /\ c <> 77%N /\ c <> 68%N) ->
    (forall c, In c a -> c <> 77%N /\ c <> 68%N) ->
    (forall c, In c b -> c <> 68%N) ->
    formatDateWithPattern date
      (pre ++ js "YYYY" ++ a ++ js "MM" ++ b ++ js "DD" ++ post)
    = pre ++ statusText (getFullYear date) ++ a
        ++ padStart2 (statusText (getMonth date + 1)) ++ b
        ++ padStart2 (statusText (getDate date)) ++ post).
  { clear pre a b post. intros pre a b post Hpre Ha Hb.
    unfold formatDateWithPattern.
    set (Y := statusText (getFullYear date)).
    set (M := padStart2 (statusText (getMonth date + 1))).
    set (D := padStart2 (statusText (getDate date))).
    assert (HY : Forall numeralChar Y) by apply statusText_chars.
    assert (HM : Forall numeralChar M) by (apply padStart2_chars, statusText_chars).
    change (js "YYYY") with (89%N :: js "YYY").
    change (js "MM") with (77%N :: js "M").
    change (js "DD") with (68%N :: js "D").
    rewrite (replaceFirst_skip 89%N (js "YYY") Y pre)
      by (intros c Hc; exact (proj1 (Hpre c Hc))).
    rewrite replaceFirst_here.
    rewrite (app_assoc3 pre Y a).
    rewrite (replaceFirst_skip 77%N (js "M") M (pre ++ Y ++ a)).
    2:{ intros c Hc. apply in_app_or in Hc.
        destruct Hc as [Hc|Hc]; [exact (proj1 (proj2 (Hpre c Hc)))|].
        apply in_app_or in Hc. destruct Hc as [Hc|Hc]; [|exact (proj1 (Ha c Hc))].
        apply (numeral_not_letter Y); [exact HY|lia|exact Hc]. }
    rewrite replaceFirst_here.
    rewrite (app_assoc5 pre Y a M b).
    rewrite (replaceFirst_skip 68%N (js "D") D (pre ++ Y ++ a ++ M ++ b)).
    2:{ intros c Hc. apply in_app_or in Hc.
        destruct Hc as [Hc|Hc]; [exact (proj2 (proj2 (Hpre c Hc)))|].
        apply in_app_or in Hc. destruct Hc as [Hc|Hc];
          [apply (numeral_not_letter Y); [exact HY|lia|exact Hc]|].
        apply in_app_or in Hc. destruct Hc as [Hc|Hc]; [exact (proj2 (Ha c Hc))|].
        apply in_app_or in Hc. destruct Hc as [Hc|Hc]; [|exact (Hb c Hc)].
        apply (numeral_not_letter M); [exact HM|lia|exact Hc]. }
    rewrite replaceFirst_here. now rewrite <- !app_assoc. }
  intros Hpre Ha Hb. split; [now apply Hgen|].
  etransitivity; [apply (Hgen [] (js "-") (js "-") [])|].
  - intros c [].
  - intros c [<-|[]]; split; discriminate.
  - intros c [<-|[]]; discriminate.
  - unfold formatDateForApi. cbn [app]. now rewrite app_nil_r.
Qed.

Lemma date_pattern_substitution_witness :
  formatDateWithPattern january15 (js "YYYY/MM/DD.md") = js "2024/01/15.md".
Proof.
  refine (proj1 (date_pattern_substitution january15 [] (js "/") (js "/") (js ".md") _ _ _)).
  - intros c [].
  - intros c [<-|[]]; split; discriminate.
  - intros c [<-|[]]; discriminate.
Defined.

(** ** Durations *)

Lemma digit_of_digit_char (c : code_unit) :
  (48 <= c <= 57)%N -> exists d, digit_of c = Some d.
Proof.
  intros [H1 H2]. unfold digit_of.
  apply N.leb_le in H1. apply N.leb_le in H2. rewrite H1, H2. cbn [andb]. eauto.
Qed.

Lemma spanDigits_app (d r : jsstring) :
  Forall (fun c => (48 <= c <= 57)%N) d ->
  digit_of (hd 0%N r) = None ->
  spanDigits (d ++ r) = (d, r).
Proof.
  intros Hd Hr. induction Hd as [|c d Hc Hd IH]; cbn [app].
  - destruct r as [|x r]; [reflexivity|]. cbn [hd] in Hr. cbn [spanDigits].
    now rewrite Hr.
  - cbn [spanDigits]. destruct (digit_of_digit_char c Hc) as [v ->].
    now rewrite IH.
Qed.

Lemma decimalText_cons (n : N) :
  exists c t, decimalText n = c :: t /\ (c =? 45)%N = false.
Proof.
  destruct (decimalText_head n) as (d & t & E & Hd).
  exists (48 + d)%N, t. split; [exact E|]. apply N.eqb_neq. lia.
Qed.

Lemma readDuration_unsigned (n : N) (r : jsstring) :
  digit_of (hd 0%N r) = None ->
  readDuration (decimalText n ++ r) = readUnits 1 (decimalText n) r.
Proof.
  intros Hr. unfold readDuration.
  destruct (decimalText_cons n) as (c & t & E & Hc).
  pose proof (spanDigits_app (decimalText n) r (decimalText_chars n) Hr) as Hs.
  rewrite E in *. cbn [app] in *. rewrite Hc, Hs. reflexivity.
Qed.

Lemma readDuration_signed (n : N) (r : jsstring) :
  digit_of (hd 0%N r) = None ->
  readDuration (45%N :: decimalText n ++ r) = readUnits (-1) (decimalText n) r.
Proof.
  intros Hr. unfold readDuration. rewrite N.eqb_refl.
  now rewrite (spanDigits_app (decimalText n) r (decimalText_chars n) Hr).
Qed.

Lemma readUnits_minutes (sign : Z) (n : N) :
  readUnits sign (decimalText n) (js "m") = Some (sign * Z.of_N n)%Z.
Proof.
  unfold readUnits. destruct (decimalText_cons n) as (c & t & E & _).
  rewrite <- (parse_decimalText n). rewrite E. reflexivity.
Qed.

Lemma readUnits_hours (sign : Z) (n : N) :
  readUnits sign (decimalText n) (js "h") = Some (sign * (60 * Z.of_N n))%Z.
Proof.
  unfold readUnits. destruct (decimalText_cons n) as (c & t & E & _).
  rewrite <- (parse_decimalText n). rewrite E. reflexivity.
Qed.

Lemma readUnits_hours_minutes (sign : Z) (n k : N) :
  readUnits sign (decimalText n) (js "h " ++ decimalText k ++ js "m")
  = Some (sign * (60 * Z.of_N n + Z.of_N k))%Z.
Proof.
  unfold readUnits. destruct (decimalText_cons n) as (c & t & E & _).
  rewrite <- (parse_decimalText n), <- (parse_decimalText k). rewrite E.
  change (js "m") with [109%N]. change (js "h") with [104%N].
  change (js "h ") with [104%N; 32%N].
  cbn [app jsstring_eqb starts_with skipn N.eqb Pos.eqb andb].
  rewrite (spanDigits_app (decimalText k) [109%N] (decimalText_chars k) eq_refl).
  reflexivity.
Qed.

Lemma statusText_nonneg (z : Z) : (0 <= z)%Z -> statusText z = decimalText (Z.to_N z).
Proof.
  intros H. unfold statusText. apply Z.ltb_ge in H. now rewrite H.
Qed.

Lemma duration_reads_back (m : Z) : readDuration (formatDuration (Num m)) = Some m.
Proof.
  cbn [formatDuration]. destruct (Z.ltb_spec m 60) as [Hlt|Hge].
  - destruct (Z.ltb_spec m 0) as [Hneg|Hpos].
    + unfold statusText. apply Z.ltb_lt in Hneg as Hb. rewrite Hb. cbn [app].
      rewrite readDuration_signed by reflexivity.
      rewrite readUnits_minutes. f_equal. lia.
    + rewrite statusText_nonneg by lia.
      rewrite readDuration_unsigned by reflexivity.
      rewrite readUnits_minutes. f_equal. lia.
  - assert (Hq : (0 <= m / 60)%Z) by (apply Z.div_pos; lia).
    assert (Hr : (0 <= Z.rem m 60 < 60)%Z) by (apply Z.rem_bound_pos; lia).
    pose proof (Z.quot_rem' m 60) as Hm.
    rewrite Z.quot_div_nonneg in Hm by lia.
    destruct (Z.eqb_spec (Z.rem m 60) 0) as [H0|Hn0].
    + rewrite statusText_nonneg by lia.
      rewrite readDuration_unsigned by reflexivity.
      rewrite readUnits_hours. f_equal. lia.
    + rewrite !statusText_nonneg by lia.
      rewrite readDuration_unsigned by reflexivity.
      rewrite readUnits_hours_minutes. f_equal. lia.
Qed.

(** X26: a duration can be read back from its rendering: the minutes
    alone below one hour (with the sign of a negative duration), the hours
    alone for full hours, hours and minutes otherwise; so two different
    durations, the not-a-number one included, are never rendered alike. *)
Theorem duration_text_is_unambiguous :
  (forall m, readDuration (formatDuration (Num m)) = Some m)
  /\ readDuration (formatDuration NaN) = None
  /\ (forall a b, formatDuration a = formatDuration b -> a = b).
Proof.
  split; [exact duration_reads_back|]. split; [reflexivity|].
  intros [|a] [|b] H.
  - reflexivity.
  - apply (f_equal readDuration) in H. rewrite duration_reads_back in H.
    discriminate H.
  - apply (f_equal readDuration) in H. rewrite duration_reads_back in H.
    discriminate H.
  - apply (f_equal readDuration) in H. rewrite !duration_reads_back in H.
    now injection H as ->.
Qed.

(** ** Frontmatter values *)

Lemma list_length_ind {A} (P : list A -> Prop) :
  (forall s, (forall t, length t < length s -> P t) -> P s) -> forall s, P s.
Proof.
  intros H s. assert (Hn : forall n t, length t < n -> P t).
  { induction n as [|n IH]; intros t Ht; [lia|].
    apply H. intros u Hu. apply IH. lia. }
  apply (Hn (S (length s))). lia.
Qed.

Lemma quoteJSON_cases (c : code_unit) (t : jsstring) :
  (exists x, In (c, x) [(8, 98); (9, 116); (10, 110); (12, 102); (13, 114);
                         (34, 34); (92, 92)]%N
             /\ quoteJSON (c :: t) = 92%N :: x :: quoteJSON t)
  \/ (((c < 32)%N \/ (55296 <= c <= 57343)%N)
      /\ quoteJSON (c :: t) = unicodeEscape c ++ quoteJSON t)
  \/ ((32 <= c)%N /\ c <> 34%N /\ c <> 92%N
      /\ ((quoteJSON (c :: t) = c :: quoteJSON t)
          \/ exists d t', t = d :: t' /\ (32 <= d)%N /\ d <> 34%N /\ d <> 92%N
                          /\ quoteJSON (c :: t) = c :: d :: quoteJSON t')).
Proof.
  cbn [quoteJSON].
  destruct (N.eqb_spec c 8) as [->|H8]; [left; exists 98%N; cbn; auto 10|].
  destruct (N.eqb_spec c 9) as [->|H9]; [left; exists 116%N; cbn; auto 10|].
  destruct (N.eqb_spec c 10) as [->|H10]; [left; exists 110%N; cbn; auto 10|].
  destruct (N.eqb_spec c 12) as [->|H12]; [left; exists 102%N; cbn; auto 10|].
  destruct (N.eqb_spec c 13) as [->|H13]; [left; exists 114%N; cbn; auto 10|].
  destruct (N.eqb_spec c 34) as [->|H34]; [left; exists 34%N; cbn; auto 10|].
  destruct (N.eqb_spec c 92) as [->|H92]; [left; exists 92%N; cbn; auto 10|].
  right. destruct (N.ltb_spec c 32) as [Hlt|Hge]; [left; split; [now left|reflexivity]|].
  unfold isLeadingSurrogate, isTrailingSurrogate.
  destruct (N.leb_spec 55296 c) as [Ha|Ha]; cbn [andb].
  - destruct (N.leb_spec c 56319) as [Hb|Hb].
    + destruct t as [|d t'].
      * left. split; [right; lia|now rewrite app_nil_r].
      * destruct (N.leb_spec 56320 d) as [Hc|Hc]; cbn [andb].
        -- destruct (N.leb_spec d 57343) as [Hd|Hd].
           ++ right. split; [exact Hge|]. split; [exact H34|]. split; [exact H92|].
              right. exists d, t'. repeat split; try lia.
           ++ left. split; [right; lia|reflexivity].
        -- left. split; [right; lia|reflexivity].
    + destruct (N.leb_spec 56320 c) as [Hc|Hc]; cbn [andb].
      * destruct (N.leb_spec c 57343) as [Hd|Hd].
        -- left. split; [right; lia|reflexivity].
        -- right. repeat split; try assumption. now left.
      * right. repeat split; try assumption. now left.
  - destruct (N.leb_spec 56320 c) as [Hc|Hc]; cbn [andb]; [lia|].
    right. repeat split; try assumption. now left.
Qed.

Lemma hexDigit_ge (n : N) : (48 <= hexDigit n)%N.
Proof. unfold hexDigit. destruct (N.ltb n 10); lia. Qed.

Lemma unicodeEscape_chars (c : code_unit) : Forall (fun x => (32 <= x)%N) (unicodeEscape c).
Proof.
  unfold unicodeEscape.
  repeat (constructor; [first [lia|pose proof (hexDigit_ge (c / 4096));
                               pose proof (hexDigit_ge ((c / 256) mod 16));
                               pose proof (hexDigit_ge ((c / 16) mod 16));
                               pose proof (hexDigit_ge (c mod 16));
                               revert H H0 H1 H2;
                               generalize (hexDigit (c / 4096))
                                          (hexDigit ((c / 256) mod 16))
                                          (hexDigit ((c / 16) mod 16))
                                          (hexDigit (c mod 16));
                               intros; lia]|]).
  constructor.
Qed.

Lemma quoteJSON_chars (s : jsstring) : Forall (fun x => (32 <= x)%N) (quoteJSON s).
Proof.
  induction s as [s IH] using list_length_ind.
  destruct s as [|c t]; [constructor|].
  destruct (quoteJSON_cases c t)
    as [(x & Hx & ->)|[(_ & ->)|(Hc & _ & _ & [->|(d & t' & -> & Hd & _ & _ & ->)])]].
  - constructor; [lia|]. constructor; [|apply IH; cbn [length]; lia].
    cbn [In] in Hx.
    repeat (destruct Hx as [Hx|Hx]; [injection Hx as _ <-; lia|]). contradiction.
  - apply Forall_app. split; [apply unicodeEscape_chars|apply IH; cbn [length]; lia].
  - constructor; [exact Hc|apply IH; cbn [length]; lia].
  - constructor; [exact Hc|]. constructor; [exact Hd|apply IH; cbn [length]; lia].
Qed.

Lemma quoteJSON_length (s : jsstring) : length s <= length (quoteJSON s).
Proof.
  induction s as [s IH] using list_length_ind.
  destruct s as [|c t]; [cbn; lia|].
  destruct (quoteJSON_cases c t)
    as [(x & Hx & ->)|[(_ & ->)|(Hc & _ & _ & [->|(d & t' & -> & Hd & _ & _ & ->)])]].
  - specialize (IH t ltac:(cbn [length]; lia)). cbn [length]. lia.
  - specialize (IH t ltac:(cbn [length]; lia)).
    rewrite length_app. unfold unicodeEscape. cbn [length]. lia.
  - specialize (IH t ltac:(cbn [length]; lia)). cbn [length]. lia.
  - specialize (IH t' ltac:(cbn [length]; lia)). cbn [length]. lia.
Qed.

Lemma hexValue_hexDigit (n : N) : (n < 16)%N -> hexValue (hexDigit n) = n.
Proof.
  intros H. unfold hexValue, hexDigit.
  destruct (N.ltb_spec n 10) as [Hn|Hn].
  - destruct (N.ltb_spec (48 + n) 58); lia.
  - destruct (N.ltb_spec (87 + n) 58); lia.
Qed.

Lemma hex_decompose (c : N) :
  (c < 65536)%N ->
  (4096 * (c / 4096) + 256 * ((c / 256) mod 16) + 16 * ((c / 16) mod 16) + c mod 16 = c
   /\ c / 4096 < 16)%N.
Proof.
  intros H.
  pose proof (N.div_mod c 16 ltac:(lia)) as E1.
  pose proof (N.div_mod (c / 16) 16 ltac:(lia)) as E2.
  pose proof (N.div_mod (c / 256) 16 ltac:(lia)) as E3.
  replace (c / 16 / 16)%N with (c / 256)%N in E2 by (rewrite N.Div0.div_div; reflexivity).
  replace (c / 256 / 16)%N with (c / 4096)%N in E3 by (rewrite N.Div0.div_div; reflexivity).
  assert (B1 : (c mod 16 < 16)%N) by (apply N.mod_lt; lia).
  assert (B2 : ((c / 16) mod 16 < 16)%N) by (apply N.mod_lt; lia).
  assert (B3 : ((c / 256) mod 16 < 16)%N) by (apply N.mod_lt; lia).
  remember (c mod 16)%N as m1 eqn:Q1. remember ((c / 16) mod 16)%N as m2 eqn:Q2.
  remember ((c / 256) mod 16)%N as m3 eqn:Q3.
  remember (c / 16)%N as q1 eqn:Q4. remember (c / 256)%N as q2 eqn:Q5.
  remember (c / 4096)%N as q3 eqn:Q6.
  clear Q1 Q2 Q3 Q4 Q5 Q6. split; lia.
Qed.

Lemma unquote_escape (c : code_unit) (q : jsstring) :
  (c < 65536)%N -> unquoteJSON (unicodeEscape c ++ q) = c :: unquoteJSON q.
Proof.
  intros H. destruct (hex_decompose c H) as [E B].
  unfold unicodeEscape. cbn [app unquoteJSON]. rewrite !N.eqb_refl.
  rewrite !hexValue_hexDigit by (first [exact B|apply N.mod_lt; lia]).
  now rewrite E.
Qed.

Lemma unquote_raw (c : code_unit) (q : jsstring) :
  c <> 92%N -> unquoteJSON (c :: q) = c :: unquoteJSON q.
Proof. intros H. cbn [unquoteJSON]. apply N.eqb_neq in H. now rewrite H. Qed.

Lemma unquote_quote (s : jsstring) : unquoteJSON (quoteJSON s) = s.
Proof.
  induction s as [s IH] using list_length_ind.
  destruct s as [|c t]; [reflexivity|].
  destruct (quoteJSON_cases c t)
    as [(x & Hx & ->)|[(Hc & ->)|(Hc & _ & H92 & [->|(d & t' & -> & Hd & _ & Hd92 & ->)])]].
  - specialize (IH t ltac:(cbn [length]; lia)). cbn [In] in Hx.
    repeat (destruct Hx as [Hx|Hx];
            [injection Hx as <- <-; cbn [unquoteJSON]; rewrite IH; reflexivity|]).
    contradiction.
  - rewrite unquote_escape by lia. f_equal. apply IH. cbn [length]. lia.
  - rewrite unquote_raw by exact H92. f_equal. apply IH. cbn [length]. lia.
  - rewrite unquote_raw by exact H92. rewrite unquote_raw by exact Hd92.
    do 2 f_equal. apply IH. cbn [length]. lia.
Qed.

Lemma quoteJSON_injective (a b : jsstring) : quoteJSON a = quoteJSON b -> a = b.
Proof.
  intros H. apply (f_equal unquoteJSON) in H. now rewrite !unquote_quote in H.
Qed.

Lemma JSONstringify_injective (a b : jsstring) :
  JSONstringify a = JSONstringify b -> a = b.
Proof.
  unfold JSONstringify. cbn [app]. intros H. injection H as H.
  apply app_inv_tail in H. now apply quoteJSON_injective.
Qed.

Definition plainValue (s : jsstring) : Prop :=
  (forall c, In c s -> yamlSpecial c = false) /\ trim s = s.

Lemma yamlSafeValue_plain (s : jsstring) :
  plainValue s -> yamlSafeValue (YString s) = s.
Proof.
  intros [Hs Ht]. cbn [yamlSafeValue].
  replace (existsb yamlSpecial s) with false.
  - rewrite Ht. replace (jsstring_eqb s s) with true; [reflexivity|].
    symmetry. now apply jsstring_eqb_eq.
  - symmetry. apply not_true_is_false. intros H. apply existsb_exists in H.
    destruct H as (c & Hc & Hy). rewrite (Hs c Hc) in Hy. discriminate Hy.
Qed.

Lemma yamlSafeValue_cases (s : jsstring) :
  (plainValue s /\ yamlSafeValue (YString s) = s)
  \/ (~ plainValue s /\ yamlSafeValue (YString s) = JSONstringify s).
Proof.
  cbn [yamlSafeValue]. destruct (existsb yamlSpecial s) eqn:Ee; cbn [orb].
  - right. split; [|reflexivity]. intros [Hs _]. apply existsb_exists in Ee.
    destruct Ee as (c & Hc & Hy). rewrite (Hs c Hc) in Hy. discriminate Hy.
  - destruct (jsstring_eqb (trim s) s) eqn:Et; cbn [negb].
    + left. split; [|reflexivity]. split.
      * intros c Hc. apply not_true_is_false. intros Hy.
        assert (existsb yamlSpecial s = true) by (apply existsb_exists; eauto).
        congruence.
      * now apply jsstring_eqb_eq.
    + right. split; [|reflexivity]. intros [_ Ht].
      apply jsstring_eqb_eq in Ht. congruence.
Qed.

Lemma numText_chars (n : num) : forall c, In c (numText n) -> c <> 10%N /\ c <> 13%N.
Proof.
  destruct n as [|z]; cbn [numText].
  - intros c Hc. cbn in Hc. repeat (destruct Hc as [<-|Hc]; [split; discriminate|]).
    contradiction.
  - intros c Hc. pose proof (statusText_chars z) as H.
    rewrite Forall_forall in H. specialize (H c Hc). unfold numeralChar in H. lia.
Qed.

Lemma yamlSafeValue_one_line (v : YamlInput) :
  forall c, In c (yamlSafeValue v) -> c <> 10%N /\ c <> 13%N.
Proof.
  destruct v as [|n|s].
  - intros c [].
  - apply numText_chars.
  - destruct (yamlSafeValue_cases s) as [[[Hs _] ->]|[_ ->]]; intros c Hc.
    + specialize (Hs c Hc). unfold yamlSpecial in Hs. cbn [existsb] in Hs.
      split; intros ->; discriminate Hs.
    + unfold JSONstringify in Hc. cbn [app] in Hc.
      destruct Hc as [<-|Hc]; [split; discriminate|].
      apply in_app_or in Hc. destruct Hc as [Hc|[<-|[]]]; [|split; discriminate].
      pose proof (quoteJSON_chars s) as H. rewrite Forall_forall in H.
      specialize (H c Hc). cbv beta in H. lia.
Qed.

(** X27: what [yamlSafeValue] returns is always a single line: it contains
    no line feed and no carriage return, whatever the input.  A string is
    returned unchanged exactly when it has none of the characters of the
    tested class and no white space at either end; every other string is
    returned as its JSON quotation, in which no code unit is below U+0020
    (DEL and the controls from U+0080 to U+009F are left as they are). *)
Theorem yaml_value_is_one_line :
  (forall v c, In c (yamlSafeValue v) -> c <> 10%N /\ c <> 13%N)
  /\ (forall s, yamlSafeValue (YString s) = s <-> plainValue s)
  /\ (forall s, ~ plainValue s ->
        yamlSafeValue (YString s) = JSONstringify s
        /\ forall c, In c (yamlSafeValue (YString s)) -> (32 <= c)%N).
Proof.
  split; [exact yamlSafeValue_one_line|]. split.
  - intros s. split; [|apply yamlSafeValue_plain].
    intros H. destruct (yamlSafeValue_cases s) as [[Hp _]|[_ E]]; [exact Hp|].
    rewrite E in H. apply (f_equal (@length _)) in H.
    unfold JSONstringify in H. cbn [app length] in H. rewrite length_app in H.
    cbn [length] in H. pose proof (quoteJSON_length s). lia.
  - intros s Hn. destruct (yamlSafeValue_cases s) as [[Hp _]|[_ E]]; [contradiction|].
    split; [exact E|]. rewrite E. intros c Hc.
    unfold JSONstringify in Hc. cbn [app] in Hc. destruct Hc as [<-|Hc]; [lia|].
    apply in_app_or in Hc. destruct Hc as [Hc|[<-|[]]]; [|lia].
    pose proof (quoteJSON_chars s) as H. rewrite Forall_forall in H.
    exact (H c Hc).
Qed.

(** X28: quoting loses nothing: reading the quoted text back as JSON gives
    the original string, and two different strings never get the same
    frontmatter value. *)
Theorem yaml_value_keeps_the_string :
  (forall s, unquoteJSON (quoteJSON s) = s)
  /\ (forall a b, yamlSafeValue (YString a) = yamlSafeValue (YString b) -> a = b).
Proof.
  split; [exact unquote_quote|].
  assert (Hmix : forall a b, plainValue a -> a = JSONstringify b -> False).
  { intros a b [Ha _] E. specialize (Ha 34%N). rewrite E in Ha.
    specialize (Ha (or_introl eq_refl)). discriminate Ha. }
  intros a b H.
  destruct (yamlSafeValue_cases a) as [[Ha Ea]|[_ Ea]];
    destruct (yamlSafeValue_cases b) as [[Hb Eb]|[_ Eb]]; rewrite Ea, Eb in H.
  - exact H.
  - exfalso. exact (Hmix a b Ha H).
  - exfalso. exact (Hmix b a Hb (eq_sym H)).
  - now apply JSONstringify_injective.
Qed.

Lemma yaml_value_is_one_line_witness :
  yamlSafeValue (YString (js "Investigating: cause"))
  = JSONstringify (js "Investigating: cause").
Proof.
  refine (proj1 (proj2 (proj2 yaml_value_is_one_line) (js "Investigating: cause") _)).
  intros [H _]. specialize (H 58%N). cbn in H.
  discriminate H. do 13 right. now left.
Defined.

Lemma yaml_value_keeps_the_string_witness :
  js "DB: down" = js "DB: down".
Proof.
  exact (proj2 yaml_value_keeps_the_string (js "DB: down") (js "DB: down") eq_refl).
Defined.

(** ** The frontmatter block *)

Ltac not_in_literal :=
  let H := fresh in
  intros H; cbn in H; repeat (destruct H as [H|H]; [discriminate H|]); exact H.

Lemma field_no_LF (key value : jsstring) :
  ~ In LF key -> (forall c, In c value -> c <> 10%N /\ c <> 13%N) -> ~ In LF (key ++ value).
Proof.
  intros Hk Hv H. apply in_app_or in H. destruct H as [H|H]; [now apply Hk|].
  now apply (proj1 (Hv LF H)).
Qed.

Lemma optionalField_lines (key : jsstring) (v : option jsstring) (l : jsstring) :
  ~ In LF key -> In l (optionalField key v) ->
  ~ In LF l /\ exists value, l = key ++ value.
Proof.
  intros Hk Hl. unfold optionalField in Hl.
  destruct v as [s|]; [|contradiction]. destruct (truthy s); [|contradiction].
  destruct Hl as [<-|[]]. split; [|eauto].
  apply field_no_LF; [exact Hk|apply yamlSafeValue_one_line].
Qed.

Lemma optionalField_length (key : jsstring) (v : option jsstring) :
  length (optionalField key v) <= 1.
Proof.
  unfold optionalField. destruct v as [s|]; [destruct (truthy s)|]; cbn [length]; lia.
Qed.

Lemma frontmatterFields_lines (incident : FullIncident) (more : NoteFields) (l : jsstring) :
  In l (frontmatterFields incident more) ->
  ~ In LF l /\ starts_with (js "---") l = false.
Proof.
  unfold frontmatterFields. intros H.
  apply in_app_or in H. destruct H as [H|H].
  - cbn [In] in H.
    repeat (destruct H as [<-|H];
            [split; [apply field_no_LF; [not_in_literal|apply yamlSafeValue_one_line]
                    |reflexivity]|]).
    contradiction.
  - apply in_app_or in H. destruct H as [H|H].
    { apply optionalField_lines in H; [|not_in_literal].
      destruct H as [Hl [value ->]]. split; [exact Hl|reflexivity]. }
    apply in_app_or in H. destruct H as [H|H].
    { apply optionalField_lines in H; [|not_in_literal].
      destruct H as [Hl [value ->]]. split; [exact Hl|reflexivity]. }
    apply in_app_or in H. destruct H as [H|H].
    { apply optionalField_lines in H; [|not_in_literal].
      destruct H as [Hl [value ->]]. split; [exact Hl|reflexivity]. }
    destruct (durationMinutes incident) as [d|]; [|contradiction].
    destruct H as [<-|[]]. split; [|reflexivity].
    apply field_no_LF; [not_in_literal|apply numText_chars].
Qed.

(** X29: the frontmatter block has exactly one line per field, whatever the
    field values contain: its lines are the opening dashes, the 7 to 11
    field lines in the order of the source, and the closing dashes; and no
    field line begins with three dashes, so only the last line closes the
    block. *)
Theorem frontmatter_one_line_per_field (incident : FullIncident) (more : NoteFields) :
  split_lines (formatFrontmatter incident more)
  = [js "---"] ++ frontmatterFields incident more ++ [js "---"]
  /\ 7 <= length (frontmatterFields incident more) <= 11
  /\ (forall l, In l (frontmatterFields incident more) ->
        starts_with (js "---") l = false).
Proof.
  split; [|split].
  - unfold formatFrontmatter. apply split_join; [discriminate|].
    intros l Hl. apply in_app_or in Hl. destruct Hl as [Hl|Hl].
    + destruct Hl as [<-|[]]. not_in_literal.
    + apply in_app_or in Hl. destruct Hl as [Hl|Hl].
      * exact (proj1 (frontmatterFields_lines incident more l Hl)).
      * destruct Hl as [<-|[]]. not_in_literal.
  - unfold frontmatterFields. rewrite !length_app. cbn [length].
    pose proof (optionalField_length (js "updated_at: ") (note_updated_at more)).
    pose proof (optionalField_length (js "closed_at: ") (full_closed_at incident)).
    pose proof (optionalField_length (js "type: ") (note_incidentType more)).
    destruct (durationMinutes incident); cbn [length]; lia.
  - intros l Hl. exact (proj2 (frontmatterFields_lines incident more l Hl)).
Qed.

Lemma frontmatter_one_line_per_field_witness :
  starts_with (js "---") (js "name: " ++ yamlSafeValue (YString (doc ["DB down"; "---"]%string)))
  = false.
Proof.
  refine (proj2 (proj2 (frontmatter_one_line_per_field awkwardIncident awkwardFields)) _ _).
  cbn. do 2 right. now left.
Defined.

(** ** The settings validators *)







Lemma duration_text_is_unambiguous_witness :
  Num 90 = Num (60 + 30).
Proof.
  exact (proj2 (proj2 duration_text_is_unambiguous) (Num 90) (Num (60 + 30)) eq_refl).
Defined.
